(** * Colour: RIMM / ROMM / ERIMM transfer functions and the Sony .spi1d
      codec

    A shallow embedding of two modules of the [colour] library:

    - [colour/models/rgb/transfer_functions/rimm_romm_rgb.py]
      (module [Rimm_romm_rgb] below), and
    - [colour/io/luts/sony_spi1d.py] (module [Sony_spi1d] below).

    Numbers.  The Python code computes on IEEE binary64 values through
    NumPy.  The transfer functions are embedded over the real numbers [R]
    of the Standard Library: every formula is transcribed operator by
    operator, and a statement proved here is a statement about the
    formulas evaluated exactly.  An integer code value is a 64-bit
    integer, as in the code.  The codec is embedded over the rationals
    [Q], kept in lowest terms, which are closed under the decimal
    formatting and parsing the codec performs. *)

From Stdlib Require Import Reals Lra Lia ZArith List Bool.
Import ListNotations.

(** The range of NumPy's default integer type, [int64]. *)
Definition INT64_MIN : Z := - 2 ^ 63.
Definition INT64_MAX : Z := 2 ^ 63 - 1.

(** ** Part I: [rimm_romm_rgb.py] *)

Module Rimm_romm_rgb.

Local Open Scope R_scope.

(** *** NumPy primitives used by the module *)

(** Comparison operators [<], [<=], [>], [>=] on scalars. *)
Definition Rltb (a b : R) : bool := if Rlt_dec a b then true else false.
Definition Rleb (a b : R) : bool := if Rle_dec a b then true else false.
Definition Rgtb (a b : R) : bool := Rltb b a.
Definition Rgeb (a b : R) : bool := Rleb b a.

(** [np.where(condition, x, y)] on a scalar. *)
Definition np_where (condition : bool) (x y : R) : R :=
  if condition then x else y.

(** [np.select(condlist, choicelist)] on a scalar: the choice of the
    FIRST condition that holds, and the default [0] when none does. *)
Fixpoint np_select (condlist : list bool) (choicelist : list R) : R :=
  match condlist, choicelist with
  | c :: condlist', x :: choicelist' =>
      if c then x else np_select condlist' choicelist'
  | _, _ => 0
  end.

(** [np.sign]. *)
Definition np_sign (a : R) : R :=
  if Rlt_dec a 0 then -1 else if Rlt_dec 0 a then 1 else 0.

(** [np.round]: to the nearest integer, ties to the even one. *)
Definition np_round (x : R) : Z :=
  let f := Int_part x in
  let d := x - IZR f in
  if Rlt_dec d (1 / 2) then f
  else if Rlt_dec (1 / 2) d then (f + 1)%Z
  else if Z.even f then f else (f + 1)%Z.

(** Modelled from the spec: [colour.algebra.spow], the signed power, is not
    among the sources.  Section 4.1 and the glossary: "exponentiation
    preserving the sign of a negative base, magnitude-only exponentiation".
    [Rpower 0 p] is [1] in the Standard Library, and [np_sign 0 = 0] makes
    [spow 0 p = 0]. *)
Definition spow (a p : R) : R := np_sign a * Rpower (Rabs a) p.

(** Modelled from the spec: [to_domain_1] and [from_range_1] of
    [colour.utilities] are not among the sources.  Section 6: under the
    default "reference" setting of the ambient domain-range scale (and
    under "1" and "ignore") they leave a value in [[0, 1]] as it is. *)
Definition to_domain_1 (a : R) : R := a.
Definition from_range_1 (a : R) : R := a.

(** The result of an encoding: a 64-bit integer code value when [out_int]
    is set, a floating point value ([as_float]) otherwise. *)
Inductive NDArrayReal : Type :=
| int64 (z : Z)
| as_float (r : R).

(** Modelled from the spec: [as_int] of [colour.utilities] is not among
    the sources.  Section 4.1: the rounded value is returned "as integer
    code value".  The integer type is NumPy's default one, [int64], and
    the conversion of a floating point value outside its range gives
    [INT64_MIN], the "integer indefinite" value of the conversion
    instruction. *)
Definition as_int (z : Z) : NDArrayReal :=
  int64 (if (INT64_MIN <=? z)%Z && (z <=? INT64_MAX)%Z then z
         else INT64_MIN).

(** The number an encoding result stands for, as a decoder receives it. *)
Definition value (v : NDArrayReal) : R :=
  match v with
  | int64 z => IZR z
  | as_float r => r
  end.

(** *** The transfer functions

    The arithmetic of [R] is total where that of binary64 is not: the
    logarithm of a number that is not positive and a quotient by [0] are
    numbers here, [nan] or an infinity in the code.  The functions below
    compute what the code computes where no such value arises: at a bit
    depth of 1 bit at least ([I_max] is positive), with [V_clip] other
    than [0] for RIMM RGB, and with [E_min] and [E_clip] positive and
    different for ERIMM.  A bit depth is a Python integer and [I_max] is
    computed exactly; the NumPy expressions convert it to binary64, which
    represents it exactly up to 53 bits and has no value for it beyond
    1023 bits. *)

Definition cctf_encoding_ROMMRGB (X : R) (bit_depth : Z) (out_int : bool)
  : NDArrayReal :=
  let X := to_domain_1 X in
  let I_max := IZR (2 ^ bit_depth - 1) in
  let E_t := Rpower 16 (1.8 / (1 - 1.8)) in
  let X_p :=
    np_where (Rltb X E_t) (X * 16 * I_max) (spow X (1 / 1.8) * I_max) in
  if out_int then as_int (np_round X_p)
  else as_float (from_range_1 (X_p / I_max)).

Definition cctf_decoding_ROMMRGB (X_p : R) (bit_depth : Z) (in_int : bool)
  : R :=
  let X_p := to_domain_1 X_p in
  let I_max := IZR (2 ^ bit_depth - 1) in
  let X_p := if negb in_int then X_p * I_max else X_p in
  let E_t := Rpower 16 (1.8 / (1 - 1.8)) in
  let X :=
    np_where (Rltb X_p (16 * E_t * I_max))
      (X_p / (16 * I_max))
      (spow (X_p / I_max) 1.8) in
  from_range_1 X.

Definition cctf_encoding_RIMMRGB
  (X : R) (bit_depth : Z) (out_int : bool) (E_clip : R) : NDArrayReal :=
  let X := to_domain_1 X in
  let I_max := IZR (2 ^ bit_depth - 1) in
  let V_clip := 1.099 * spow E_clip 0.45 - 0.099 in
  let q := I_max / V_clip in
  let X_p :=
    q * np_select
          [Rltb X 0.0; Rltb X 0.018; Rgeb X 0.018; Rgtb X E_clip]
          [0; 4.5 * X; 1.099 * spow X 0.45 - 0.099; I_max] in
  if out_int then as_int (np_round X_p)
  else as_float (from_range_1 (X_p / I_max)).

Definition cctf_decoding_RIMMRGB
  (X_p : R) (bit_depth : Z) (in_int : bool) (E_clip : R) : R :=
  let X_p := to_domain_1 X_p in
  let I_max := IZR (2 ^ bit_depth - 1) in
  let X_p := if negb in_int then X_p * I_max else X_p in
  let V_clip := 1.099 * spow E_clip 0.45 - 0.099 in
  let m := V_clip * X_p / I_max in
  let X :=
    np_where
      (Rltb (X_p / I_max)
         (value (cctf_encoding_RIMMRGB 0.018 bit_depth false E_clip)))
      (m / 4.5)
      (spow ((m + 0.099) / 1.099) (1 / 0.45)) in
  from_range_1 X.

Definition log_encoding_ERIMMRGB
  (X : R) (bit_depth : Z) (out_int : bool) (E_min E_clip : R)
  : NDArrayReal :=
  let X := to_domain_1 X in
  let I_max := IZR (2 ^ bit_depth - 1) in
  let E_t := exp 1 * E_min in
  let l_E_t := ln E_t in
  let l_E_min := ln E_min in
  let l_E_clip := ln E_clip in
  let X_p :=
    np_select
      [Rltb X 0.0; Rleb X E_t; Rgtb X E_t; Rgtb X E_clip]
      [0;
       I_max * ((l_E_t - l_E_min) / (l_E_clip - l_E_min)) * X / E_t;
       I_max * ((ln X - l_E_min) / (l_E_clip - l_E_min));
       I_max] in
  if out_int then as_int (np_round X_p)
  else as_float (from_range_1 (X_p / I_max)).

Definition log_decoding_ERIMMRGB
  (X_p : R) (bit_depth : Z) (in_int : bool) (E_min E_clip : R) : R :=
  let X_p := to_domain_1 X_p in
  let I_max := IZR (2 ^ bit_depth - 1) in
  let X_p := if negb in_int then X_p * I_max else X_p in
  let E_t := exp 1 * E_min in
  let l_E_t := ln E_t in
  let l_E_min := ln E_min in
  let l_E_clip := ln E_clip in
  let X :=
    np_where
      (Rleb X_p (I_max * ((l_E_t - l_E_min) / (l_E_clip - l_E_min))))
      (((l_E_clip - l_E_min) / (l_E_t - l_E_min)) * ((X_p * E_t) / I_max))
      (exp ((X_p / I_max) * (l_E_clip - l_E_min) + l_E_min)) in
  from_range_1 X.

(** The default arguments of the Python signatures. *)
Definition default_bit_depth : Z := 8.
Definition RIMM_E_clip : R := 2.0.
Definition ERIMM_E_min : R := 0.001.
Definition ERIMM_E_clip : R := 316.2.

(** *** The curves in closed form

    The piecewise curves the selectors above compute, written with the
    branch that is taken; the theorems relate each encoding to its curve
    before they reason about it. *)

(** ROMM RGB, normalised to [I_max = 1]; the breakpoint is [2 ** -9]. *)
Definition ROMM_curve (X : R) : R :=
  if Rlt_dec X (/ 512) then 16 * X else Rpower X (1 / 1.8).

(** RIMM RGB before the scaling by [q]. *)
Definition RIMM_curve (X : R) : R :=
  if Rlt_dec X 0 then 0
  else if Rlt_dec X 0.018 then 4.5 * X
  else 1.099 * Rpower X 0.45 - 0.099.

Definition RIMM_V_clip (E_clip : R) : R := 1.099 * spow E_clip 0.45 - 0.099.

(** ERIMM RGB, normalised to [I_max = 1]. *)
Definition ERIMM_curve (E_min E_clip X : R) : R :=
  let E_t := exp 1 * E_min in
  if Rlt_dec X 0 then 0
  else if Rle_dec X E_t
       then (ln E_t - ln E_min) / (ln E_clip - ln E_min) * X / E_t
       else (ln X - ln E_min) / (ln E_clip - ln E_min).

End Rimm_romm_rgb.

(** ** Certified comparison of large integer powers

    The bounds on quotients of logarithms used for the ERIMM examples
    compare integer powers with thousands of digits.  The powers are
    bracketed instead by numbers [m * 2 ^ e] whose mantissa [m] is kept
    near 64 bits: a lower bracket rounds every product down, an upper
    bracket rounds it up, and the comparison of the brackets decides the
    comparison of the powers. *)

Module Interval_power.

Local Open Scope Z_scope.

(** A pair [(m, e)] stands for the integer [m * 2 ^ e]. *)
Definition val (me : Z * Z) : Z := fst me * 2 ^ snd me.

(** Mantissa and exponent are never negative. *)
Definition wf (me : Z * Z) : Prop := 0 <= fst me /\ 0 <= snd me.

(** The number of low bits dropped from a mantissa. *)
Definition excess (m : Z) : Z := Z.max 0 (Z.log2 m - 64).

Definition trunc_lo (me : Z * Z) : Z * Z :=
  let s := excess (fst me) in (fst me / 2 ^ s, snd me + s).

Definition trunc_up (me : Z * Z) : Z * Z :=
  let s := excess (fst me) in ((fst me + 2 ^ s - 1) / 2 ^ s, snd me + s).

Definition fmul (a b : Z * Z) : Z * Z := (fst a * fst b, snd a + snd b).

Fixpoint pow_lo (x : Z) (n : positive) : Z * Z :=
  match n with
  | xH => (x, 0)
  | xO p => let r := pow_lo x p in trunc_lo (fmul r r)
  | xI p => let r := pow_lo x p in trunc_lo (fmul (x, 0) (fmul r r))
  end.

Fixpoint pow_up (x : Z) (n : positive) : Z * Z :=
  match n with
  | xH => (x, 0)
  | xO p => let r := pow_up x p in trunc_up (fmul r r)
  | xI p => let r := pow_up x p in trunc_up (fmul (x, 0) (fmul r r))
  end.

(** [a < b] for the integers two pairs stand for, comparing at the smaller
    exponent. *)
Definition fltb (a b : Z * Z) : bool :=
  let e := Z.min (snd a) (snd b) in
  fst a * 2 ^ (snd a - e) <? fst b * 2 ^ (snd b - e).

Definition pow_ltb (x : Z) (n : positive) (y : Z) (m : positive) : bool :=
  fltb (pow_up x n) (pow_lo y m).

End Interval_power.

(** ** Part II: [sony_spi1d.py]

    Texts.  A text of the codec, a file, a line or a token, is a [string]
    of the Standard Library: a sequence of characters of code points
    below 256.  The primitives of Python below are stated for such
    texts. *)

From Stdlib Require Import NArith QArith Qround Qabs String Ascii.

Module Sony_spi1d.

Local Open Scope string_scope.

(** *** Text primitives of Python used by the module *)

(** [str.isspace] on one character (code points below 256). *)
Definition isspace (c : ascii) : bool :=
  let n := N_of_ascii c in
  ((9 <=? n) && (n <=? 13) || (28 <=? n) && (n <=? 32)
   || (n =? 133) || (n =? 160))%N.

Fixpoint lstrip (s : string) : string :=
  match s with
  | String c s' => if isspace c then lstrip s' else s
  | EmptyString => EmptyString
  end.

Fixpoint rstrip (s : string) : string :=
  match s with
  | String c s' =>
      match rstrip s' with
      | EmptyString => if isspace c then EmptyString else String c EmptyString
      | r => String c r
      end
  | EmptyString => EmptyString
  end.

(** [str.strip()]. *)
Definition strip (s : string) : string := lstrip (rstrip s).

(** [str.split()]: the maximal runs of characters that are not white
    space. *)
Fixpoint split (s : string) : list string :=
  match s with
  | EmptyString => []
  | String c s' =>
      if isspace c then split s'
      else
        match s' with
        | EmptyString => [String c EmptyString]
        | String c' _ =>
            if isspace c' then String c EmptyString :: split s'
            else
              match split s' with
              | w :: ws => String c w :: ws
              | [] => [String c EmptyString]
              end
        end
  end.

(** [line[1:]]. *)
Definition slice_from_1 (s : string) : string :=
  match s with
  | String _ s' => s'
  | EmptyString => EmptyString
  end.

(** [str.startswith]. *)
Definition startswith (s prefix : string) : bool := String.prefix prefix s.

Definition LF : ascii := ascii_of_N 10.
Definition CR : ascii := ascii_of_N 13.

(** Reading in text mode with universal newlines: ["\r\n"] and ["\r"]
    arrive as ["\n"]. *)
Fixpoint universal_newlines (s : string) : string :=
  match s with
  | EmptyString => EmptyString
  | String c s' =>
      if Ascii.eqb c CR then
        match s' with
        | String c' s'' =>
            if Ascii.eqb c' LF then String LF (universal_newlines s'')
            else String LF (universal_newlines s')
        | EmptyString => String LF EmptyString
        end
      else String c (universal_newlines s')
  end.

(** [file.readlines()]: the lines of the text, each with its terminating
    line feed when it has one. *)
Fixpoint readlines (s : string) : list string :=
  match s with
  | EmptyString => []
  | String c s' =>
      if Ascii.eqb c LF then String c EmptyString :: readlines s'
      else
        match readlines s' with
        | l :: ls => String c l :: ls
        | [] => [String c EmptyString]
        end
  end.

(** *** Decimal numerals *)

Definition digit (n : N) : ascii := ascii_of_N (48 + n).

Definition digit_value (c : ascii) : option N :=
  let n := N_of_ascii c in
  if ((48 <=? n) && (n <=? 57))%N then Some (n - 48)%N else None.

(** The [k] least significant decimal digits of [n], most significant
    first, padded with zeros. *)
Fixpoint digits_fixed (k : nat) (n : N) : string :=
  match k with
  | O => EmptyString
  | S k' => digits_fixed k' (n / 10) ++ String (digit (n mod 10)) EmptyString
  end.

Fixpoint num_digits_fuel (fuel : nat) (n : N) : nat :=
  match fuel with
  | O => 1
  | S fuel' => if (n <? 10)%N then 1 else S (num_digits_fuel fuel' (n / 10))
  end.

(** The number of decimal digits of [n] (one for [0]); the binary size of
    [n] is fuel enough. *)
Definition num_digits (n : N) : nat := num_digits_fuel (N.to_nat (N.size n)) n.

(** [str(n)] of a natural number. *)
Definition str_N (n : N) : string := digits_fixed (num_digits n) n.

(** The leading decimal digits of [s]: their value on top of [acc], how
    many there are on top of [count], and the rest of [s].  A single
    underscore between two digits is passed over, as Python does in the
    text of a number. *)
Fixpoint take_digits (s : string) (acc : N) (count : nat)
  : N * nat * string :=
  match s with
  | EmptyString => (acc, count, s)
  | String c s' =>
      match digit_value c with
      | Some d => take_digits s' (10 * acc + d)%N (S count)
      | None =>
          match count, s' with
          | S _, String c' s'' =>
              match Ascii.eqb c "_", digit_value c' with
              | true, Some d => take_digits s'' (10 * acc + d)%N (S count)
              | _, _ => (acc, count, s)
              end
          | _, _ => (acc, count, s)
          end
      end
  end.

(** An optional sign: whether it is a minus, and the rest. *)
Definition take_sign (s : string) : bool * string :=
  match s with
  | String "-" s' => (true, s')
  | String "+" s' => (false, s')
  | _ => (false, s)
  end.

(** *** Numbers

    A number of the codec is a rational in lowest terms.  Python's [float]
    accepts more texts than the grammar below, those of an infinity and
    of [nan]; they have no value in [Q] and are refused here. *)

Local Open Scope Q_scope.

Definition pow10 (k : nat) : positive := Pos.of_nat (10 ^ k).

(** [10 ** e] for an integer exponent. *)
Definition Qpow10 (e : Z) : Q :=
  match e with
  | Z0 => 1
  | Zpos p => inject_Z (10 ^ Zpos p)
  | Zneg p => 1 # Z.to_pos (10 ^ Zpos p)
  end.

Definition is_exponent_mark (c : ascii) : bool :=
  (Ascii.eqb c "e" || Ascii.eqb c "E")%char.

(** [float(token)]: an optional sign, then ([parse_float_unsigned]) digits
    with an optional fraction (at least one digit in all) and an optional
    exponent. *)
Definition parse_float_unsigned (negative : bool) (s1 : string) : option Q :=
  let '(int_part, n_int, s2) := take_digits s1 0%N 0%nat in
  let '(frac_part, n_frac, s3) :=
    match s2 with
    | String "." s2' =>
        let '(all, n, rest) := take_digits s2' int_part 0%nat in
        (all, n, rest)
    | _ => (int_part, 0%nat, s2)
    end in
  if (n_int + n_frac =? 0)%nat then None
  else
    let mantissa := Z.of_N frac_part # pow10 n_frac in
    let signed := if negative then - mantissa else mantissa in
    match s3 with
    | EmptyString => Some (Qred signed)
    | String c s4 =>
        if is_exponent_mark c then
          let '(exp_negative, s5) := take_sign s4 in
          let '(e, n_exp, s6) := take_digits s5 0%N 0%nat in
          match n_exp, s6 with
          | S _, EmptyString =>
              let e := if exp_negative then (- Z.of_N e)%Z else Z.of_N e in
              Some (Qred (signed * Qpow10 e))
          | _, _ => None
          end
        else None
    end.

Definition parse_float (token : string) : option Q :=
  let '(negative, s1) := take_sign token in
  parse_float_unsigned negative s1.

(** The digits of an integer text after its first digit, on top of the
    value [acc] read so far: digits, each of which a single underscore may
    precede. *)
Fixpoint int_digits (s : string) (acc : N) : option N :=
  match s with
  | EmptyString => Some acc
  | String c s' =>
      match digit_value c with
      | Some d => int_digits s' (10 * acc + d)%N
      | None =>
          if Ascii.eqb c "_" then
            match s' with
            | String c' s'' =>
                match digit_value c' with
                | Some d => int_digits s'' (10 * acc + d)%N
                | None => None
                end
            | EmptyString => None
            end
          else None
      end
  end.

(** [int(token)]: an optional sign and at least one digit, with single
    underscores allowed between digits. *)
Definition parse_int (token : string) : option Z :=
  let '(negative, s1) := take_sign token in
  match s1 with
  | String c s2 =>
      match digit_value c with
      | Some d =>
          match int_digits s2 d with
          | Some n => Some (if negative then (- Z.of_N n)%Z else Z.of_N n)
          | None => None
          end
      | None => None
      end
  | EmptyString => None
  end.

Definition Qltb (a b : Q) : bool := negb (Qle_bool b a).

(** Rounding to the nearest integer, ties to the even one. *)
Definition Qround_half_even (x : Q) : Z :=
  let f := Qfloor x in
  match Qcompare (x - inject_Z f) (1 # 2) with
  | Lt => f
  | Gt => (f + 1)%Z
  | Eq => if Z.even f then f else (f + 1)%Z
  end.

(** The integer [round(|v| * 10 ** decimals)] a fixed-point format of [v]
    spells out. *)
Definition scaled_magnitude (decimals : nat) (v : Q) : N :=
  Z.to_N (Qround_half_even (Qabs v * inject_Z (Zpos (pow10 decimals)))).

(** ["{:0.{decimals}f}".format(v)]. *)
Definition format_float (decimals : nat) (v : Q) : string :=
  let n := scaled_magnitude decimals v in
  let scale := Npos (pow10 decimals) in
  let sign := if Qltb v 0 then "-"%string else ""%string in
  let fraction :=
    match decimals with
    | O => ""%string
    | S _ => ("." ++ digits_fixed decimals (n mod scale))%string
    end in
  (sign ++ str_N (n / scale) ++ fraction)%string.

(** The number a fixed-point format of [v] stands for. *)
Definition round_decimals (decimals : nat) (v : Q) : Q :=
  let n := Z.of_N (scaled_magnitude decimals v) in
  Qred ((if Qltb v 0 then - n else n)%Z # pow10 decimals).

(** *** Exceptions and results *)

(** The conditions the module attests, by the message of the source. *)
Inductive attestation : Type :=
| Only_1_or_3_components_are_supported
| LUT_domain_must_be_implicit
| LUT_must_be_either_a_1D_or_3x1D_LUT
| Non_uniform_LUT_domain_is_unsupported.

Inductive exception : Type :=
| AssertionError (a : attestation)  (* raised by [attest] *)
| ValueError                        (* a text that is no number; unpacking;
                                       a format without a precision *)
| OverflowError                     (* an integer beyond 64 bits *)
| IndexError                        (* [tokens[1]], [LUT[0]] out of range *)
| OSError                           (* [open] *)
| UnboundLocalError                 (* [LUT] never assigned *)
| ValidationError.                  (* a LUT constructor refusing its arguments *)

Inductive result (A : Type) : Type :=
| Ok (a : A)
| Raise (e : exception).

Arguments Ok {A} a.
Arguments Raise {A} e.

Definition bind {A B : Type} (r : result A) (k : A -> result B) : result B :=
  match r with
  | Ok a => k a
  | Raise e => Raise e
  end.

Notation "x <- r ;; k" := (bind r (fun x => k))
  (at level 61, r at next level, right associativity).

Definition attest (condition : bool) (a : attestation) : result unit :=
  if condition then Ok tt else Raise (AssertionError a).

(** Modelled from the spec: [as_int_scalar] of [colour.utilities] is not
    among the sources.  Section 7: "numeric parse failures are not
    specially wrapped and propagate as generic parse errors".  The
    conversion is NumPy's to its default integer type: the integer
    [int(token)], a [ValueError] when the text is no integer, held in 64
    bits, an [OverflowError] when it does not fit.  (Python refuses the
    text of an integer of more than 4300 digits, by default, with a
    [ValueError]; this limit is not modelled, and the theorem on the
    conversion is stated for shorter texts.) *)
Definition as_int_scalar (token : string) : result Z :=
  match parse_int token with
  | None => Raise ValueError
  | Some z =>
      if ((INT64_MIN <=? z) && (z <=? INT64_MAX))%Z then Ok z
      else Raise OverflowError
  end.

(** *** Arrays *)

(** The NumPy arrays the reader builds: of dimension 0, 1 or 2. *)
Inductive ndarray : Type :=
| nd0 (x : Q)
| nd1 (xs : list Q)
| nd2 (rows : list (list Q)).

Fixpoint parse_floats (tokens : list string) : result (list Q) :=
  match tokens with
  | [] => Ok []
  | t :: tokens' =>
      match parse_float t with
      | Some x => xs <- parse_floats tokens' ;; Ok (x :: xs)
      | None => Raise ValueError
      end
  end.

Fixpoint parse_rows (data : list (list string)) : result (list (list Q)) :=
  match data with
  | [] => Ok []
  | row :: data' =>
      xs <- parse_floats row ;;
      rows <- parse_rows data' ;;
      Ok (xs :: rows)
  end.

Definition same_width (rows : list (list Q)) : bool :=
  match rows with
  | [] => true
  | row :: rows' =>
      forallb (fun r => (List.length r =? List.length row)%nat) rows'
  end.

(** [as_float_array(data)] on the list of token rows: every token a number
    and every row as wide as the first. *)
Definition as_float_array (data : list (list string)) : result ndarray :=
  match data with
  | [] => Ok (nd1 [])
  | _ =>
      rows <- parse_rows data ;;
      if same_width rows then Ok (nd2 rows) else Raise ValueError
  end.

(** [np.squeeze]: the axes of length one removed. *)
Definition np_squeeze (a : ndarray) : ndarray :=
  match a with
  | nd0 x => nd0 x
  | nd1 [x] => nd0 x
  | nd1 xs => nd1 xs
  | nd2 [[x]] => nd0 x
  | nd2 [row] => nd1 row
  | nd2 rows =>
      if forallb (fun r => (List.length r =? 1)%nat) rows
      then nd1 (List.concat rows)
      else nd2 rows
  end.

(** *** LUT value objects *)

Record LUT1D : Type := Build_LUT1D {
  LUT1D_table : list Q;
  LUT1D_name : string;
  LUT1D_domain : list Q;
  LUT1D_comments : list string
}.

Record LUT3x1D : Type := Build_LUT3x1D {
  LUT3x1D_table : list (Q * Q * Q);
  LUT3x1D_name : string;
  LUT3x1D_domain : list (Q * Q * Q);
  LUT3x1D_comments : list string
}.

(** A LUT of the library: 1D, 3x1D, or of another kind (a 3D LUT), of which
    only whether its domain is explicit matters here. *)
Inductive AbstractLUT : Type :=
| LUT_1D (l : LUT1D)
| LUT_3x1D (l : LUT3x1D)
| LUT_other (domain_explicit : bool).

(** The argument of the writer: one LUT, or a [LUTSequence]. *)
Inductive LUT_argument : Type :=
| Single (l : AbstractLUT)
| LUTSequence (sequence : list AbstractLUT).

(** Modelled from the spec: the method [is_domain_explicit] of the LUT
    classes, which are not among the sources.  Section 3: an implicit
    domain is the 2-element interval (1D) or the 2x3 matrix (3x1D); an
    explicit one is an arbitrary sequence of input values. *)
Definition is_domain_explicit (l : AbstractLUT) : bool :=
  match l with
  | LUT_1D l => negb (List.length (LUT1D_domain l) =? 2)%nat
  | LUT_3x1D l => negb (List.length (LUT3x1D_domain l) =? 2)%nat
  | LUT_other explicit => explicit
  end.

Definition as_triple (row : list Q) : option (Q * Q * Q) :=
  match row with
  | [r; g; b] => Some (r, g, b)
  | _ => None
  end.

Fixpoint as_triples (rows : list (list Q)) : option (list (Q * Q * Q)) :=
  match rows with
  | [] => Some []
  | row :: rows' =>
      match as_triple row, as_triples rows' with
      | Some t, Some ts => Some (t :: ts)
      | _, _ => None
      end
  end.

(** Modelled from the spec: the constructor [LUT1D(table, name, domain,
    comments)], not among the sources.  Sections 3 and 4.2: it validates
    that the table is one-dimensional with at least 2 samples and that
    [domain[0] < domain[1]], and fails with a validation error otherwise. *)
Definition new_LUT1D
  (table : ndarray) (name : string) (domain : list Q)
  (comments : list string) : result LUT1D :=
  match table, domain with
  | nd1 xs, d0 :: d1 :: _ =>
      if (2 <=? List.length xs)%nat && Qltb d0 d1
      then Ok (Build_LUT1D xs name domain comments)
      else Raise ValidationError
  | _, _ => Raise ValidationError
  end.

(** Modelled from the spec: the constructor [LUT3x1D(table, name, domain,
    comments)], not among the sources.  Sections 3 and 4.2: it validates
    that the table has at least 2 rows of exactly 3 values each. *)
Definition new_LUT3x1D
  (table : ndarray) (name : string) (domain : list (Q * Q * Q))
  (comments : list string) : result LUT3x1D :=
  match table with
  | nd2 rows =>
      match as_triples rows with
      | Some ts =>
          if (2 <=? List.length ts)%nat
          then Ok (Build_LUT3x1D ts name domain comments)
          else Raise ValidationError
      | None => Raise ValidationError
      end
  | _ => Raise ValidationError
  end.

(** *** Files *)

(** The file system: the text of each file that exists, and the paths
    [open(path, "w")] succeeds on. *)
Record file_system : Type := Build_file_system {
  file : string -> option string;
  writable : string -> bool
}.

(** The file system after [path] has been opened for writing, [text]
    written to it, and the file closed. *)
Definition with_file (fs : file_system) (path text : string) : file_system :=
  {| file := fun p => if (p =? path)%string then Some text else file fs p;
     writable := writable fs |}.

(** *** The reader *)

Section Reader.

(** [colour.io.luts.common.path_to_title] is not among the sources and the
    specification does not describe it: the reader is parameterised by it. *)
Variable path_to_title : string -> string.

(** The local variables of [read_LUT_SonySPI1D] the loop updates. *)
Record reader_state : Type := Build_reader_state {
  domain_min : Q;
  domain_max : Q;
  dimensions : Z;
  data : list (list string);
  comments : list string
}.

Definition initial_state : reader_state :=
  {| domain_min := 0; domain_max := 1; dimensions := 1%Z;
     data := []; comments := [] |}.

(** One iteration of the loop, on a stripped, non-empty line. *)
Definition read_line (st : reader_state) (line : string)
  : result reader_state :=
  if startswith line "#" then
    Ok {| domain_min := domain_min st; domain_max := domain_max st;
          dimensions := dimensions st; data := data st;
          comments := comments st ++ [strip (slice_from_1 line)] |}
  else
    let tokens := split line in
    match tokens with
    | [] => Raise IndexError
    | keyword :: arguments =>
        if (keyword =? "Version")%string then Ok st
        else if (keyword =? "From")%string then
          values <- parse_floats arguments ;;
          match values with
          | [low; high] =>
              Ok {| domain_min := low; domain_max := high;
                    dimensions := dimensions st; data := data st;
                    comments := comments st |}
          | _ => Raise ValueError
          end
        else if (keyword =? "Length")%string then Ok st
        else if (keyword =? "Components")%string then
          match arguments with
          | [] => Raise IndexError
          | argument :: _ =>
              component <- as_int_scalar argument ;;
              _ <- attest ((component =? 1)%Z || (component =? 3)%Z)
                     Only_1_or_3_components_are_supported ;;
              Ok {| domain_min := domain_min st;
                    domain_max := domain_max st;
                    dimensions := if (component =? 1)%Z then 1%Z else 2%Z;
                    data := data st; comments := comments st |}
          end
        else if (keyword =? "{")%string || (keyword =? "}")%string then Ok st
        else
          Ok {| domain_min := domain_min st; domain_max := domain_max st;
                dimensions := dimensions st; data := data st ++ [tokens];
                comments := comments st |}
    end.

Fixpoint read_lines (st : reader_state) (lines : list string)
  : result reader_state :=
  match lines with
  | [] => Ok st
  | line :: lines' => st' <- read_line st line ;; read_lines st' lines'
  end.

(** [filter(None, (line.strip() for line in spi1d_file.readlines()))]. *)
Definition stripped_lines (text : string) : list string :=
  filter (fun line => negb (line =? "")%string)
         (map strip (readlines (universal_newlines text))).

Definition read_LUT_SonySPI1D (fs : file_system) (path : string)
  : result AbstractLUT :=
  let title := path_to_title path in
  match file fs path with
  | None => Raise OSError
  | Some text =>
      st <- read_lines initial_state (stripped_lines text) ;;
      table <- as_float_array (data st) ;;
      if (dimensions st =? 1)%Z then
        l <- new_LUT1D (np_squeeze table) title
               [domain_min st; domain_max st] (comments st) ;;
        Ok (LUT_1D l)
      else if (dimensions st =? 2)%Z then
        l <- new_LUT3x1D table title
               [(domain_min st, domain_min st, domain_min st);
                (domain_max st, domain_max st, domain_max st)]
               (comments st) ;;
        Ok (LUT_3x1D l)
      else Raise UnboundLocalError
  end.

End Reader.

(** *** The writer *)

Fixpoint insert_unique (x : Q) (sorted : list Q) : list Q :=
  match sorted with
  | [] => [x]
  | y :: sorted' =>
      match Qcompare x y with
      | Lt => x :: sorted
      | Eq => sorted
      | Gt => y :: insert_unique x sorted'
      end
  end.

(** [np.unique] on the flattened array: its distinct values, sorted. *)
Definition np_unique (values : list Q) : list Q :=
  fold_right insert_unique [] values.

Definition flatten (rows : list (Q * Q * Q)) : list Q :=
  flat_map (fun row => let '(r, g, b) := row in [r; g; b]) rows.

Definition newline : string := String LF EmptyString.

(** [" {1:0.{0}f} {2:0.{0}f} {3:0.{0}f}".format(decimals, *array)]. *)
Definition _format_array (decimals : nat) (array : Q * Q * Q) : string :=
  let '(r, g, b) := array in
  (" " ++ format_float decimals r ++ " " ++ format_float decimals g
   ++ " " ++ format_float decimals b)%string.

Definition write_row_1D (decimals : nat) (row : Q) : string :=
  (" " ++ format_float decimals row ++ newline)%string.

Definition write_row_3x1D (decimals : nat) (row : Q * Q * Q) : string :=
  (_format_array decimals row ++ newline)%string.

Definition write_comment (comment : string) : string :=
  ("# " ++ comment ++ newline)%string.

(** What the body of the [with open(path, "w")] block writes after
    ["Version 1\n"], given the two bounds of the domain. *)
Definition write_body
  (decimals : nat) (low high : Q) (size : nat) (components : string)
  (rows : list string) (comments : list string) : string :=
  ("From " ++ format_float decimals low ++ " " ++ format_float decimals high
   ++ newline
   ++ "Length " ++ str_N (N.of_nat size) ++ newline
   ++ "Components " ++ components ++ newline
   ++ "{" ++ newline
   ++ String.concat "" rows
   ++ "}" ++ newline
   ++ String.concat "" (map write_comment comments))%string.

Definition version_line : string := ("Version 1" ++ newline)%string.

(** The largest precision the formatter accepts. *)
Definition INT_MAX : Z := 2 ^ 31 - 1.

(** The number of digits Python accepts in the text of an integer. *)
Definition int_max_str_digits : nat := 4300.

(** [LUT[0] if isinstance(LUT, LUTSequence) else LUT]. *)
Definition first_LUT (LUT : LUT_argument) : result AbstractLUT :=
  match LUT with
  | Single l => Ok l
  | LUTSequence (l :: _) => Ok l
  | LUTSequence [] => Raise IndexError
  end.

Definition is_1D_or_3x1D (l : AbstractLUT) : bool :=
  match l with
  | LUT_1D _ | LUT_3x1D _ => true
  | LUT_other _ => false
  end.

(** The statements of [write_LUT_SonySPI1D] before the file is opened:
    the LUT to write and the domain to print. *)
Definition write_preconditions (LUT : LUT_argument)
  : result (AbstractLUT * list Q) :=
  LUTxD <- first_LUT LUT ;;
  _ <- attest (negb (is_domain_explicit LUTxD)) LUT_domain_must_be_implicit ;;
  _ <- attest (is_1D_or_3x1D LUTxD) LUT_must_be_either_a_1D_or_3x1D_LUT ;;
  match LUTxD with
  | LUT_1D l => Ok (LUTxD, LUT1D_domain l)
  | LUT_3x1D l =>
      let domain := np_unique (flatten (LUT3x1D_domain l)) in
      _ <- attest (List.length domain =? 2)%nat
             Non_uniform_LUT_domain_is_unsupported ;;
      Ok (LUTxD, domain)
  | LUT_other _ => Ok (LUTxD, [])
  end.

(** The result of the call and the file system after it.  Once the file
    is open, the version line is written, and the [From] line is formatted:
    the first bound of the domain is looked up, then its format is built,
    which fails on a negative number of decimals (["0.-1f"] is no format);
    the file is closed with what was written.  (The formatter also
    refuses a precision beyond the range of a C [int], [2 ** 31 - 1],
    whose output would not fit in memory; like memory, this limit is not
    modelled, and the theorems on the outcomes of the writer are stated
    below it.) *)
Definition write_LUT_SonySPI1D
  (fs : file_system) (LUT : LUT_argument) (path : string) (decimals : Z)
  : result bool * file_system :=
  match write_preconditions LUT with
  | Raise e => (Raise e, fs)
  | Ok (LUTxD, domain) =>
      if writable fs path then
        match domain with
        | [] => (Raise IndexError, with_file fs path version_line)
        | low :: domain' =>
            if (decimals <? 0)%Z
            then (Raise ValueError, with_file fs path version_line)
            else
              let decimals := Z.to_nat decimals in
              match domain' with
              | [] => (Raise IndexError, with_file fs path version_line)
              | high :: _ =>
                  let text :=
                    match LUTxD with
                    | LUT_1D l =>
                        write_body decimals low high
                          (List.length (LUT1D_table l)) "1"
                          (map (write_row_1D decimals) (LUT1D_table l))
                          (LUT1D_comments l)
                    | LUT_3x1D l =>
                        write_body decimals low high
                          (List.length (LUT3x1D_table l)) "3"
                          (map (write_row_3x1D decimals) (LUT3x1D_table l))
                          (LUT3x1D_comments l)
                    | LUT_other _ => EmptyString
                    end in
                  (Ok true, with_file fs path (version_line ++ text))
              end
        end
      else (Raise OSError, fs)
  end.

(** *** Texts of the examples *)

(** The text of lines, each terminated by a line feed. *)
Definition text_of_lines (lines : list string) : string :=
  String.concat "" (map (fun line => line ++ newline)%string lines).

(** The minimal 2-sample file of the specification. *)
Definition minimal_file : string :=
  text_of_lines
    ["Version 1"; "From -0.1 1.5"; "Length 2"; "Components 1";
     "{"; "0.0"; "1.0"; "}"; "# test"]%string.

Definition example_LUT1D : LUT1D :=
  {| LUT1D_table := [0; 1 # 2; 1]%Q; LUT1D_name := "My LUT"%string;
     LUT1D_domain := [-1 # 10; 3 # 2]%Q;
     LUT1D_comments := ["A first comment."; "A second comment."]%string |}.

Definition empty_fs : file_system :=
  {| file := fun _ => None; writable := fun _ => true |}.

(** *** The preconditions of the writer, in the words of the specification *)

(** The domain is explicit, or the object is neither a LUT1D nor a LUT3x1D,
    or the flattened domain of a LUT3x1D does not reduce to exactly 2
    distinct values. *)
Definition write_precondition_violated (l : AbstractLUT) : bool :=
  is_domain_explicit l
  || negb (is_1D_or_3x1D l)
  || match l with
     | LUT_3x1D l' =>
         negb (List.length (np_unique (flatten (LUT3x1D_domain l'))) =? 2)%nat
     | _ => false
     end.

(** The 3x1D LUT of the specification with the non-uniform domain
    [[[0, 0, 0], [1, 1, 2]]]. *)
Definition non_uniform_LUT3x1D : LUT3x1D :=
  {| LUT3x1D_table := [(0, 0, 0); (1 # 2, 1 # 2, 1 # 2); (1, 1, 1)];
     LUT3x1D_name := "Non-uniform"%string;
     LUT3x1D_domain := [(0, 0, 0); (1, 1, 2)];
     LUT3x1D_comments := [] |}.

(** *** The lines of a file, by what the reader does with them *)

Definition is_comment (line : string) : bool := startswith line "#".

(** The first token of a line that is no comment. *)
Definition keyword (line : string) : option string :=
  if is_comment line then None else hd_error (split line).

Definition keywords : list string :=
  ["Version"; "From"; "Length"; "Components"; "{"; "}"]%string.

(** The lines the reader keeps as rows of the table. *)
Definition is_data_line (line : string) : bool :=
  match keyword line with
  | Some k => negb (existsb (String.eqb k) keywords)
  | None => false
  end.

Definition comment_of (line : string) : string := strip (slice_from_1 line).

(** A comment or a line with a first token, which is neither [From] nor
    [Components]. *)
Definition plain_line (line : string) : Prop :=
  (is_comment line = true \/ split line <> []) /\
  keyword line <> Some "From"%string /\
  keyword line <> Some "Components"%string.

(** The minimal file without its [From] and [Components] lines. *)
Definition defaults_file : string :=
  text_of_lines
    ["Version 1"; "Length 2"; "{"; "0.0"; "1.0"; "}"; "# test"]%string.

(** A file without [From] and [Components] lines whose rows differ in
    width. *)
Definition ragged_file : string :=
  text_of_lines ["Version 1"; "{"; "0.0"; "1.0 2.0"; "}"]%string.

(** The minimal file with a [Components] value that is no integer. *)
Definition fractional_components_file : string :=
  text_of_lines
    ["Version 1"; "From -0.1 1.5"; "Length 2"; "Components 2.5";
     "{"; "0.0"; "1.0"; "}"]%string.

(** A 2-sample file of three components. *)
Definition three_components_file : string :=
  text_of_lines
    ["Version 1"; "From -0.1 1.5"; "Length 2"; "Components 3";
     "{"; "0.0 0.25 0.5"; "1.0 1.0 1.0"; "}"; "# test"]%string.

(** The minimal file with an unsupported [Components] value. *)
Definition two_components_file : string :=
  text_of_lines
    ["Version 1"; "From -0.1 1.5"; "Length 2"; "Components 2";
     "{"; "0.0 0.0"; "1.0 1.0"; "}"]%string.

(** *** Predicates on texts used by the round-trip theorem *)

Fixpoint string_all (P : ascii -> bool) (s : string) : bool :=
  match s with
  | EmptyString => true
  | String c s' => P c && string_all P s'
  end.

Definition is_digit (c : ascii) : bool :=
  match digit_value c with
  | Some _ => true
  | None => false
  end.

(** The characters of a fixed-point numeral. *)
Definition is_numeral_char (c : ascii) : bool :=
  (is_digit c || Ascii.eqb c "-" || Ascii.eqb c ".")%char.

(** A token: a text that is not empty and holds no white space. *)
Definition is_token (s : string) : bool :=
  negb (s =? "")%string && string_all (fun c => negb (isspace c)) s.

Definition is_line_break (c : ascii) : bool :=
  Ascii.eqb c LF || Ascii.eqb c CR.

Definition no_line_break (s : string) : bool :=
  string_all (fun c => negb (is_line_break c)) s.

(** Tokens separated by single spaces. *)
Definition join (tokens : list string) : string := String.concat " " tokens.

(** The lines of the file the writer produces, without their line feeds:
    the header, a line for each row, the closing brace, the comments. *)
Definition written_lines
  (decimals : nat) (low high : Q) (size : nat) (components : string)
  (rows : list (list Q)) (comments : list string) : list string :=
  ["Version 1";
   join ["From"; format_float decimals low; format_float decimals high];
   join ["Length"; str_N (N.of_nat size)];
   join ["Components"; components];
   "{"]%string
  ++ map (fun row => String " " (join (map (format_float decimals) row))) rows
  ++ ["}"%string]
  ++ map (fun comment => ("# " ++ comment)%string) comments.

Definition row_of_triple (row : Q * Q * Q) : list Q :=
  let '(r, g, b) := row in [r; g; b].

(** The domain the writer prints the two bounds of: the domain of a 1D
    LUT, the distinct values of the domain of a 3x1D LUT, in order. *)
Definition printed_domain (l : AbstractLUT) : list Q :=
  match l with
  | LUT_1D l => LUT1D_domain l
  | LUT_3x1D l => np_unique (flatten (LUT3x1D_domain l))
  | LUT_other _ => []
  end.

(** The lines of the file of a LUT, between the bounds [low] and [high]. *)
Definition lines_of_LUT (decimals : nat) (low high : Q) (l : AbstractLUT)
  : list string :=
  match l with
  | LUT_1D l =>
      written_lines decimals low high (List.length (LUT1D_table l)) "1"
        (map (fun x => [x]) (LUT1D_table l)) (LUT1D_comments l)
  | LUT_3x1D l =>
      written_lines decimals low high (List.length (LUT3x1D_table l)) "3"
        (map row_of_triple (LUT3x1D_table l)) (LUT3x1D_comments l)
  | LUT_other _ => []
  end.

Definition nonempty_line (line : string) : bool := negb (line =? "")%string.

(** *** What a round trip through a file makes of a LUT

    Every number rounded to the decimals of the format, the name replaced
    by the title of the path, every comment stripped. *)

Definition round_triple (decimals : nat) (row : Q * Q * Q) : Q * Q * Q :=
  let '(r, g, b) := row in
  (round_decimals decimals r, round_decimals decimals g,
   round_decimals decimals b).

Definition round_trip_LUT1D (decimals : nat) (title : string) (l : LUT1D)
  : LUT1D :=
  {| LUT1D_table := map (round_decimals decimals) (LUT1D_table l);
     LUT1D_name := title;
     LUT1D_domain := map (round_decimals decimals) (LUT1D_domain l);
     LUT1D_comments := map strip (LUT1D_comments l) |}.

Definition round_trip_LUT3x1D (decimals : nat) (title : string) (l : LUT3x1D)
  : LUT3x1D :=
  {| LUT3x1D_table := map (round_triple decimals) (LUT3x1D_table l);
     LUT3x1D_name := title;
     LUT3x1D_domain := map (round_triple decimals) (LUT3x1D_domain l);
     LUT3x1D_comments := map strip (LUT3x1D_comments l) |}.

(** The LUTs of the counterexample to the round trip: a bound of the
    domain with three decimals, a comment with a space before it. *)
Definition padded_LUT1D : LUT1D :=
  {| LUT1D_table := [0; 1 # 2; 1];
     LUT1D_name := "padded"%string;
     LUT1D_domain := [0; 1 # 8];
     LUT1D_comments := [" padded"%string] |}.

Definition example_LUT3x1D : LUT3x1D :=
  {| LUT3x1D_table := [(0, 0, 0); (1 # 2, 1 # 4, 1 # 8); (1, 1, 1)];
     LUT3x1D_name := "My LUT"%string;
     LUT3x1D_domain := [(-1 # 10, -1 # 10, -1 # 10); (3 # 2, 3 # 2, 3 # 2)];
     LUT3x1D_comments :=
       ["A first comment."; "A second comment."]%string |}.


(** *** Lines, exceptions and LUTs by kind *)

(** The keywords of the lines the reader passes over. *)
Definition skipped_keywords : list string :=
  ["Version"; "Length"; "{"; "}"]%string.

Definition is_skipped_line (line : string) : bool :=
  match keyword line with
  | Some k => existsb (String.eqb k) skipped_keywords
  | None => false
  end.

(** The state of the reader with one more comment. *)
Definition with_comment (st : reader_state) (comment : string)
  : reader_state :=
  {| domain_min := domain_min st; domain_max := domain_max st;
     dimensions := dimensions st; data := data st;
     comments := comments st ++ [comment] |}.

(** A 1D LUT a file of the given decimals holds exactly: every number is
    its own rounding and every comment its own stripping. *)
Definition exact_LUT1D (decimals : nat) (l : LUT1D) : Prop :=
  map (round_decimals decimals) (LUT1D_table l) = LUT1D_table l /\
  map (round_decimals decimals) (LUT1D_domain l) = LUT1D_domain l /\
  map strip (LUT1D_comments l) = LUT1D_comments l.

(** A 3x1D LUT whose channels do not share a domain: the green channel
    runs from [1] to [0]. *)
Definition mixed_LUT3x1D : LUT3x1D :=
  {| LUT3x1D_table := [(0, 0, 0); (1 # 2, 1 # 2, 1 # 2); (1, 1, 1)];
     LUT3x1D_name := "mixed"%string;
     LUT3x1D_domain := [(0, 1, 0); (1, 0, 1)];
     LUT3x1D_comments := [] |}.

End Sony_spi1d.
(** ** Properties of the power brackets *)

Section Interval_power_facts.

Import Interval_power.
Local Open Scope Z_scope.

Lemma excess_nonneg (m : Z) : 0 <= excess m.
Proof. unfold excess. lia. Qed.

Lemma val_fmul (a b : Z * Z) :
  wf a -> wf b -> wf (fmul a b) /\ val (fmul a b) = val a * val b.
Proof.
  intros [Ha1 Ha2] [Hb1 Hb2]. unfold wf, fmul, val. cbn [fst snd].
  repeat split; try lia.
  rewrite Z.pow_add_r by assumption. ring.
Qed.

Lemma trunc_lo_le (a : Z * Z) :
  wf a -> wf (trunc_lo a) /\ val (trunc_lo a) <= val a.
Proof.
  intros [Ha1 Ha2]. pose proof (excess_nonneg (fst a)) as Hs.
  unfold wf, trunc_lo, val. cbn [fst snd].
  set (s := excess (fst a)) in *.
  assert (Hp : 0 < 2 ^ s) by (apply Z.pow_pos_nonneg; lia).
  assert (He : 0 < 2 ^ snd a) by (apply Z.pow_pos_nonneg; lia).
  repeat split; try lia.
  - apply Z.div_pos; lia.
  - rewrite Z.pow_add_r by assumption.
    pose proof (Z.mul_div_le (fst a) (2 ^ s) Hp). nia.
Qed.

Lemma trunc_up_ge (a : Z * Z) :
  wf a -> wf (trunc_up a) /\ val a <= val (trunc_up a).
Proof.
  intros [Ha1 Ha2]. pose proof (excess_nonneg (fst a)) as Hs.
  unfold wf, trunc_up, val. cbn [fst snd].
  set (s := excess (fst a)) in *.
  assert (Hp : 0 < 2 ^ s) by (apply Z.pow_pos_nonneg; lia).
  assert (He : 0 < 2 ^ snd a) by (apply Z.pow_pos_nonneg; lia).
  assert (Hd : 0 <= (fst a + 2 ^ s - 1) / 2 ^ s) by (apply Z.div_pos; lia).
  repeat split; try lia.
  rewrite Z.pow_add_r by assumption.
  pose proof (Z.mul_succ_div_gt (fst a + 2 ^ s - 1) (2 ^ s) Hp).
  set (q := (fst a + 2 ^ s - 1) / 2 ^ s) in *.
  replace (q * (2 ^ snd a * 2 ^ s)) with (q * 2 ^ s * 2 ^ snd a) by ring.
  apply Z.mul_le_mono_nonneg_r; lia.
Qed.

Lemma pow_xO (x : Z) (p : positive) : x ^ Zpos p~0 = x ^ Zpos p * x ^ Zpos p.
Proof. rewrite Pos2Z.inj_xO, Z.mul_comm, Z.pow_mul_r by lia. apply Z.pow_2_r. Qed.

Lemma pow_xI (x : Z) (p : positive) :
  x ^ Zpos p~1 = x * (x ^ Zpos p * x ^ Zpos p).
Proof.
  rewrite Pos2Z.inj_xI, Z.add_comm, Z.pow_add_r, Z.pow_1_r by lia.
  rewrite <- pow_xO. reflexivity.
Qed.

Lemma pow_lo_le (x : Z) (n : positive) :
  0 < x -> wf (pow_lo x n) /\ 0 <= val (pow_lo x n) <= x ^ Zpos n.
Proof.
  intros Hx. induction n as [p [Hw [H0 IH]] | p [Hw [H0 IH]] | ];
    cbn [pow_lo].
  - destruct (val_fmul _ _ Hw Hw) as [Hw2 Hv2].
    assert (Hwx : wf (x, 0)) by (unfold wf; cbn; lia).
    destruct (val_fmul _ _ Hwx Hw2) as [Hw3 Hv3].
    destruct (trunc_lo_le _ Hw3) as [Hw4 Hv4].
    split; [ assumption | ].
    assert (Hvx : val (x, 0) = x) by (unfold val; cbn [fst snd]; lia).
    rewrite Hv3, Hv2, Hvx in Hv4. rewrite pow_xI.
    split.
    + destruct Hw4 as [? ?]. unfold val.
      apply Z.mul_nonneg_nonneg; [ assumption | ].
      apply Z.pow_nonneg. lia.
    + pose proof (Z.mul_le_mono_nonneg _ _ _ _ H0 IH H0 IH) as Hsq.
      apply (Z.mul_le_mono_nonneg_l _ _ x) in Hsq; lia.
  - destruct (val_fmul _ _ Hw Hw) as [Hw2 Hv2].
    destruct (trunc_lo_le _ Hw2) as [Hw4 Hv4].
    split; [ assumption | ].
    rewrite Hv2 in Hv4. rewrite pow_xO.
    split.
    + destruct Hw4 as [? ?]. unfold val.
      apply Z.mul_nonneg_nonneg; [ assumption | ].
      apply Z.pow_nonneg. lia.
    + pose proof (Z.mul_le_mono_nonneg _ _ _ _ H0 IH H0 IH). lia.
  - unfold wf, val. cbn [fst snd]. rewrite Z.pow_1_r. lia.
Qed.

Lemma pow_up_ge (x : Z) (n : positive) :
  0 < x -> wf (pow_up x n) /\ x ^ Zpos n <= val (pow_up x n).
Proof.
  intros Hx.
  assert (Hpos : forall p, 0 < x ^ Zpos p)
    by (intros p; apply Z.pow_pos_nonneg; lia).
  induction n as [p [Hw IH] | p [Hw IH] | ]; cbn [pow_up].
  - destruct (val_fmul _ _ Hw Hw) as [Hw2 Hv2].
    assert (Hwx : wf (x, 0)) by (unfold wf; cbn; lia).
    destruct (val_fmul _ _ Hwx Hw2) as [Hw3 Hv3].
    destruct (trunc_up_ge _ Hw3) as [Hw4 Hv4].
    split; [ assumption | ].
    assert (Hvx : val (x, 0) = x) by (unfold val; cbn [fst snd]; lia).
    rewrite Hv3, Hv2, Hvx in Hv4. rewrite pow_xI.
    pose proof (Hpos p) as Hp.
    assert (H0 : 0 <= x ^ Z.pos p) by lia.
    pose proof (Z.mul_le_mono_nonneg _ _ _ _ H0 IH H0 IH) as Hsq.
    apply (Z.mul_le_mono_nonneg_l _ _ x) in Hsq; lia.
  - destruct (val_fmul _ _ Hw Hw) as [Hw2 Hv2].
    destruct (trunc_up_ge _ Hw2) as [Hw4 Hv4].
    split; [ assumption | ].
    rewrite Hv2 in Hv4. rewrite pow_xO.
    pose proof (Hpos p) as Hp.
    assert (H0 : 0 <= x ^ Z.pos p) by lia.
    pose proof (Z.mul_le_mono_nonneg _ _ _ _ H0 IH H0 IH). lia.
  - unfold wf, val. cbn [fst snd]. rewrite Z.pow_1_r. lia.
Qed.

Lemma fltb_lt (a b : Z * Z) : wf a -> wf b -> fltb a b = true -> val a < val b.
Proof.
  intros [Ha1 Ha2] [Hb1 Hb2] H. unfold fltb in H. apply Z.ltb_lt in H.
  set (e := Z.min (snd a) (snd b)) in *.
  assert (He : 0 <= e) by (unfold e; lia).
  assert (Hp : 0 < 2 ^ e) by (apply Z.pow_pos_nonneg; lia).
  unfold val.
  replace (snd a) with (snd a - e + e) at 1 by ring.
  replace (snd b) with (snd b - e + e) at 1 by ring.
  rewrite !Z.pow_add_r by (unfold e; lia).
  rewrite !Z.mul_assoc. apply Z.mul_lt_mono_pos_r; assumption.
Qed.

Lemma pow_ltb_lt (x : Z) (n : positive) (y : Z) (m : positive) :
  0 < x -> 0 < y -> pow_ltb x n y m = true -> x ^ Zpos n < y ^ Zpos m.
Proof.
  intros Hx Hy H. unfold pow_ltb in H.
  destruct (pow_up_ge x n Hx) as [Hwa Ha].
  destruct (pow_lo_le y m Hy) as [Hwb [_ Hb]].
  pose proof (fltb_lt _ _ Hwa Hwb H). lia.
Qed.

End Interval_power_facts.


(** ** Properties of the transfer functions *)

Section Transfer_functions.

Import Rimm_romm_rgb.
Local Open Scope R_scope.

(** *** Comparisons and selectors *)

Lemma Rltb_lt (a b : R) : Rltb a b = true <-> a < b.
Proof. unfold Rltb. destruct (Rlt_dec a b); split; auto; discriminate. Qed.

Lemma Rltb_ge (a b : R) : Rltb a b = false <-> b <= a.
Proof.
  unfold Rltb. destruct (Rlt_dec a b); split; auto; try discriminate; lra.
Qed.

Lemma Rleb_le (a b : R) : Rleb a b = true <-> a <= b.
Proof. unfold Rleb. destruct (Rle_dec a b); split; auto; discriminate. Qed.

Lemma Rleb_gt (a b : R) : Rleb a b = false <-> b < a.
Proof.
  unfold Rleb. destruct (Rle_dec a b); split; auto; try discriminate; lra.
Qed.

(** Case analysis on one comparison of the goal, leaving the order fact
    it decides in the context. *)
Ltac case_lt a b :=
  let H := fresh "Hcmp" in
  destruct (Rltb a b) eqn:H; [ apply Rltb_lt in H | apply Rltb_ge in H ].

Ltac case_le a b :=
  let H := fresh "Hcmp" in
  destruct (Rleb a b) eqn:H; [ apply Rleb_le in H | apply Rleb_gt in H ].

Lemma I_max_ge_1 (bit_depth : Z) :
  (0 < bit_depth)%Z -> 1 <= IZR (2 ^ bit_depth - 1).
Proof.
  intros H. apply IZR_le.
  assert (2 ^ 1 <= 2 ^ bit_depth)%Z by (apply Z.pow_le_mono_r; lia).
  change (2 ^ 1)%Z with 2%Z in *. lia.
Qed.

(** *** Rounding *)

Lemma np_round_spec (x : R) :
  IZR (np_round x) - 1 / 2 <= x <= IZR (np_round x) + 1 / 2.
Proof.
  unfold np_round.
  destruct (base_Int_part x) as [Hlo Hhi].
  destruct (Rlt_dec (x - IZR (Int_part x)) (1 / 2)).
  - lra.
  - destruct (Rlt_dec (1 / 2) (x - IZR (Int_part x))).
    + rewrite plus_IZR. lra.
    + destruct (Z.even (Int_part x)); [ | rewrite plus_IZR ]; lra.
Qed.

Lemma np_round_IZR (z : Z) : np_round (IZR z) = z.
Proof.
  assert (Hi : Int_part (IZR z) = z).
  { symmetry. apply Int_part_spec. lra. }
  unfold np_round. rewrite Hi.
  destruct (Rlt_dec (IZR z - IZR z) (1 / 2)); [ reflexivity | lra ].
Qed.

Lemma np_round_0 : np_round 0 = 0%Z.
Proof. exact (np_round_IZR 0). Qed.

(** Two integers within less than one of each other, in the order of the
    reals they bracket. *)
Lemma IZR_lt_1_le (a b : Z) : IZR a < IZR b + 1 -> (a <= b)%Z.
Proof.
  intros H. rewrite <- plus_IZR in H. apply lt_IZR in H. lia.
Qed.

Lemma np_round_mono (x y : R) : x <= y -> (np_round x <= np_round y)%Z.
Proof.
  intros Hxy.
  destruct (Z_le_gt_dec (np_round x) (np_round y)) as [ | Hgt ]; [ assumption | ].
  exfalso.
  pose proof (np_round_spec x) as Hx. pose proof (np_round_spec y) as Hy.
  assert (Hz : (np_round y + 1 <= np_round x)%Z) by lia.
  apply IZR_le in Hz. rewrite plus_IZR in Hz.
  (* both are at a tie: x = y = round y + 1/2, which rounds one way only *)
  assert (Hx' : x = IZR (np_round y) + 1 / 2) by lra.
  assert (Hy' : y = IZR (np_round y) + 1 / 2) by lra.
  assert (x = y) by lra. subst y. lia.
Qed.

(** *** The conversion to [int64] *)

Lemma as_int_in_range (z : Z) :
  (INT64_MIN <= z <= INT64_MAX)%Z -> as_int z = int64 z.
Proof.
  intros [H1 H2]. unfold as_int.
  apply Z.leb_le in H1, H2. rewrite H1, H2. reflexivity.
Qed.




Lemma I_max_int64 (bit_depth : Z) :
  (0 < bit_depth <= 62)%Z ->
  (INT64_MIN <= 0 /\ 2 ^ bit_depth - 1 <= INT64_MAX)%Z.
Proof.
  intros [H1 H2]. unfold INT64_MIN, INT64_MAX.
  assert (2 ^ bit_depth <= 2 ^ 62)%Z by (apply Z.pow_le_mono_r; lia).
  assert (2 ^ 62 < 2 ^ 63)%Z by (apply Z.pow_lt_mono_r; lia).
  assert (0 < 2 ^ 63)%Z by (apply Z.pow_pos_nonneg; lia).
  lia.
Qed.

(** A value of [[0, 1]] scaled by [I_max] rounds to a code value of
    [[0, I_max]]. *)
Lemma code_value_range (c : R) (bit_depth : Z) :
  (0 < bit_depth)%Z -> 0 <= c <= 1 ->
  (0 <= np_round (IZR (2 ^ bit_depth - 1) * c) <= 2 ^ bit_depth - 1)%Z.
Proof.
  intros Hbd [Hc0 Hc1]. pose proof (I_max_ge_1 bit_depth Hbd) as HI.
  split.
  - rewrite <- np_round_0. apply np_round_mono.
    apply Rmult_le_pos; lra.
  - rewrite <- (np_round_IZR (2 ^ bit_depth - 1)) at 2.
    apply np_round_mono.
    set (I_max := IZR (2 ^ bit_depth - 1)) in *.
    replace I_max with (I_max * 1) at 2 by ring.
    apply Rmult_le_compat_l; lra.
Qed.

(** The code value of a number of [[0, 1]], at a bit depth of at most 62,
    as the decoder receives it. *)
Lemma code_value_as_int (c : R) (bit_depth : Z) :
  (0 < bit_depth <= 62)%Z -> 0 <= c <= 1 ->
  as_int (np_round (IZR (2 ^ bit_depth - 1) * c))
  = int64 (np_round (IZR (2 ^ bit_depth - 1) * c)).
Proof.
  intros Hbd Hc.
  pose proof (code_value_range c bit_depth ltac:(lia) Hc).
  pose proof (I_max_int64 bit_depth Hbd).
  apply as_int_in_range. lia.
Qed.

(** *** The signed power *)

Lemma spow_pos (a p : R) : 0 < a -> spow a p = Rpower a p.
Proof.
  intros Ha. unfold spow, np_sign.
  destruct (Rlt_dec a 0); [ lra | ].
  destruct (Rlt_dec 0 a); [ | lra ].
  rewrite Rabs_pos_eq by lra. ring.
Qed.

Lemma spow_0 (p : R) : spow 0 p = 0.
Proof.
  unfold spow, np_sign.
  destruct (Rlt_dec 0 0); [ lra | ]. ring.
Qed.

Lemma spow_neg (a p : R) : a < 0 -> spow a p = - Rpower (- a) p.
Proof.
  intros Ha. unfold spow, np_sign.
  destruct (Rlt_dec a 0); [ | lra ].
  rewrite Rabs_left by lra. ring.
Qed.

Lemma Rpower_pos (a p : R) : 0 < Rpower a p.
Proof. unfold Rpower. apply exp_pos. Qed.

(** The breakpoint of ROMM RGB, [16 ** (1.8 / (1 - 1.8))], is [2 ** -9]. *)
Lemma ROMM_E_t : Rpower 16 (1.8 / (1 - 1.8)) = / 512.
Proof.
  replace (1.8 / (1 - 1.8)) with (- (9 / 4)) by lra.
  rewrite Rpower_Ropp. f_equal.
  replace 16 with (Rpower 2 4).
  2:{ replace 4 with (INR 4) by (simpl; lra).
      rewrite Rpower_pow by lra. simpl. lra. }
  rewrite Rpower_mult.
  replace (4 * (9 / 4)) with (INR 9) by (simpl; lra).
  rewrite Rpower_pow by lra. simpl. lra.
Qed.

(** *** Inputs at or below zero *)




(** *** Numeric bounds on powers and logarithms *)

Lemma np_round_unique (x : R) (z : Z) :
  IZR z - 1 / 2 < x < IZR z + 1 / 2 -> np_round x = z.
Proof.
  intros [Hlo Hhi]. pose proof (np_round_spec x) as [Hr1 Hr2].
  assert (H1 : (np_round x <= z)%Z) by (apply IZR_lt_1_le; lra).
  assert (H2 : (z <= np_round x)%Z) by (apply IZR_lt_1_le; lra).
  lia.
Qed.

(** A power with a rational exponent [p / q] is bracketed by comparing
    integer powers. *)
Lemma Rpower_rational (x : R) (p q : nat) :
  0 < x -> (0 < q)%nat ->
  Rpower x (INR p / INR q) = Rpower (x ^ p) (/ INR q).
Proof.
  intros Hx Hq. rewrite <- Rpower_pow by assumption.
  rewrite Rpower_mult. reflexivity.
Qed.

Lemma Rpower_root (a : R) (q : nat) :
  0 < a -> (0 < q)%nat -> Rpower (a ^ q) (/ INR q) = a.
Proof.
  intros Ha Hq. rewrite <- Rpower_pow by assumption.
  rewrite Rpower_mult. rewrite Rinv_r, Rpower_1; auto.
  apply not_0_INR. lia.
Qed.

Lemma Rpower_bounds (x e lo hi : R) (p q : nat) :
  0 < x -> 0 < lo -> 0 < hi -> (0 < q)%nat -> e = INR p / INR q ->
  lo ^ q < x ^ p -> x ^ p < hi ^ q ->
  lo < Rpower x e < hi.
Proof.
  intros Hx Hlo Hhi Hq -> H1 H2.
  assert (Hiq : 0 < / INR q).
  { apply Rinv_0_lt_compat. apply lt_0_INR. assumption. }
  rewrite Rpower_rational by assumption.
  rewrite <- (Rpower_root lo q) at 1 by assumption.
  rewrite <- (Rpower_root hi q) at 1 by assumption.
  split; apply Rlt_Rpower_l; try assumption; split; try assumption;
    apply pow_lt; assumption.
Qed.

Lemma Rlt_div_r (a b c : R) : 0 < c -> a * c < b -> a < b / c.
Proof.
  intros Hc H. apply Rmult_lt_reg_r with c; [ assumption | ].
  replace (b / c * c) with b by (field; lra). assumption.
Qed.

Lemma Rlt_div_l (a b c : R) : 0 < c -> a < b * c -> a / c < b.
Proof.
  intros Hc H. apply Rmult_lt_reg_r with c; [ assumption | ].
  replace (a / c * c) with a by (field; lra). assumption.
Qed.

Lemma ln_Zpow (v : Z) (p : Z) :
  (0 < v)%Z -> (0 <= p)%Z -> ln (IZR (v ^ p)) = IZR p * ln (IZR v).
Proof.
  intros Hv Hp.
  rewrite <- (Z2Nat.id p) at 1 by assumption.
  rewrite <- pow_IZR, ln_pow by (apply IZR_lt; assumption).
  rewrite INR_IZR_INZ, Z2Nat.id by assumption. reflexivity.
Qed.

(** A quotient of logarithms is bracketed by comparing integer powers. *)
Lemma ln_ratio_lower (u v p q : Z) :
  (0 < u)%Z -> (1 < v)%Z -> (0 <= p)%Z -> (0 < q)%Z ->
  (v ^ p < u ^ q)%Z ->
  IZR p / IZR q < ln (IZR u) / ln (IZR v).
Proof.
  intros Hu Hv Hp Hq H.
  assert (Hlv : 0 < ln (IZR v)).
  { rewrite <- ln_1. apply ln_increasing; [ lra | apply IZR_lt; lia ]. }
  assert (Hq' : 0 < IZR q) by (apply IZR_lt; lia).
  assert (Hln : ln (IZR (v ^ p)) < ln (IZR (u ^ q))).
  { apply ln_increasing; [ | apply IZR_lt; assumption ].
    apply IZR_lt. apply Z.pow_pos_nonneg; lia. }
  rewrite !ln_Zpow in Hln by lia.
  apply Rlt_div_r; [ assumption | ].
  apply Rmult_lt_reg_l with (IZR q); [ assumption | ].
  replace (IZR q * (IZR p / IZR q * ln (IZR v))) with (IZR p * ln (IZR v))
    by (field; lra).
  assumption.
Qed.

Lemma ln_ratio_upper (u v p q : Z) :
  (0 < u)%Z -> (1 < v)%Z -> (0 <= p)%Z -> (0 < q)%Z ->
  (u ^ q < v ^ p)%Z ->
  ln (IZR u) / ln (IZR v) < IZR p / IZR q.
Proof.
  intros Hu Hv Hp Hq H.
  assert (Hlv : 0 < ln (IZR v)).
  { rewrite <- ln_1. apply ln_increasing; [ lra | apply IZR_lt; lia ]. }
  assert (Hq' : 0 < IZR q) by (apply IZR_lt; lia).
  assert (Hln : ln (IZR (u ^ q)) < ln (IZR (v ^ p))).
  { apply ln_increasing; [ | apply IZR_lt; assumption ].
    apply IZR_lt. apply Z.pow_pos_nonneg; lia. }
  rewrite !ln_Zpow in Hln by lia.
  apply Rlt_div_l; [ assumption | ].
  apply Rmult_lt_reg_l with (IZR q); [ assumption | ].
  replace (IZR q * (IZR p / IZR q * ln (IZR v))) with (IZR p * ln (IZR v))
    by (field; lra).
  assumption.
Qed.

Lemma ln_quotient (a b : R) : 0 < a -> 0 < b -> ln a - ln b = ln (a / b).
Proof.
  intros Ha Hb. unfold Rdiv.
  rewrite ln_mult, ln_Rinv; auto using Rinv_0_lt_compat.
Qed.

(** The constants the encodings of the documented examples meet. *)
Lemma pow_0_18_ROMM :
  0.38571142 < Rpower 0.18 (1 / 1.8) < 0.38571143.
Proof.
  apply (Rpower_bounds _ _ _ _ 5 9); try lra; try lia; simpl; lra.
Qed.

Lemma pow_0_18_RIMM : 0.462245431 < Rpower 0.18 0.45 < 0.462245432.
Proof.
  apply (Rpower_bounds _ _ _ _ 9 20); try lra; try lia; simpl; lra.
Qed.

Lemma pow_2_RIMM : 1.366040256 < Rpower 2 0.45 < 1.366040257.
Proof.
  apply (Rpower_bounds _ _ _ _ 9 20); try lra; try lia; simpl; lra.
Qed.

Lemma pow_knee_RIMM : 0.1640108 < Rpower 0.018 0.45 < 0.1640109.
Proof.
  apply (Rpower_bounds _ _ _ _ 9 20); try lra; try lia; simpl; lra.
Qed.

Lemma ln_ratio_ERIMM :
  1648 / 4019 < ln 180 / ln 316200 < 2113 / 5153.
Proof.
  split.
  - apply (ln_ratio_lower 180 316200 1648 4019);
      [ lia | lia | lia | lia | ].
    apply pow_ltb_lt; [ lia | lia | vm_compute; reflexivity ].
  - apply (ln_ratio_upper 180 316200 2113 5153);
      [ lia | lia | lia | lia | ].
    apply pow_ltb_lt; [ lia | lia | vm_compute; reflexivity ].
Qed.

(** *** Each encoding computes its curve *)

Lemma Rmult_div_cancel (a b : R) : a <> 0 -> b * a / a = b.
Proof. intros Ha. field. assumption. Qed.

Lemma ROMM_encoding_curve (X : R) (bit_depth : Z) (out_int : bool) :
  (0 < bit_depth)%Z ->
  cctf_encoding_ROMMRGB X bit_depth out_int =
  let I_max := IZR (2 ^ bit_depth - 1) in
  if out_int then as_int (np_round (ROMM_curve X * I_max))
  else as_float (ROMM_curve X).
Proof.
  intros Hbd. pose proof (I_max_ge_1 bit_depth Hbd) as HI.
  unfold cctf_encoding_ROMMRGB, ROMM_curve, to_domain_1, from_range_1,
    np_where.
  rewrite ROMM_E_t. cbv zeta. unfold Rltb.
  destruct (Rlt_dec X (/ 512)).
  - replace (X * 16 * IZR (2 ^ bit_depth - 1))
      with (16 * X * IZR (2 ^ bit_depth - 1)) by ring.
    rewrite Rmult_div_cancel by lra. reflexivity.
  - rewrite spow_pos by lra.
    rewrite Rmult_div_cancel by lra. reflexivity.
Qed.

Lemma RIMM_encoding_curve
  (X : R) (bit_depth : Z) (out_int : bool) (E_clip : R) :
  (0 < bit_depth)%Z ->
  cctf_encoding_RIMMRGB X bit_depth out_int E_clip =
  let I_max := IZR (2 ^ bit_depth - 1) in
  if out_int
  then as_int (np_round (I_max / RIMM_V_clip E_clip * RIMM_curve X))
  else as_float (RIMM_curve X / RIMM_V_clip E_clip).
Proof.
  intros Hbd. pose proof (I_max_ge_1 bit_depth Hbd) as HI.
  unfold cctf_encoding_RIMMRGB, to_domain_1, from_range_1, Rgeb, Rgtb.
  fold (RIMM_V_clip E_clip). cbv zeta. cbn [np_select].
  assert (Hsel :
    (if Rltb X 0.0 then 0
     else if Rltb X 0.018 then 4.5 * X
     else if Rleb 0.018 X then 1.099 * spow X 0.45 - 0.099
     else if Rltb E_clip X then IZR (2 ^ bit_depth - 1) else 0)
    = RIMM_curve X).
  { unfold RIMM_curve.
    case_lt X 0.0.
    { destruct (Rlt_dec X 0); [ reflexivity | lra ]. }
    destruct (Rlt_dec X 0); [ lra | ].
    case_lt X 0.018.
    { destruct (Rlt_dec X 0.018); [ reflexivity | lra ]. }
    destruct (Rlt_dec X 0.018); [ lra | ].
    case_le 0.018 X; [ | lra ].
    rewrite spow_pos by lra. reflexivity. }
  rewrite Hsel.
  destruct out_int; [ reflexivity | ].
  f_equal. set (I_max := IZR (2 ^ bit_depth - 1)) in *. unfold Rdiv.
  replace (I_max * / RIMM_V_clip E_clip * RIMM_curve X * / I_max)
    with (I_max * / I_max * (RIMM_curve X * / RIMM_V_clip E_clip)) by ring.
  rewrite Rinv_r by lra. ring.
Qed.

Lemma ERIMM_encoding_curve
  (X : R) (bit_depth : Z) (out_int : bool) (E_min E_clip : R) :
  (0 < bit_depth)%Z ->
  log_encoding_ERIMMRGB X bit_depth out_int E_min E_clip =
  let I_max := IZR (2 ^ bit_depth - 1) in
  if out_int then as_int (np_round (I_max * ERIMM_curve E_min E_clip X))
  else as_float (ERIMM_curve E_min E_clip X).
Proof.
  intros Hbd. pose proof (I_max_ge_1 bit_depth Hbd) as HI.
  unfold log_encoding_ERIMMRGB, to_domain_1, from_range_1, Rgeb, Rgtb.
  cbv zeta. cbn [np_select].
  set (I_max := IZR (2 ^ bit_depth - 1)) in *.
  set (E_t := exp 1 * E_min).
  set (lin := I_max * _ * X / E_t). set (log := I_max * _).
  assert (Hsel :
    (if Rltb X 0.0 then 0
     else if Rleb X E_t then lin
     else if Rltb E_t X then log
     else if Rltb E_clip X then I_max else 0)
    = I_max * ERIMM_curve E_min E_clip X).
  { unfold ERIMM_curve. fold E_t.
    case_lt X 0.0.
    { destruct (Rlt_dec X 0); [ ring | lra ]. }
    destruct (Rlt_dec X 0); [ lra | ].
    case_le X E_t.
    { destruct (Rle_dec X E_t); [ | lra ].
      unfold lin, Rdiv. ring. }
    destruct (Rle_dec X E_t); [ lra | ].
    case_lt E_t X; [ | lra ].
    reflexivity. }
  rewrite Hsel.
  destruct out_int; [ reflexivity | ].
  f_equal. field. lra.
Qed.

(** *** The documented examples *)

Lemma exp_1_bounds : 2 < exp 1 <= 3.
Proof.
  split; [ | apply exp_le_3 ].
  pose proof (exp_ineq1 1). lra.
Qed.

(** C6: at the default bit depth 8, the three encodings of [0.18] are
    [0.3857114], [0.2916738] and [0.4100523] to within [1e-7] in float
    mode, and the code values [98], [74] and [105] in integer mode. *)
Theorem encoding_examples :
  Rabs (value (cctf_encoding_ROMMRGB 0.18 default_bit_depth false)
        - 0.3857114) < 0.0000001 /\
  cctf_encoding_ROMMRGB 0.18 default_bit_depth true = as_int 98 /\
  Rabs (value (cctf_encoding_RIMMRGB 0.18 default_bit_depth false
                 RIMM_E_clip) - 0.2916738) < 0.0000001 /\
  cctf_encoding_RIMMRGB 0.18 default_bit_depth true RIMM_E_clip
  = as_int 74 /\
  Rabs (value (log_encoding_ERIMMRGB 0.18 default_bit_depth false
                 ERIMM_E_min ERIMM_E_clip) - 0.4100523) < 0.0000001 /\
  log_encoding_ERIMMRGB 0.18 default_bit_depth true
    ERIMM_E_min ERIMM_E_clip = as_int 105.
Proof.
  assert (Hbd : (0 < default_bit_depth)%Z) by (unfold default_bit_depth; lia).
  rewrite !ROMM_encoding_curve, !RIMM_encoding_curve, !ERIMM_encoding_curve
    by assumption.
  cbv zeta. unfold default_bit_depth, value.
  change (2 ^ 8 - 1)%Z with 255%Z.
  (* ROMM *)
  assert (HROMM : 0.38571142 < ROMM_curve 0.18 < 0.38571143).
  { unfold ROMM_curve. destruct (Rlt_dec 0.18 (/ 512)); [ lra | ].
    exact pow_0_18_ROMM. }
  (* RIMM *)
  assert (HV : 1.402278241 < RIMM_V_clip RIMM_E_clip < 1.402278243).
  { unfold RIMM_V_clip, RIMM_E_clip. rewrite spow_pos by lra.
    replace 2.0 with 2 by lra. pose proof pow_2_RIMM. lra. }
  assert (HC : 0.409007728 < RIMM_curve 0.18 < 0.409007730).
  { unfold RIMM_curve.
    destruct (Rlt_dec 0.18 0); [ lra | ].
    destruct (Rlt_dec 0.18 0.018); [ lra | ].
    pose proof pow_0_18_RIMM. lra. }
  assert (HRIMM :
    0.29167372 < RIMM_curve 0.18 / RIMM_V_clip RIMM_E_clip < 0.29167374).
  { split; [ apply Rlt_div_r | apply Rlt_div_l ]; lra. }
  (* ERIMM *)
  assert (HERIMM :
    0.4100522 < ERIMM_curve ERIMM_E_min ERIMM_E_clip 0.18 < 0.4100524).
  { unfold ERIMM_curve, ERIMM_E_min, ERIMM_E_clip.
    pose proof exp_1_bounds as He.
    destruct (Rlt_dec 0.18 0); [ lra | ].
    destruct (Rle_dec 0.18 (exp 1 * 0.001)); [ lra | ].
    rewrite !ln_quotient by lra.
    replace (0.18 / 0.001) with 180 by lra.
    replace (316.2 / 0.001) with 316200 by lra.
    pose proof ln_ratio_ERIMM. lra. }
  repeat split.
  - apply Rabs_def1; lra.
  - f_equal. apply np_round_unique. lra.
  - apply Rabs_def1; lra.
  - f_equal. apply np_round_unique.
    replace (255 / RIMM_V_clip RIMM_E_clip * RIMM_curve 0.18)
      with (255 * (RIMM_curve 0.18 / RIMM_V_clip RIMM_E_clip))
      by (unfold Rdiv; ring).
    lra.
  - apply Rabs_def1; lra.
  - f_equal. apply np_round_unique. lra.
Qed.

(** *** Inputs above [E_clip] *)

Lemma RIMM_V_clip_default : 1.402278241 < RIMM_V_clip RIMM_E_clip < 1.402278243.
Proof.
  unfold RIMM_V_clip, RIMM_E_clip. rewrite spow_pos by lra.
  replace 2.0 with 2 by lra. pose proof pow_2_RIMM. lra.
Qed.

Lemma ERIMM_range_pos (E_min E_clip : R) :
  0 < E_min < E_clip -> 0 < ln E_clip - ln E_min.
Proof.
  intros [H1 H2]. pose proof (ln_increasing E_min E_clip H1 H2). lra.
Qed.

(** The fourth condition of each selector, [X > E_clip], comes after
    [X >= 0.018] (RIMM) and [X > E_t] (ERIMM), which already hold: above
    [E_clip] the encodings follow the third branch and exceed full scale. *)
Lemma encoding_above_E_clip_exceeds (X : R) (bit_depth : Z) :
  (0 < bit_depth)%Z ->
  (RIMM_E_clip < X ->
   1 < value (cctf_encoding_RIMMRGB X bit_depth false RIMM_E_clip)) /\
  (ERIMM_E_clip < X ->
   1 < value (log_encoding_ERIMMRGB X bit_depth false
                ERIMM_E_min ERIMM_E_clip)).
Proof.
  intros Hbd. split; intros HX.
  - rewrite RIMM_encoding_curve by assumption. cbv zeta. unfold value.
    pose proof RIMM_V_clip_default as HV.
    apply Rlt_div_r; [ lra | ]. rewrite Rmult_1_l.
    unfold RIMM_E_clip in *. unfold RIMM_curve.
    destruct (Rlt_dec X 0); [ lra | ].
    destruct (Rlt_dec X 0.018); [ lra | ].
    unfold RIMM_V_clip. rewrite spow_pos by lra.
    assert (Rpower 2.0 0.45 < Rpower X 0.45)
      by (apply Rlt_Rpower_l; lra).
    lra.
  - rewrite ERIMM_encoding_curve by assumption. cbv zeta. unfold value.
    unfold ERIMM_E_clip, ERIMM_E_min in *.
    pose proof (ERIMM_range_pos 0.001 316.2 ltac:(lra)) as HL.
    pose proof exp_1_bounds as He.
    unfold ERIMM_curve.
    destruct (Rlt_dec X 0); [ lra | ].
    destruct (Rle_dec X (exp 1 * 0.001)); [ lra | ].
    apply Rlt_div_r; [ assumption | ].
    assert (ln 316.2 < ln X) by (apply ln_increasing; lra).
    lra.
Qed.

Lemma pow_3_RIMM : 1.639474 < Rpower 3 0.45 < 1.639475.
Proof.
  apply (Rpower_bounds _ _ _ _ 9 20); try lra; try lia; simpl; lra.
Qed.

Lemma ln_ratio_1000_ERIMM : 49 / 45 < ln 1000000 / ln 316200 < 273 / 250.
Proof.
  split.
  - apply (ln_ratio_lower 1000000 316200 49 45);
      [ lia | lia | lia | lia | ].
    apply pow_ltb_lt; [ lia | lia | vm_compute; reflexivity ].
  - apply (ln_ratio_upper 1000000 316200 273 250);
      [ lia | lia | lia | lia | ].
    apply pow_ltb_lt; [ lia | lia | vm_compute; reflexivity ].
Qed.

(** C4 at its failing inputs.  With the default parameters and bit depth
    8, the RIMM encoding of [3 > E_clip = 2] is above [1] in float mode and
    [310] as a code value, and the ERIMM encoding of [1000 > E_clip = 316.2]
    is above [1] in float mode and [278] as a code value: neither is the
    clamped maximum ([1], [255]) the claim and the selectors' fourth branch
    call for. *)
Theorem encoding_above_E_clip_not_clamped :
  RIMM_E_clip < 3 /\
  1 < value (cctf_encoding_RIMMRGB 3 default_bit_depth false RIMM_E_clip) /\
  cctf_encoding_RIMMRGB 3 default_bit_depth true RIMM_E_clip = as_int 310 /\
  ERIMM_E_clip < 1000 /\
  1 < value (log_encoding_ERIMMRGB 1000 default_bit_depth false
               ERIMM_E_min ERIMM_E_clip) /\
  log_encoding_ERIMMRGB 1000 default_bit_depth true
    ERIMM_E_min ERIMM_E_clip = as_int 278.
Proof.
  assert (Hbd : (0 < default_bit_depth)%Z) by (unfold default_bit_depth; lia).
  assert (H3 : RIMM_E_clip < 3) by (unfold RIMM_E_clip; lra).
  assert (H1000 : ERIMM_E_clip < 1000) by (unfold ERIMM_E_clip; lra).
  destruct (encoding_above_E_clip_exceeds 3 _ Hbd) as [HR _].
  destruct (encoding_above_E_clip_exceeds 1000 _ Hbd) as [_ HE].
  repeat split; auto.
  - rewrite RIMM_encoding_curve by assumption. cbv zeta.
    unfold default_bit_depth. change (2 ^ 8 - 1)%Z with 255%Z.
    f_equal. apply np_round_unique.
    pose proof RIMM_V_clip_default as HV.
    assert (HC : 1.702781 < RIMM_curve 3 < 1.702784).
    { unfold RIMM_curve.
      destruct (Rlt_dec 3 0); [ lra | ].
      destruct (Rlt_dec 3 0.018); [ lra | ].
      pose proof pow_3_RIMM. lra. }
    replace (255 / RIMM_V_clip RIMM_E_clip * RIMM_curve 3)
      with (255 * (RIMM_curve 3 / RIMM_V_clip RIMM_E_clip))
      by (unfold Rdiv; ring).
    assert (1.2142 < RIMM_curve 3 / RIMM_V_clip RIMM_E_clip < 1.2144).
    { split; [ apply Rlt_div_r | apply Rlt_div_l ]; lra. }
    lra.
  - rewrite ERIMM_encoding_curve by assumption. cbv zeta.
    unfold default_bit_depth. change (2 ^ 8 - 1)%Z with 255%Z.
    f_equal. apply np_round_unique.
    unfold ERIMM_curve, ERIMM_E_min, ERIMM_E_clip.
    pose proof exp_1_bounds as He.
    destruct (Rlt_dec 1000 0); [ lra | ].
    destruct (Rle_dec 1000 (exp 1 * 0.001)); [ lra | ].
    rewrite !ln_quotient by lra.
    replace (1000 / 0.001) with 1000000 by lra.
    replace (316.2 / 0.001) with 316200 by lra.
    pose proof ln_ratio_1000_ERIMM. lra.
Qed.

(** *** Monotonicity *)

Lemma Rpower_le (x y p : R) : 0 <= p -> 0 < x -> x <= y ->
  Rpower x p <= Rpower y p.
Proof. intros Hp Hx Hxy. apply Rle_Rpower_l; [ assumption | lra ]. Qed.

(** The two segments of ROMM RGB meet at the breakpoint. *)
Lemma ROMM_breakpoint_value : Rpower (/ 512) (1 / 1.8) = / 32.
Proof.
  replace (/ 512) with (Rpower 2 (- INR 9)).
  2:{ rewrite Rpower_Ropp, Rpower_pow by lra. simpl. lra. }
  rewrite Rpower_mult.
  replace (- INR 9 * (1 / 1.8)) with (- INR 5) by (simpl; lra).
  rewrite Rpower_Ropp, Rpower_pow by lra. simpl. lra.
Qed.

Lemma ROMM_curve_mono (X1 X2 : R) :
  X1 <= X2 -> ROMM_curve X1 <= ROMM_curve X2.
Proof.
  intros H. unfold ROMM_curve.
  destruct (Rlt_dec X1 (/ 512)), (Rlt_dec X2 (/ 512)); try lra.
  - assert (Rpower (/ 512) (1 / 1.8) <= Rpower X2 (1 / 1.8))
      by (apply Rpower_le; lra).
    rewrite ROMM_breakpoint_value in *. lra.
  - apply Rpower_le; lra.
Qed.

Lemma RIMM_curve_upper_segment (X : R) :
  0.018 <= X -> 0.081 < 1.099 * Rpower X 0.45 - 0.099.
Proof.
  intros H.
  assert (Rpower 0.018 0.45 <= Rpower X 0.45) by (apply Rpower_le; lra).
  pose proof pow_knee_RIMM. lra.
Qed.

Lemma RIMM_curve_nonneg (X : R) : 0 <= RIMM_curve X.
Proof.
  unfold RIMM_curve.
  destruct (Rlt_dec X 0); [ lra | ].
  destruct (Rlt_dec X 0.018); [ lra | ].
  pose proof (RIMM_curve_upper_segment X). lra.
Qed.

Lemma RIMM_curve_mono (X1 X2 : R) :
  X1 <= X2 -> RIMM_curve X1 <= RIMM_curve X2.
Proof.
  intros H.
  destruct (Rlt_dec X1 0) as [Hneg | Hpos].
  { unfold RIMM_curve at 1. destruct (Rlt_dec X1 0); [ | lra ].
    apply RIMM_curve_nonneg. }
  unfold RIMM_curve.
  destruct (Rlt_dec X1 0); [ lra | ].
  destruct (Rlt_dec X2 0); [ lra | ].
  destruct (Rlt_dec X1 0.018), (Rlt_dec X2 0.018); try lra.
  - pose proof (RIMM_curve_upper_segment X2). lra.
  - assert (Rpower X1 0.45 <= Rpower X2 0.45) by (apply Rpower_le; lra).
    lra.
Qed.

Lemma ERIMM_breakpoint (E_min : R) :
  0 < E_min -> ln (exp 1 * E_min) - ln E_min = 1.
Proof.
  intros H. rewrite ln_mult, ln_exp by (auto using exp_pos). ring.
Qed.

Lemma Rmult_div_le (c a b d : R) :
  0 <= c -> 0 < d -> a <= b -> c * a / d <= c * b / d.
Proof.
  intros Hc Hd Hab. unfold Rdiv.
  apply Rmult_le_compat_r; [ left; apply Rinv_0_lt_compat; assumption | ].
  apply Rmult_le_compat_l; assumption.
Qed.

Lemma Rdiv_le_mono (a b d : R) : 0 < d -> a <= b -> a / d <= b / d.
Proof.
  intros Hd Hab. unfold Rdiv.
  apply Rmult_le_compat_r; [ left; apply Rinv_0_lt_compat | ]; assumption.
Qed.

Lemma ERIMM_curve_mono (E_min E_clip X1 X2 : R) :
  0 < E_min < E_clip -> X1 <= X2 ->
  ERIMM_curve E_min E_clip X1 <= ERIMM_curve E_min E_clip X2.
Proof.
  intros HE H.
  pose proof (ERIMM_range_pos _ _ HE) as HL.
  pose proof (ERIMM_breakpoint E_min (proj1 HE)) as Hb.
  assert (HEt : 0 < exp 1 * E_min).
  { apply Rmult_lt_0_compat; [ apply exp_pos | lra ]. }
  unfold ERIMM_curve. cbv zeta. rewrite Hb.
  set (E_t := exp 1 * E_min) in *.
  set (L := ln E_clip - ln E_min) in *.
  assert (HiL : 0 < 1 / L) by (apply Rdiv_lt_0_compat; lra).
  assert (Hlog : forall X, E_t < X -> 1 / L < (ln X - ln E_min) / L).
  { intros X HX. apply Rlt_div_r; [ assumption | ].
    replace (1 / L * L) with 1 by (field; lra).
    pose proof (ln_increasing E_t X HEt HX). lra. }
  assert (Hlin : forall X, 0 <= X -> X <= E_t ->
                           0 <= 1 / L * X / E_t <= 1 / L).
  { intros X H0 HX. split.
    - apply Rmult_le_pos; [ apply Rmult_le_pos; lra | ].
      left. apply Rinv_0_lt_compat. assumption.
    - replace (1 / L) with (1 / L * E_t / E_t) at 2 by (field; lra).
      apply Rmult_div_le; lra. }
  destruct (Rlt_dec X1 0), (Rlt_dec X2 0); try lra.
  - destruct (Rle_dec X2 E_t).
    + apply (Hlin X2); lra.
    + pose proof (Hlog X2). lra.
  - destruct (Rle_dec X1 E_t), (Rle_dec X2 E_t); try lra.
    + apply Rmult_div_le; lra.
    + pose proof (Hlin X1). pose proof (Hlog X2). lra.
    + apply Rdiv_le_mono; [ assumption | ].
      destruct (Req_dec X1 X2) as [-> | Hne]; [ lra | ].
      assert (ln X1 < ln X2) by (apply ln_increasing; lra). lra.
Qed.

(** *** Decoding an encoded value *)

Lemma Rltb_scale (a b c : R) : 0 < c -> Rltb (a * c) (b * c) = Rltb a b.
Proof.
  intros Hc. destruct (Rltb a b) eqn:H.
  - apply Rltb_lt in H. apply Rltb_lt. apply Rmult_lt_compat_r; assumption.
  - apply Rltb_ge in H. apply Rltb_ge. apply Rmult_le_compat_r; lra.
Qed.

Lemma Rleb_scale (a b c : R) : 0 < c -> Rleb (a * c) (b * c) = Rleb a b.
Proof.
  intros Hc. destruct (Rleb a b) eqn:H.
  - apply Rleb_le in H. apply Rleb_le. apply Rmult_le_compat_r; lra.
  - apply Rleb_gt in H. apply Rleb_gt. apply Rmult_lt_compat_r; assumption.
Qed.

(** In integer mode a decoder skips the scaling by [I_max]: on a code
    value [y * I_max] it computes what it computes on [y] in float mode. *)
Lemma decoding_in_int (y : R) (bit_depth : Z) (E_clip E_min E_clip' : R) :
  let I_max := IZR (2 ^ bit_depth - 1) in
  cctf_decoding_ROMMRGB (y * I_max) bit_depth true
  = cctf_decoding_ROMMRGB y bit_depth false /\
  cctf_decoding_RIMMRGB (y * I_max) bit_depth true E_clip
  = cctf_decoding_RIMMRGB y bit_depth false E_clip /\
  log_decoding_ERIMMRGB (y * I_max) bit_depth true E_min E_clip'
  = log_decoding_ERIMMRGB y bit_depth false E_min E_clip'.
Proof. repeat split. Qed.

Lemma ROMM_round_trip (X : R) (bit_depth : Z) :
  (0 < bit_depth)%Z ->
  cctf_decoding_ROMMRGB (ROMM_curve X) bit_depth false = X.
Proof.
  intros Hbd. pose proof (I_max_ge_1 bit_depth Hbd) as HI.
  unfold cctf_decoding_ROMMRGB, to_domain_1, from_range_1, np_where.
  cbn [negb]. rewrite ROMM_E_t.
  set (I_max := IZR (2 ^ bit_depth - 1)) in *.
  rewrite Rltb_scale by lra.
  unfold ROMM_curve. destruct (Rlt_dec X (/ 512)).
  - case_lt (16 * X) (16 * / 512); [ | lra ].
    field. lra.
  - assert (Hp : Rpower (/ 512) (1 / 1.8) <= Rpower X (1 / 1.8))
      by (apply Rpower_le; lra).
    rewrite ROMM_breakpoint_value in Hp.
    case_lt (Rpower X (1 / 1.8)) (16 * / 512); [ lra | ].
    rewrite Rmult_div_cancel by lra.
    rewrite spow_pos by apply Rpower_pos.
    rewrite Rpower_mult.
    replace (1 / 1.8 * 1.8) with 1 by lra.
    apply Rpower_1. lra.
Qed.

Lemma RIMM_round_trip (X : R) (bit_depth : Z) (E_clip : R) :
  (0 < bit_depth)%Z -> 0 < RIMM_V_clip E_clip -> 0 <= X ->
  cctf_decoding_RIMMRGB (RIMM_curve X / RIMM_V_clip E_clip)
    bit_depth false E_clip = X.
Proof.
  intros Hbd HV HX. pose proof (I_max_ge_1 bit_depth Hbd) as HI.
  unfold cctf_decoding_RIMMRGB, to_domain_1, from_range_1, np_where.
  cbn [negb]. rewrite RIMM_encoding_curve by assumption.
  cbv zeta. unfold value. fold (RIMM_V_clip E_clip).
  set (I_max := IZR (2 ^ bit_depth - 1)) in *.
  set (V := RIMM_V_clip E_clip) in *.
  rewrite Rmult_div_cancel by lra.
  replace (V * (RIMM_curve X / V * I_max) / I_max) with (RIMM_curve X)
    by (field; lra).
  assert (Hk : RIMM_curve 0.018 = 1.099 * Rpower 0.018 0.45 - 0.099).
  { unfold RIMM_curve.
    destruct (Rlt_dec 0.018 0); [ lra | ].
    destruct (Rlt_dec 0.018 0.018); [ lra | reflexivity ]. }
  pose proof pow_knee_RIMM as Hknee.
  replace (RIMM_curve 0.018 / V) with (RIMM_curve 0.018 * / V) by reflexivity.
  replace (RIMM_curve X / V) with (RIMM_curve X * / V) by reflexivity.
  rewrite Rltb_scale by (apply Rinv_0_lt_compat; assumption).
  rewrite Hk. unfold RIMM_curve.
  destruct (Rlt_dec X 0); [ lra | ].
  destruct (Rlt_dec X 0.018).
  - case_lt (4.5 * X) (1.099 * Rpower 0.018 0.45 - 0.099); [ | lra ].
    lra.
  - assert (Hp : Rpower 0.018 0.45 <= Rpower X 0.45)
      by (apply Rpower_le; lra).
    case_lt (1.099 * Rpower X 0.45 - 0.099)
            (1.099 * Rpower 0.018 0.45 - 0.099); [ lra | ].
    replace ((1.099 * Rpower X 0.45 - 0.099 + 0.099) / 1.099)
      with (Rpower X 0.45) by (field; lra).
    rewrite spow_pos by apply Rpower_pos.
    rewrite Rpower_mult.
    replace (0.45 * (1 / 0.45)) with 1 by lra.
    apply Rpower_1. lra.
Qed.

Lemma ERIMM_round_trip (X : R) (bit_depth : Z) (E_min E_clip : R) :
  (0 < bit_depth)%Z -> 0 < E_min < E_clip -> 0 <= X ->
  log_decoding_ERIMMRGB (ERIMM_curve E_min E_clip X)
    bit_depth false E_min E_clip = X.
Proof.
  intros Hbd HE HX. pose proof (I_max_ge_1 bit_depth Hbd) as HI.
  pose proof (ERIMM_range_pos _ _ HE) as HL.
  pose proof (ERIMM_breakpoint E_min (proj1 HE)) as Hb.
  assert (HEt : 0 < exp 1 * E_min).
  { apply Rmult_lt_0_compat; [ apply exp_pos | lra ]. }
  unfold log_decoding_ERIMMRGB, to_domain_1, from_range_1, np_where.
  cbn [negb]. cbv zeta. rewrite Hb.
  set (I_max := IZR (2 ^ bit_depth - 1)) in *.
  rewrite (Rmult_comm I_max (1 / _)).
  rewrite Rleb_scale by lra.
  rewrite Rmult_div_cancel by lra.
  unfold ERIMM_curve. cbv zeta. rewrite Hb.
  set (E_t := exp 1 * E_min) in *.
  set (L := ln E_clip - ln E_min) in *.
  destruct (Rlt_dec X 0); [ lra | ].
  destruct (Rle_dec X E_t).
  - assert (Hle : 1 / L * X / E_t <= 1 / L).
    { replace (1 / L) with (1 / L * E_t / E_t) at 2 by (field; lra).
      apply Rmult_div_le; try lra.
      left. apply Rdiv_lt_0_compat; lra. }
    case_le (1 / L * X / E_t) (1 / L); [ | lra ].
    field. lra.
  - assert (Hgt : 1 / L < (ln X - ln E_min) / L).
    { apply Rlt_div_r; [ assumption | ].
      replace (1 / L * L) with 1 by (field; lra).
      assert (ln E_t < ln X) by (apply ln_increasing; lra). lra. }
    case_le ((ln X - ln E_min) / L) (1 / L); [ lra | ].
    replace ((ln X - ln E_min) / L * L + ln E_min) with (ln X)
      by (field; lra).
    apply exp_ln. lra.
Qed.


(** *** Further properties of the transfer functions *)

(** Each decoder in float mode, with the scaling by [I_max] carried out. *)
Lemma ROMM_decoding_curve (X_p : R) (bit_depth : Z) :
  (0 < bit_depth)%Z ->
  cctf_decoding_ROMMRGB X_p bit_depth false =
  if Rlt_dec X_p (/ 32) then X_p / 16 else spow X_p 1.8.
Proof.
  intros Hbd. pose proof (I_max_ge_1 bit_depth Hbd) as HI.
  unfold cctf_decoding_ROMMRGB, to_domain_1, from_range_1, np_where.
  cbn [negb]. rewrite ROMM_E_t.
  set (I_max := IZR (2 ^ bit_depth - 1)) in *.
  rewrite Rltb_scale by lra.
  rewrite Rmult_div_cancel by lra.
  unfold Rltb.
  destruct (Rlt_dec X_p (16 * / 512)), (Rlt_dec X_p (/ 32)); try lra.
  field. lra.
Qed.

Lemma RIMM_knee : RIMM_curve 0.018 = 1.099 * Rpower 0.018 0.45 - 0.099.
Proof.
  unfold RIMM_curve.
  destruct (Rlt_dec 0.018 0); [ lra | ].
  destruct (Rlt_dec 0.018 0.018); [ lra | reflexivity ].
Qed.

Lemma RIMM_decoding_curve (X_p : R) (bit_depth : Z) (E_clip : R) :
  (0 < bit_depth)%Z ->
  cctf_decoding_RIMMRGB X_p bit_depth false E_clip =
  let V_clip := RIMM_V_clip E_clip in
  if Rlt_dec X_p (RIMM_curve 0.018 / V_clip)
  then V_clip * X_p / 4.5
  else spow ((V_clip * X_p + 0.099) / 1.099) (1 / 0.45).
Proof.
  intros Hbd. pose proof (I_max_ge_1 bit_depth Hbd) as HI.
  unfold cctf_decoding_RIMMRGB, to_domain_1, from_range_1, np_where.
  cbn [negb]. rewrite RIMM_encoding_curve by assumption.
  cbv zeta. unfold value. fold (RIMM_V_clip E_clip).
  set (I_max := IZR (2 ^ bit_depth - 1)) in *.
  set (V := RIMM_V_clip E_clip) in *.
  rewrite Rmult_div_cancel by lra.
  replace (V * (X_p * I_max) / I_max) with (V * X_p) by (field; lra).
  unfold Rltb.
  destruct (Rlt_dec X_p (RIMM_curve 0.018 / V)); reflexivity.
Qed.

Lemma ERIMM_decoding_curve
  (X_p : R) (bit_depth : Z) (E_min E_clip : R) :
  (0 < bit_depth)%Z -> 0 < E_min ->
  log_decoding_ERIMMRGB X_p bit_depth false E_min E_clip =
  let E_t := exp 1 * E_min in
  let L := ln E_clip - ln E_min in
  if Rle_dec X_p (1 / L) then L * (X_p * E_t)
  else exp (X_p * L + ln E_min).
Proof.
  intros Hbd HE. pose proof (I_max_ge_1 bit_depth Hbd) as HI.
  pose proof (ERIMM_breakpoint E_min HE) as Hb.
  unfold log_decoding_ERIMMRGB, to_domain_1, from_range_1, np_where.
  cbn [negb]. cbv zeta. rewrite Hb.
  set (I_max := IZR (2 ^ bit_depth - 1)) in *.
  rewrite (Rmult_comm I_max (1 / _)).
  rewrite Rleb_scale by lra.
  rewrite Rmult_div_cancel by lra.
  set (L := ln E_clip - ln E_min).
  replace (L / 1 * (X_p * I_max * (exp 1 * E_min) / I_max))
    with (L * (X_p * (exp 1 * E_min))) by (field; lra).
  unfold Rleb. destruct (Rle_dec X_p (1 / L)); reflexivity.
Qed.



(** X2: the integer code value is the float-mode value scaled by [I_max]
    and rounded to the nearest integer. *)
Theorem integer_mode_rounds_float_mode
  (X : R) (bit_depth : Z) (E_clip E_min E_clip' : R) :
  (0 < bit_depth)%Z ->
  let I_max := IZR (2 ^ bit_depth - 1) in
  cctf_encoding_ROMMRGB X bit_depth true
  = as_int (np_round
              (I_max * value (cctf_encoding_ROMMRGB X bit_depth false))) /\
  cctf_encoding_RIMMRGB X bit_depth true E_clip
  = as_int (np_round
              (I_max
               * value (cctf_encoding_RIMMRGB X bit_depth false E_clip))) /\
  log_encoding_ERIMMRGB X bit_depth true E_min E_clip'
  = as_int (np_round
              (I_max
               * value (log_encoding_ERIMMRGB X bit_depth false
                          E_min E_clip'))).
Proof.
  intros Hbd I_max.
  rewrite !ROMM_encoding_curve, !RIMM_encoding_curve, !ERIMM_encoding_curve
    by assumption.
  cbv zeta. unfold value. fold I_max. repeat split.
  - rewrite (Rmult_comm I_max). reflexivity.
  - do 2 f_equal. unfold Rdiv. ring.
Qed.

Lemma integer_mode_rounds_float_mode_witness :
  cctf_encoding_ROMMRGB 0.18 8 true
  = as_int (np_round
              (IZR (2 ^ 8 - 1)
               * value (cctf_encoding_ROMMRGB 0.18 8 false))).
Proof.
  assert (H1 : (0 < 8)%Z) by lia.
  exact (proj1 (integer_mode_rounds_float_mode 0.18 8 RIMM_E_clip
                  ERIMM_E_min ERIMM_E_clip H1)).
Defined.

(** X3: decoding inverts encoding well beyond the unit interval.  ROMM
    RGB has no clamp at either end, and its decoder returns every real
    input of the encoder, negative ones included; the RIMM and ERIMM
    decoders return every input [X >= 0], also above [E_clip], where the
    encodings are not clamped. *)
Theorem decoding_inverts_encoding_beyond_unit_interval
  (X : R) (bit_depth : Z) (E_clip E_min E_clip' : R) :
  (0 < bit_depth)%Z -> 0 < RIMM_V_clip E_clip -> 0 < E_min < E_clip' ->
  cctf_decoding_ROMMRGB
    (value (cctf_encoding_ROMMRGB X bit_depth false)) bit_depth false = X /\
  (0 <= X ->
   cctf_decoding_RIMMRGB
     (value (cctf_encoding_RIMMRGB X bit_depth false E_clip))
     bit_depth false E_clip = X /\
   log_decoding_ERIMMRGB
     (value (log_encoding_ERIMMRGB X bit_depth false E_min E_clip'))
     bit_depth false E_min E_clip' = X).
Proof.
  intros Hbd HV HE.
  rewrite ROMM_encoding_curve, RIMM_encoding_curve, ERIMM_encoding_curve
    by assumption.
  cbv zeta. unfold value. split; [ | intros HX; split ].
  - apply ROMM_round_trip; assumption.
  - apply RIMM_round_trip; assumption.
  - apply ERIMM_round_trip; assumption.
Qed.

Lemma decoding_inverts_encoding_beyond_unit_interval_witness :
  cctf_decoding_ROMMRGB
    (value (cctf_encoding_ROMMRGB (-3) 8 false)) 8 false = -3 /\
  cctf_decoding_RIMMRGB
    (value (cctf_encoding_RIMMRGB 3 8 false RIMM_E_clip))
    8 false RIMM_E_clip = 3.
Proof.
  assert (H1 : (0 < 8)%Z) by lia.
  assert (H2 : 0 < RIMM_V_clip RIMM_E_clip)
    by (pose proof RIMM_V_clip_default; lra).
  assert (H3 : 0 < ERIMM_E_min < ERIMM_E_clip)
    by (unfold ERIMM_E_min, ERIMM_E_clip; lra).
  assert (H4 : 0 <= 3) by lra.
  split.
  - exact (proj1 (decoding_inverts_encoding_beyond_unit_interval (-3) 8
                    RIMM_E_clip ERIMM_E_min ERIMM_E_clip H1 H2 H3)).
  - exact (proj1 (proj2 (decoding_inverts_encoding_beyond_unit_interval 3 8
                           RIMM_E_clip ERIMM_E_min ERIMM_E_clip H1 H2 H3)
                    H4)).
Defined.

Lemma Rpower_inverse (x p q : R) :
  0 < x -> p * q = 1 -> Rpower (Rpower x p) q = x.
Proof.
  intros Hx Hpq. rewrite Rpower_mult, Hpq. apply Rpower_1. assumption.
Qed.






(** X5: the code values the RIMM encoder skips are not recovered.  The
    linear segment ends at [4.5 * 0.018 = 0.081] and the power segment
    starts above it; a value [X_p] with [V_clip * X_p] between the two
    decodes through the linear segment to an [X >= 0.018], which encodes
    through the power segment to a larger value. *)
Theorem RIMM_skipped_values_not_recovered
  (X_p : R) (bit_depth : Z) (E_clip : R) :
  (0 < bit_depth)%Z -> 0 < RIMM_V_clip E_clip ->
  0.081 <= RIMM_V_clip E_clip * X_p < 1.099 * Rpower 0.018 0.45 - 0.099 ->
  X_p < value (cctf_encoding_RIMMRGB
                 (cctf_decoding_RIMMRGB X_p bit_depth false E_clip)
                 bit_depth false E_clip).
Proof.
  intros Hbd HV [Hlo Hhi].
  rewrite RIMM_encoding_curve by assumption. cbv zeta. unfold value.
  rewrite RIMM_decoding_curve by assumption. cbv zeta.
  set (V := RIMM_V_clip E_clip) in *.
  rewrite <- RIMM_knee in Hhi.
  destruct (Rlt_dec X_p (RIMM_curve 0.018 / V)) as [Hlt | Hge].
  - pose proof (RIMM_curve_mono 0.018 (V * X_p / 4.5) ltac:(lra)) as Hm.
    apply Rlt_div_r; [ assumption | ]. rewrite Rmult_comm. lra.
  - exfalso. apply Hge. apply Rlt_div_r; [ assumption | ].
    rewrite Rmult_comm. assumption.
Qed.

Lemma RIMM_skipped_values_not_recovered_witness :
  0.0811 / RIMM_V_clip RIMM_E_clip
  < value (cctf_encoding_RIMMRGB
             (cctf_decoding_RIMMRGB (0.0811 / RIMM_V_clip RIMM_E_clip)
                8 false RIMM_E_clip)
             8 false RIMM_E_clip).
Proof.
  pose proof RIMM_V_clip_default as HV. pose proof pow_knee_RIMM as Hk.
  assert (H1 : (0 < 8)%Z) by lia.
  assert (H2 : 0 < RIMM_V_clip RIMM_E_clip) by lra.
  assert (H3 : 0.081 <= RIMM_V_clip RIMM_E_clip
                        * (0.0811 / RIMM_V_clip RIMM_E_clip)
               < 1.099 * Rpower 0.018 0.45 - 0.099).
  { replace (RIMM_V_clip RIMM_E_clip * (0.0811 / RIMM_V_clip RIMM_E_clip))
      with 0.0811 by (field; lra).
    lra. }
  exact (RIMM_skipped_values_not_recovered _ 8 RIMM_E_clip H1 H2 H3).
Defined.

(** *** Range and end points *)

Lemma ROMM_curve_0 : ROMM_curve 0 = 0.
Proof. unfold ROMM_curve. destruct (Rlt_dec 0 (/ 512)); lra. Qed.

Lemma Rpower_1_l (p : R) : Rpower 1 p = 1.
Proof. unfold Rpower. rewrite ln_1, Rmult_0_r. apply exp_0. Qed.

Lemma ROMM_curve_1 : ROMM_curve 1 = 1.
Proof.
  unfold ROMM_curve. destruct (Rlt_dec 1 (/ 512)); [ lra | ].
  apply Rpower_1_l.
Qed.

Lemma RIMM_curve_0 : RIMM_curve 0 = 0.
Proof.
  unfold RIMM_curve.
  destruct (Rlt_dec 0 0); [ lra | ].
  destruct (Rlt_dec 0 0.018); lra.
Qed.

(** Above the knee [V_clip] is the value of the curve at [E_clip], and
    positive. *)
Lemma RIMM_V_clip_curve (E_clip : R) :
  0.018 <= E_clip ->
  RIMM_V_clip E_clip = RIMM_curve E_clip /\ 0.081 < RIMM_V_clip E_clip.
Proof.
  intros H. unfold RIMM_V_clip. rewrite spow_pos by lra.
  split; [ | apply RIMM_curve_upper_segment; assumption ].
  unfold RIMM_curve.
  destruct (Rlt_dec E_clip 0); [ lra | ].
  destruct (Rlt_dec E_clip 0.018); [ lra | reflexivity ].
Qed.

Lemma ERIMM_curve_0 (E_min E_clip : R) :
  0 < E_min -> ERIMM_curve E_min E_clip 0 = 0.
Proof.
  intros H. unfold ERIMM_curve. cbv zeta.
  assert (HEt : 0 < exp 1 * E_min).
  { apply Rmult_lt_0_compat; [ apply exp_pos | lra ]. }
  destruct (Rlt_dec 0 0); [ lra | ].
  destruct (Rle_dec 0 (exp 1 * E_min)); [ | lra ].
  unfold Rdiv. ring.
Qed.

Lemma ERIMM_curve_E_clip (E_min E_clip : R) :
  0 < E_min -> exp 1 * E_min < E_clip ->
  ERIMM_curve E_min E_clip E_clip = 1.
Proof.
  intros H HE. unfold ERIMM_curve. cbv zeta.
  assert (HEt : 0 < exp 1 * E_min).
  { apply Rmult_lt_0_compat; [ apply exp_pos | lra ]. }
  pose proof exp_1_bounds as He.
  assert (Hlt : E_min < E_clip) by nra.
  pose proof (ERIMM_range_pos E_min E_clip ltac:(lra)) as HL.
  destruct (Rlt_dec E_clip 0); [ lra | ].
  destruct (Rle_dec E_clip (exp 1 * E_min)); [ lra | ].
  field. lra.
Qed.

(** X6: at the top of its input range each encoding returns exactly full
    scale, [1] in float mode and the 64-bit integer
    [I_max = 2 ** bit_depth - 1] in integer mode, at a bit depth of 1 to 32
    bits: ROMM RGB at [X = 1], RIMM and ERIMM at [X = E_clip] (an [E_clip]
    above the breakpoint of the curve). *)
Theorem encoding_full_scale
  (bit_depth : Z) (out_int : bool) (E_clip E_min E_clip' : R) :
  (1 <= bit_depth <= 32)%Z -> 0.018 <= E_clip ->
  0 < E_min -> exp 1 * E_min < E_clip' ->
  let full_scale :=
    if out_int then int64 (2 ^ bit_depth - 1) else as_float 1 in
  cctf_encoding_ROMMRGB 1 bit_depth out_int = full_scale /\
  cctf_encoding_RIMMRGB E_clip bit_depth out_int E_clip = full_scale /\
  log_encoding_ERIMMRGB E_clip' bit_depth out_int E_min E_clip' = full_scale.
Proof.
  intros Hbd32 HEc HEm HEc' full_scale.
  assert (Hbd : (0 < bit_depth)%Z) by lia.
  pose proof (I_max_ge_1 bit_depth Hbd) as HI.
  pose proof (I_max_int64 bit_depth ltac:(lia)) as H64.
  rewrite ROMM_encoding_curve, RIMM_encoding_curve, ERIMM_encoding_curve
    by assumption.
  cbv zeta. rewrite ROMM_curve_1, ERIMM_curve_E_clip by assumption.
  destruct (RIMM_V_clip_curve E_clip HEc) as [HV HVpos].
  rewrite <- HV.
  set (I_max := IZR (2 ^ bit_depth - 1)) in *.
  replace (I_max / RIMM_V_clip E_clip * RIMM_V_clip E_clip) with I_max
    by (field; lra).
  replace (RIMM_V_clip E_clip / RIMM_V_clip E_clip) with 1 by (field; lra).
  rewrite Rmult_1_l, Rmult_1_r. unfold I_max, full_scale.
  rewrite np_round_IZR.
  assert (2 ^ 1 <= 2 ^ bit_depth)%Z by (apply Z.pow_le_mono_r; lia).
  rewrite as_int_in_range by lia.
  destruct out_int; repeat split.
Qed.

Lemma encoding_full_scale_witness :
  cctf_encoding_ROMMRGB 1 8 true = int64 (2 ^ 8 - 1) /\
  cctf_encoding_RIMMRGB RIMM_E_clip 8 true RIMM_E_clip = int64 (2 ^ 8 - 1) /\
  log_encoding_ERIMMRGB ERIMM_E_clip 8 true ERIMM_E_min ERIMM_E_clip
  = int64 (2 ^ 8 - 1).
Proof.
  assert (H1 : (1 <= 8 <= 32)%Z) by lia.
  assert (H2 : 0.018 <= RIMM_E_clip) by (unfold RIMM_E_clip; lra).
  assert (H3 : 0 < ERIMM_E_min) by (unfold ERIMM_E_min; lra).
  assert (H4 : exp 1 * ERIMM_E_min < ERIMM_E_clip).
  { pose proof exp_1_bounds. unfold ERIMM_E_min, ERIMM_E_clip. lra. }
  exact (encoding_full_scale 8 true RIMM_E_clip ERIMM_E_min ERIMM_E_clip
           H1 H2 H3 H4).
Defined.

(** The curves on their input range. *)
Lemma ROMM_curve_range (X : R) : 0 <= X <= 1 -> 0 <= ROMM_curve X <= 1.
Proof.
  intros [H0 H1].
  pose proof (ROMM_curve_mono 0 X H0) as Hlo.
  pose proof (ROMM_curve_mono X 1 H1) as Hhi.
  rewrite ROMM_curve_0 in Hlo. rewrite ROMM_curve_1 in Hhi. lra.
Qed.

Lemma RIMM_curve_range (X E_clip : R) :
  0.018 <= E_clip -> X <= E_clip ->
  0 <= RIMM_curve X / RIMM_V_clip E_clip <= 1.
Proof.
  intros HEc H1.
  destruct (RIMM_V_clip_curve E_clip HEc) as [HV HVpos].
  pose proof (RIMM_curve_nonneg X) as Hn.
  pose proof (RIMM_curve_mono X E_clip H1) as Hm. rewrite <- HV in Hm.
  split.
  - apply Rmult_le_pos; [ assumption | ].
    left. apply Rinv_0_lt_compat. lra.
  - replace 1 with (RIMM_V_clip E_clip / RIMM_V_clip E_clip)
      by (field; lra).
    apply Rdiv_le_mono; lra.
Qed.

Lemma ERIMM_curve_nonneg (E_min E_clip X : R) :
  0 < E_min < E_clip -> 0 <= ERIMM_curve E_min E_clip X.
Proof.
  intros HE.
  destruct (Rle_dec 0 X) as [H0 | Hneg].
  - pose proof (ERIMM_curve_mono E_min E_clip 0 X HE H0) as Hlo.
    rewrite ERIMM_curve_0 in Hlo by tauto. assumption.
  - unfold ERIMM_curve. cbv zeta.
    destruct (Rlt_dec X 0); lra.
Qed.

(** With the breakpoint [E_t = e * E_min] at or below [E_clip], the ERIMM
    curve reaches [1] at [E_clip]. *)
Lemma ERIMM_curve_range (E_min E_clip X : R) :
  0 < E_min -> exp 1 * E_min <= E_clip -> X <= E_clip ->
  0 <= ERIMM_curve E_min E_clip X <= 1.
Proof.
  intros HEm HEt H1.
  pose proof exp_1_bounds as He.
  assert (HE : 0 < E_min < E_clip) by nra.
  split; [ apply ERIMM_curve_nonneg; assumption | ].
  pose proof (ERIMM_curve_mono E_min E_clip X E_clip HE H1) as Hhi.
  destruct (Req_dec (exp 1 * E_min) E_clip) as [Heq | Hne].
  - assert (Htop : ERIMM_curve E_min E_clip E_clip = 1).
    { pose proof (ERIMM_breakpoint E_min HEm) as Hb.
      unfold ERIMM_curve. cbv zeta.
      destruct (Rlt_dec E_clip 0); [ lra | ].
      destruct (Rle_dec E_clip (exp 1 * E_min)); [ | lra ].
      rewrite Heq in *. rewrite Hb. field. lra. }
    lra.
  - rewrite ERIMM_curve_E_clip in Hhi by lra. assumption.
Qed.

(** X7: on its input range each encoding stays within its output range,
    at a bit depth of 1 to 32 bits: [[0, 1]] in float mode, [[0, I_max]]
    in integer mode; for ROMM RGB on [[0, 1]], for RIMM and ERIMM on
    [[0, E_clip]]. *)
Theorem encoding_range
  (X X' : R) (bit_depth : Z) (out_int : bool) (E_clip E_min E_clip' : R) :
  (1 <= bit_depth <= 32)%Z -> 0.018 <= E_clip ->
  0 < E_min -> exp 1 * E_min < E_clip' ->
  let top := if out_int then IZR (2 ^ bit_depth - 1) else 1 in
  (0 <= X <= 1 ->
   0 <= value (cctf_encoding_ROMMRGB X bit_depth out_int) <= top) /\
  (0 <= X <= E_clip ->
   0 <= value (cctf_encoding_RIMMRGB X bit_depth out_int E_clip) <= top) /\
  (0 <= X' <= E_clip' ->
   0 <= value (log_encoding_ERIMMRGB X' bit_depth out_int E_min E_clip')
   <= top).
Proof.
  intros Hbd32 HEc HEm HEc' top.
  assert (Hbd : (0 < bit_depth)%Z) by lia.
  assert (Hbd62 : (0 < bit_depth <= 62)%Z) by lia.
  rewrite ROMM_encoding_curve, RIMM_encoding_curve, ERIMM_encoding_curve
    by assumption.
  cbv zeta.
  assert (Hround : forall c, 0 <= c <= 1 ->
            0 <= value (as_int (np_round (IZR (2 ^ bit_depth - 1) * c)))
            <= IZR (2 ^ bit_depth - 1)).
  { intros c Hc. rewrite code_value_as_int by assumption.
    pose proof (code_value_range c bit_depth Hbd Hc) as [Hlo Hhi].
    unfold value. split; [ apply (IZR_le 0) | apply IZR_le ]; assumption. }
  pose proof (ROMM_curve_range X) as HROMM.
  pose proof (RIMM_curve_range X E_clip HEc) as HRIMM.
  pose proof (ERIMM_curve_range E_min E_clip' X' HEm ltac:(lra)) as HERIMM.
  unfold top.
  destruct out_int; (split; [ | split ]); intros HX.
  - rewrite Rmult_comm. apply Hround. tauto.
  - replace (IZR (2 ^ bit_depth - 1) / RIMM_V_clip E_clip * RIMM_curve X)
      with (IZR (2 ^ bit_depth - 1) * (RIMM_curve X / RIMM_V_clip E_clip))
      by (unfold Rdiv; ring).
    apply Hround. tauto.
  - apply Hround. tauto.
  - unfold value. tauto.
  - unfold value. tauto.
  - unfold value. tauto.
Qed.

Lemma encoding_range_witness :
  0 <= value (cctf_encoding_ROMMRGB 0.18 8 true) <= IZR (2 ^ 8 - 1) /\
  0 <= value (cctf_encoding_RIMMRGB 0.18 8 true RIMM_E_clip)
  <= IZR (2 ^ 8 - 1) /\
  0 <= value (log_encoding_ERIMMRGB 0.18 8 true ERIMM_E_min ERIMM_E_clip)
  <= IZR (2 ^ 8 - 1).
Proof.
  assert (H1 : (1 <= 8 <= 32)%Z) by lia.
  assert (H2 : 0.018 <= RIMM_E_clip) by (unfold RIMM_E_clip; lra).
  assert (H3 : 0 < ERIMM_E_min) by (unfold ERIMM_E_min; lra).
  assert (H4 : exp 1 * ERIMM_E_min < ERIMM_E_clip).
  { pose proof exp_1_bounds. unfold ERIMM_E_min, ERIMM_E_clip. lra. }
  assert (H5 : 0 <= 0.18 <= 1) by lra.
  assert (H6 : 0 <= 0.18 <= RIMM_E_clip) by (unfold RIMM_E_clip; lra).
  assert (H7 : 0 <= 0.18 <= ERIMM_E_clip) by (unfold ERIMM_E_clip; lra).
  pose proof (encoding_range 0.18 0.18 8 true RIMM_E_clip
                ERIMM_E_min ERIMM_E_clip H1 H2 H3 H4) as (Ha & Hb & Hc).
  exact (conj (Ha H5) (conj (Hb H6) (Hc H7))).
Defined.

(** *** The breakpoints *)

(** X8: the two segments of ROMM RGB meet at the breakpoint [2 ** -9], and
    the two segments of ERIMM at [E_t = e * E_min]: the formula of the
    segment the code does not select there gives the same value, so both
    curves are continuous.  ROMM: the linear formula [16 * X] holds on
    [X <= 2 ** -9], end point included, where the code takes the power
    segment.  ERIMM: the logarithmic formula holds on [X >= E_t], end
    point included, where the code takes the linear segment. *)
Theorem segments_meet_at_breakpoint
  (X : R) (bit_depth : Z) (E_min E_clip : R) :
  (0 < bit_depth)%Z -> 0 < E_min < E_clip ->
  (X <= / 512 ->
   value (cctf_encoding_ROMMRGB X bit_depth false) = 16 * X) /\
  (exp 1 * E_min <= X ->
   value (log_encoding_ERIMMRGB X bit_depth false E_min E_clip)
   = (ln X - ln E_min) / (ln E_clip - ln E_min)).
Proof.
  intros Hbd HE.
  rewrite ROMM_encoding_curve, ERIMM_encoding_curve by assumption.
  cbv zeta. unfold value. split; intros HX.
  - unfold ROMM_curve.
    destruct (Rlt_dec X (/ 512)); [ reflexivity | ].
    replace X with (/ 512) by lra.
    rewrite ROMM_breakpoint_value. lra.
  - pose proof (ERIMM_range_pos _ _ HE) as HL.
    pose proof (ERIMM_breakpoint E_min (proj1 HE)) as Hb.
    assert (HEt : 0 < exp 1 * E_min).
    { apply Rmult_lt_0_compat; [ apply exp_pos | lra ]. }
    unfold ERIMM_curve. cbv zeta.
    destruct (Rlt_dec X 0); [ lra | ].
    destruct (Rle_dec X (exp 1 * E_min)); [ | reflexivity ].
    replace X with (exp 1 * E_min) by lra.
    set (E_t := exp 1 * E_min) in *.
    field. lra.
Qed.

Lemma segments_meet_at_breakpoint_witness :
  value (cctf_encoding_ROMMRGB (/ 512) 8 false) = 16 * / 512.
Proof.
  assert (H1 : (0 < 8)%Z) by lia.
  assert (H2 : 0 < ERIMM_E_min < ERIMM_E_clip)
    by (unfold ERIMM_E_min, ERIMM_E_clip; lra).
  assert (H3 : / 512 <= / 512) by lra.
  exact (proj1 (segments_meet_at_breakpoint (/ 512) 8
                  ERIMM_E_min ERIMM_E_clip H1 H2) H3).
Defined.

(** X9: the two segments of RIMM RGB do not meet.  Below the knee
    [0.018] the encoding stays under [0.081 / V_clip]; at the knee the
    power segment starts above [0.0812 / V_clip]: the curve jumps by more
    than [0.0002 / V_clip]. *)
Theorem RIMM_jumps_at_knee (X : R) (bit_depth : Z) (E_clip : R) :
  (0 < bit_depth)%Z -> 0 < RIMM_V_clip E_clip -> X < 0.018 ->
  RIMM_V_clip E_clip
  * value (cctf_encoding_RIMMRGB X bit_depth false E_clip) < 0.081 /\
  0.0812 < RIMM_V_clip E_clip
           * value (cctf_encoding_RIMMRGB 0.018 bit_depth false E_clip).
Proof.
  intros Hbd HV HX.
  rewrite !RIMM_encoding_curve by assumption. cbv zeta. unfold value.
  set (V := RIMM_V_clip E_clip) in *.
  replace (V * (RIMM_curve X / V)) with (RIMM_curve X) by (field; lra).
  replace (V * (RIMM_curve 0.018 / V)) with (RIMM_curve 0.018)
    by (field; lra).
  rewrite RIMM_knee. pose proof pow_knee_RIMM as Hk.
  split; [ | lra ].
  unfold RIMM_curve.
  destruct (Rlt_dec X 0); [ lra | ].
  destruct (Rlt_dec X 0.018); lra.
Qed.

Lemma RIMM_jumps_at_knee_witness :
  RIMM_V_clip RIMM_E_clip
  * value (cctf_encoding_RIMMRGB 0.0179 8 false RIMM_E_clip) < 0.081 /\
  0.0812 < RIMM_V_clip RIMM_E_clip
           * value (cctf_encoding_RIMMRGB 0.018 8 false RIMM_E_clip).
Proof.
  assert (H1 : (0 < 8)%Z) by lia.
  assert (H2 : 0 < RIMM_V_clip RIMM_E_clip)
    by (pose proof RIMM_V_clip_default; lra).
  assert (H3 : 0.0179 < 0.018) by lra.
  exact (RIMM_jumps_at_knee 0.0179 8 RIMM_E_clip H1 H2 H3).
Defined.

(** *** Monotonicity of the decoders *)

(** X10: the decoders of ROMM RGB and ERIMM are non-decreasing, over the
    whole real line. *)
Theorem decoding_monotone
  (X_p1 X_p2 : R) (bit_depth : Z) (E_min E_clip : R) :
  X_p1 <= X_p2 -> (0 < bit_depth)%Z -> 0 < E_min < E_clip ->
  cctf_decoding_ROMMRGB X_p1 bit_depth false
  <= cctf_decoding_ROMMRGB X_p2 bit_depth false /\
  log_decoding_ERIMMRGB X_p1 bit_depth false E_min E_clip
  <= log_decoding_ERIMMRGB X_p2 bit_depth false E_min E_clip.
Proof.
  intros HX Hbd HE.
  rewrite !ROMM_decoding_curve, !ERIMM_decoding_curve by tauto.
  cbv zeta. split.
  - assert (H32 : Rpower (/ 32) 1.8 = / 512).
    { rewrite <- ROMM_breakpoint_value. apply Rpower_inverse; lra. }
    assert (Hup : forall Y, / 32 <= Y -> / 512 <= spow Y 1.8).
    { intros Y HY. rewrite spow_pos by lra. rewrite <- H32.
      apply Rpower_le; lra. }
    destruct (Rlt_dec X_p1 (/ 32)), (Rlt_dec X_p2 (/ 32)); try lra.
    + pose proof (Hup X_p2). lra.
    + rewrite !spow_pos by lra. apply Rpower_le; lra.
  - pose proof (ERIMM_range_pos _ _ HE) as HL.
    assert (HEt : 0 < exp 1 * E_min).
    { apply Rmult_lt_0_compat; [ apply exp_pos | lra ]. }
    set (E_t := exp 1 * E_min) in *.
    set (L := ln E_clip - ln E_min) in *.
    assert (Hlin : forall Y, Y <= 1 / L -> L * (Y * E_t) <= E_t).
    { intros Y HY.
      apply Rmult_le_compat_l with (r := L) in HY; [ | lra ].
      replace (L * (1 / L)) with 1 in HY by (field; lra).
      replace (L * (Y * E_t)) with (L * Y * E_t) by ring.
      replace E_t with (1 * E_t) at 2 by ring.
      apply Rmult_le_compat_r; lra. }
    assert (Hexp : forall Y, 1 / L < Y -> E_t < exp (Y * L + ln E_min)).
    { intros Y HY.
      apply Rmult_lt_compat_r with (r := L) in HY; [ | lra ].
      replace (1 / L * L) with 1 in HY by (field; lra).
      rewrite <- (exp_ln E_t) at 1 by assumption.
      apply exp_increasing. unfold E_t.
      rewrite ln_mult, ln_exp by (auto using exp_pos; lra). lra. }
    destruct (Rle_dec X_p1 (1 / L)), (Rle_dec X_p2 (1 / L)); try lra.
    + apply Rmult_le_compat_l; [ lra | ].
      apply Rmult_le_compat_r; lra.
    + pose proof (Hlin X_p1). pose proof (Hexp X_p2). lra.
    + destruct (Req_dec X_p1 X_p2) as [-> | Hne]; [ lra | ].
      left. apply exp_increasing.
      assert (X_p1 * L < X_p2 * L) by (apply Rmult_lt_compat_r; lra).
      lra.
Qed.

Lemma decoding_monotone_witness :
  cctf_decoding_ROMMRGB 0.2 8 false <= cctf_decoding_ROMMRGB 0.4 8 false /\
  log_decoding_ERIMMRGB 0.2 8 false ERIMM_E_min ERIMM_E_clip
  <= log_decoding_ERIMMRGB 0.4 8 false ERIMM_E_min ERIMM_E_clip.
Proof.
  assert (H1 : 0.2 <= 0.4) by lra.
  assert (H2 : (0 < 8)%Z) by lia.
  assert (H3 : 0 < ERIMM_E_min < ERIMM_E_clip)
    by (unfold ERIMM_E_min, ERIMM_E_clip; lra).
  exact (decoding_monotone 0.2 0.4 8 ERIMM_E_min ERIMM_E_clip H1 H2 H3).
Defined.

(** X11: the decoder of RIMM RGB is not monotone.  It switches from the
    linear to the power segment at the encoding of [0.018], which lies
    above the end [0.081 / V_clip] of the encoder's linear segment: a
    value between the two decodes to more than [0.018], although it is
    below the encoding of [0.018], which decodes to [0.018]. *)
Theorem RIMM_decoding_not_monotone
  (X_p : R) (bit_depth : Z) (E_clip : R) :
  (0 < bit_depth)%Z -> 0 < RIMM_V_clip E_clip ->
  0.081 < RIMM_V_clip E_clip * X_p < 1.099 * Rpower 0.018 0.45 - 0.099 ->
  let knee := value (cctf_encoding_RIMMRGB 0.018 bit_depth false E_clip) in
  X_p < knee /\
  cctf_decoding_RIMMRGB knee bit_depth false E_clip = 0.018 /\
  0.018 < cctf_decoding_RIMMRGB X_p bit_depth false E_clip.
Proof.
  intros Hbd HV [Hlo Hhi] knee. unfold knee.
  rewrite RIMM_encoding_curve by assumption. cbv zeta. unfold value.
  rewrite RIMM_round_trip by (try assumption; lra).
  rewrite RIMM_decoding_curve by assumption. cbv zeta.
  set (V := RIMM_V_clip E_clip) in *.
  rewrite <- RIMM_knee in Hhi.
  assert (Hlt : X_p < RIMM_curve 0.018 / V).
  { apply Rlt_div_r; [ assumption | ]. rewrite Rmult_comm. assumption. }
  repeat split; try assumption.
  destruct (Rlt_dec X_p (RIMM_curve 0.018 / V)); lra.
Qed.

Lemma RIMM_decoding_not_monotone_witness :
  let knee := value (cctf_encoding_RIMMRGB 0.018 8 false RIMM_E_clip) in
  0.0811 / RIMM_V_clip RIMM_E_clip < knee /\
  cctf_decoding_RIMMRGB knee 8 false RIMM_E_clip = 0.018 /\
  0.018 < cctf_decoding_RIMMRGB (0.0811 / RIMM_V_clip RIMM_E_clip)
            8 false RIMM_E_clip.
Proof.
  pose proof RIMM_V_clip_default as HV. pose proof pow_knee_RIMM as Hk.
  assert (H1 : (0 < 8)%Z) by lia.
  assert (H2 : 0 < RIMM_V_clip RIMM_E_clip) by lra.
  assert (H3 : 0.081 < RIMM_V_clip RIMM_E_clip
                       * (0.0811 / RIMM_V_clip RIMM_E_clip)
               < 1.099 * Rpower 0.018 0.45 - 0.099).
  { replace (RIMM_V_clip RIMM_E_clip * (0.0811 / RIMM_V_clip RIMM_E_clip))
      with 0.0811 by (field; lra).
    lra. }
  exact (RIMM_decoding_not_monotone _ 8 RIMM_E_clip H1 H2 H3).
Defined.

(** *** Monotonicity of the encodings *)





(** *** Decoding a code value *)

(** The mean value theorem for a power [p >= 1]: on [[a, b]] below [M] the
    power grows by at most [p * M ** (p - 1)] times the step. *)
Lemma Rpower_lipschitz (p a b M : R) :
  1 <= p -> 0 < a -> a <= b -> b <= M ->
  0 <= Rpower b p - Rpower a p <= p * Rpower M (p - 1) * (b - a).
Proof.
  intros Hp Ha Hab HbM.
  destruct (Req_dec a b) as [-> | Hne].
  - replace (b - b) with 0 by ring. rewrite Rmult_0_r.
    replace (Rpower b p - Rpower b p) with 0 by ring. lra.
  - assert (Hlt : a < b) by lra.
    destruct (MVT_cor2 (fun x => Rpower x p)
                (fun x => p * Rpower x (p - 1)) a b Hlt)
      as (c & Hc & Hac).
    { intros c Hc. apply derivable_pt_lim_power. lra. }
    cbv beta in Hc. rewrite Hc.
    pose proof (Rpower_pos c (p - 1)) as Hpos.
    assert (Hle : Rpower c (p - 1) <= Rpower M (p - 1))
      by (apply Rle_Rpower_l; lra).
    split.
    + apply Rmult_le_pos; [ | lra ].
      apply Rmult_le_pos; lra.
    + apply Rmult_le_compat_r; [ lra | ].
      apply Rmult_le_compat_l; lra.
Qed.

(** The code value of a number [y] of [[0, 1]], as the decoder receives
    it: [c * I_max] for a [c] of [[0, 1]] within [1 / (2 * I_max)] of
    [y]. *)
Lemma code_value_error (y : R) (bit_depth : Z) :
  (0 < bit_depth <= 62)%Z -> 0 <= y <= 1 ->
  exists c : R,
    value (as_int (np_round (IZR (2 ^ bit_depth - 1) * y)))
    = c * IZR (2 ^ bit_depth - 1) /\
    0 <= c <= 1 /\
    - (1 / (2 * IZR (2 ^ bit_depth - 1))) <= c - y
    <= 1 / (2 * IZR (2 ^ bit_depth - 1)).
Proof.
  intros Hbd Hy.
  assert (Hbd' : (0 < bit_depth)%Z) by lia.
  pose proof (I_max_ge_1 bit_depth Hbd') as HI.
  rewrite code_value_as_int by assumption. unfold value.
  pose proof (code_value_range y bit_depth Hbd' Hy) as [Hlo Hhi].
  pose proof (np_round_spec (IZR (2 ^ bit_depth - 1) * y)) as Hr.
  apply IZR_le in Hlo, Hhi.
  set (I_max := IZR (2 ^ bit_depth - 1)) in *.
  set (z := IZR (np_round (I_max * y))) in *.
  assert (Hinv : 0 < / I_max) by (apply Rinv_0_lt_compat; lra).
  exists (z / I_max). split; [ field; lra | ].
  split.
  - split.
    + apply Rmult_le_pos; lra.
    + replace 1 with (I_max / I_max) by (field; lra).
      apply Rdiv_le_mono; lra.
  - replace (z / I_max - y) with ((z - I_max * y) * / I_max)
      by (field; lra).
    replace (1 / (2 * I_max)) with (1 / 2 * / I_max) by (field; lra).
    split.
    + replace (- (1 / 2 * / I_max)) with (- (1 / 2) * / I_max) by ring.
      apply Rmult_le_compat_r; lra.
    + apply Rmult_le_compat_r; lra.
Qed.

(** On [[0, 1]] the decoder of ROMM RGB grows by at most [1.8] times the
    step. *)
Lemma ROMM_decoding_lipschitz (a b : R) (bit_depth : Z) :
  (0 < bit_depth)%Z -> a <= b -> b <= 1 ->
  0 <= cctf_decoding_ROMMRGB b bit_depth false
       - cctf_decoding_ROMMRGB a bit_depth false
  <= 1.8 * (b - a).
Proof.
  intros Hbd Hab Hb1. rewrite !ROMM_decoding_curve by assumption.
  assert (H32 : Rpower (/ 32) 1.8 = / 512).
  { rewrite <- ROMM_breakpoint_value. apply Rpower_inverse; lra. }
  assert (Hlip : forall x y, / 32 <= x -> x <= y -> y <= 1 ->
            0 <= Rpower y 1.8 - Rpower x 1.8 <= 1.8 * (y - x)).
  { intros x y Hx Hxy Hy.
    pose proof (Rpower_lipschitz 1.8 x y 1 ltac:(lra) ltac:(lra) Hxy Hy)
      as H.
    rewrite Rpower_1_l in H. lra. }
  destruct (Rlt_dec a (/ 32)), (Rlt_dec b (/ 32)); try lra.
  - rewrite spow_pos by lra.
    pose proof (Hlip (/ 32) b ltac:(lra) ltac:(lra) Hb1) as H.
    rewrite H32 in H. lra.
  - rewrite !spow_pos by lra. apply Hlip; lra.
Qed.

Lemma ROMM_integer_round_trip (X : R) (bit_depth : Z) :
  (0 < bit_depth <= 62)%Z -> 0 <= X <= 1 ->
  Rabs (cctf_decoding_ROMMRGB
          (value (cctf_encoding_ROMMRGB X bit_depth true)) bit_depth true
        - X)
  <= 0.9 / IZR (2 ^ bit_depth - 1).
Proof.
  intros Hbd HX.
  assert (Hbd' : (0 < bit_depth)%Z) by lia.
  pose proof (I_max_ge_1 bit_depth Hbd') as HI.
  rewrite ROMM_encoding_curve by assumption. cbv zeta.
  rewrite Rmult_comm.
  pose proof (ROMM_curve_range X HX) as Hy.
  destruct (code_value_error (ROMM_curve X) bit_depth Hbd Hy)
    as (c & -> & Hc & Herr).
  pose proof (decoding_in_int c bit_depth 0 0 0) as Hint.
  cbv zeta in Hint. destruct Hint as (-> & _ & _).
  pose proof (ROMM_round_trip X bit_depth Hbd') as Hrt.
  set (I_max := IZR (2 ^ bit_depth - 1)) in *.
  set (y := ROMM_curve X) in *.
  set (e := 1 / (2 * I_max)) in *.
  assert (He : 0.9 / I_max = 1.8 * e). { unfold e, Rdiv. rewrite Rinv_mult. lra. }
  rewrite He. apply Rabs_le.
  destruct (Rle_dec c y) as [Hle | Hgt].
  - pose proof (ROMM_decoding_lipschitz c y bit_depth Hbd' Hle
                  ltac:(lra)) as HL.
    rewrite Hrt in HL. lra.
  - pose proof (ROMM_decoding_lipschitz y c bit_depth Hbd' ltac:(lra)
                  ltac:(lra)) as HL.
    rewrite Hrt in HL. lra.
Qed.

(** Above the knee the decoder of RIMM RGB, as a function of the curve
    value [m = V_clip * X_p], grows by at most
    [E_clip ** 0.55 / (0.45 * 1.099)] times the step. *)
Lemma RIMM_upper_segment_lipschitz (E_clip m1 m2 : R) :
  1 <= E_clip -> 0.081 <= m1 -> m1 <= m2 -> m2 <= RIMM_V_clip E_clip ->
  0 <= Rpower ((m2 + 0.099) / 1.099) (1 / 0.45)
       - Rpower ((m1 + 0.099) / 1.099) (1 / 0.45)
  <= Rpower E_clip 0.55 / (0.45 * 1.099) * (m2 - m1).
Proof.
  intros HE H1 H12 H2.
  assert (HV : RIMM_V_clip E_clip = 1.099 * Rpower E_clip 0.45 - 0.099).
  { unfold RIMM_V_clip. rewrite spow_pos by lra. reflexivity. }
  assert (HM : Rpower (Rpower E_clip 0.45) (1 / 0.45 - 1)
               = Rpower E_clip 0.55).
  { rewrite Rpower_mult. f_equal. lra. }
  set (M := Rpower E_clip 0.45) in *.
  set (P := Rpower E_clip 0.55) in *.
  assert (Hw1 : 0 < (m1 + 0.099) / 1.099)
    by (apply Rdiv_lt_0_compat; lra).
  assert (Hw12 : (m1 + 0.099) / 1.099 <= (m2 + 0.099) / 1.099)
    by (apply Rdiv_le_mono; lra).
  assert (Hw2 : (m2 + 0.099) / 1.099 <= M).
  { apply Rmult_le_reg_r with 1.099; [ lra | ].
    replace ((m2 + 0.099) / 1.099 * 1.099) with (m2 + 0.099)
      by (field; lra).
    lra. }
  pose proof (Rpower_lipschitz (1 / 0.45) _ _ M ltac:(lra) Hw1 Hw12 Hw2)
    as H.
  rewrite HM in H.
  replace (P / (0.45 * 1.099) * (m2 - m1))
    with (1 / 0.45 * P
          * ((m2 + 0.099) / 1.099 - (m1 + 0.099) / 1.099))
    by (field; lra).
  exact H.
Qed.

(** The code value is within [V_clip / (2 * I_max)] of the curve, and the
    decoder takes the linear segment below the value [k] of the curve at the
    knee, the power segment from it: a code value on the same side of the
    knee as the curve is off by the slope of its segment, one on the other
    side by at most the width [(k - 0.081) / 4.5] of the jump more. *)
Lemma RIMM_integer_round_trip (X : R) (bit_depth : Z) (E_clip : R) :
  (0 < bit_depth <= 62)%Z -> 0 <= X <= 1 -> 1 <= E_clip ->
  Rabs (cctf_decoding_RIMMRGB
          (value (cctf_encoding_RIMMRGB X bit_depth true E_clip))
          bit_depth true E_clip - X)
  <= Rpower E_clip 0.55 * RIMM_V_clip E_clip
     / (0.9891 * IZR (2 ^ bit_depth - 1)) + 0.00006.
Proof.
  intros Hbd HX HE.
  assert (Hbd' : (0 < bit_depth)%Z) by lia.
  pose proof (I_max_ge_1 bit_depth Hbd') as HI.
  destruct (RIMM_V_clip_curve E_clip ltac:(lra)) as [HVc HVpos].
  rewrite RIMM_encoding_curve by assumption. cbv zeta.
  replace (IZR (2 ^ bit_depth - 1) / RIMM_V_clip E_clip * RIMM_curve X)
    with (IZR (2 ^ bit_depth - 1) * (RIMM_curve X / RIMM_V_clip E_clip))
    by (unfold Rdiv; ring).
  pose proof (RIMM_curve_range X E_clip ltac:(lra) ltac:(lra)) as Hy.
  destruct (code_value_error _ bit_depth Hbd Hy) as (c & -> & Hc & Herr).
  pose proof (decoding_in_int c bit_depth E_clip 0 0) as Hint.
  cbv zeta in Hint. destruct Hint as (_ & -> & _).
  pose proof (RIMM_round_trip X bit_depth E_clip Hbd' ltac:(lra)
                ltac:(lra)) as Hrt.
  rewrite RIMM_decoding_curve in Hrt |- * by assumption.
  cbv zeta in Hrt |- *.
  pose proof RIMM_knee as Hk. pose proof pow_knee_RIMM as Hknee.
  set (I_max := IZR (2 ^ bit_depth - 1)) in *.
  set (V := RIMM_V_clip E_clip) in *.
  set (k := RIMM_curve 0.018) in *.
  set (e := 1 / (2 * I_max)) in *.
  assert (He : 0 < e).
  { unfold e. apply Rdiv_lt_0_compat; lra. }
  (* in units of the curve *)
  set (u := RIMM_curve X) in *.
  assert (Hu : V * (u / V) = u) by (field; lra).
  rewrite Hu in Hrt.
  assert (Hcmp : forall x, x < k / V <-> V * x < k).
  { intros x. split; intros H.
    - apply Rmult_lt_compat_l with (r := V) in H; [ | lra ].
      replace (V * (k / V)) with k in H by (field; lra). assumption.
    - apply Rmult_lt_reg_l with V; [ lra | ].
      replace (V * (k / V)) with k by (field; lra). assumption. }
  set (m := V * c) in *.
  assert (Hm : 0 <= m <= V).
  { unfold m. split; [ apply Rmult_le_pos; lra | ].
    replace V with (V * 1) at 2 by ring.
    apply Rmult_le_compat_l; lra. }
  set (d := V * e).
  assert (Hmu : - d <= m - u <= d).
  { unfold d, m. rewrite <- Hu.
    replace (V * c - V * (u / V)) with (V * (c - u / V)) by ring.
    replace (- (V * e)) with (V * - e) by ring.
    split; apply Rmult_le_compat_l; lra. }
  assert (Hu1 : u <= V).
  { destruct Hy as [_ Hy1].
    apply Rmult_le_compat_l with (r := V) in Hy1; [ | lra ].
    rewrite Hu in Hy1. lra. }
  (* the slope of the power segment *)
  assert (HP : 1 <= Rpower E_clip 0.55).
  { rewrite <- (Rpower_1_l 0.55). apply Rle_Rpower_l; lra. }
  set (P := Rpower E_clip 0.55) in *.
  set (L2 := P / (0.45 * 1.099)).
  assert (HL2 : 2 <= L2).
  { unfold L2. apply Rmult_le_reg_r with (0.45 * 1.099); [ lra | ].
    replace (P / (0.45 * 1.099) * (0.45 * 1.099)) with P by (field; lra).
    lra. }
  replace (P * V / (0.9891 * I_max)) with (L2 * d).
  2:{ unfold L2, d, e.
      replace 0.9891 with (9891 / 10000) by lra.
      replace 0.45 with (45 / 100) by lra.
      replace 1.099 with (1099 / 1000) by lra.
      field. lra. }
  pose proof (fun m1 m2 => RIMM_upper_segment_lipschitz E_clip m1 m2 HE)
    as Hlip.
  fold V P L2 in Hlip.
  set (g := fun m => Rpower ((m + 0.099) / 1.099) (1 / 0.45)) in *.
  assert (Hgk : g k = 0.018).
  { unfold g. rewrite Hk.
    replace ((1.099 * Rpower 0.018 0.45 - 0.099 + 0.099) / 1.099)
      with (Rpower 0.018 0.45) by (field; lra).
    apply Rpower_inverse; lra. }
  assert (Hk081 : 0.081 < k) by lra.
  assert (Hjump : (k - 0.081) / 4.5 < 0.00006) by lra.
  assert (Hd : 0 < d) by (unfold d; apply Rmult_lt_0_compat; lra).
  apply Rabs_le.
  (* the segment the input is on *)
  assert (HXu : (X < 0.018 /\ u = 4.5 * X)
                \/ (0.018 <= X /\ k <= u /\ g u = X)).
  { unfold u, RIMM_curve.
    destruct (Rlt_dec X 0); [ lra | ].
    destruct (Rlt_dec X 0.018) as [Hlt | Hge].
    - left. split; [ assumption | reflexivity ].
    - right. split; [ lra | ].
      assert (Hp : Rpower 0.018 0.45 <= Rpower X 0.45)
        by (apply Rpower_le; lra).
      split; [ lra | ].
      unfold g.
      replace ((1.099 * Rpower X 0.45 - 0.099 + 0.099) / 1.099)
        with (Rpower X 0.45) by (field; lra).
      apply Rpower_inverse; lra. }
  destruct (Rlt_dec c (k / V)) as [Hlt | Hge].
  - apply Hcmp in Hlt. fold m in Hlt |- *.
    destruct HXu as [[HX18 HuX] | (HX18 & Hku & Hgu)].
    + (* both on the linear segment *)
      assert (L2 * d >= d / 4.5) by nra.
      lra.
    + (* the code value fell below the knee *)
      pose proof (Hlip k u ltac:(lra) Hku Hu1) as Hl.
      fold (g u) (g k) in Hl. rewrite Hgk, Hgu in Hl.
      assert (L2 * (u - k) <= L2 * d) by (apply Rmult_le_compat_l; lra).
      destruct (Rle_dec m 0.081) as [Hm81 | Hm81].
      * assert (L2 * (0.081 - m) >= (0.081 - m) / 4.5) by nra.
        assert (L2 * (u - k) + L2 * (0.081 - m) <= L2 * d) by nra.
        lra.
      * lra.
  - assert (Hkm : k <= m).
    { apply Rnot_lt_le. intros H. apply Hge. apply Hcmp. exact H. }
    fold m. rewrite spow_pos by (apply Rdiv_lt_0_compat; lra).
    fold (g m).
    destruct HXu as [[HX18 HuX] | (HX18 & Hku & Hgu)].
    + (* the code value rose above the knee *)
      pose proof (Hlip k m ltac:(lra) Hkm ltac:(lra)) as Hl.
      fold (g m) (g k) in Hl. rewrite Hgk in Hl.
      assert (L2 * (0.081 - u) >= (0.081 - u) / 4.5) by nra.
      assert (L2 * (m - k) + L2 * (0.081 - u) <= L2 * d) by nra.
      lra.
    + (* both on the power segment *)
      destruct (Rle_dec m u) as [Hle | Hgt].
      * pose proof (Hlip m u ltac:(lra) Hle Hu1) as Hl.
        fold (g m) (g u) in Hl. rewrite Hgu in Hl.
        assert (L2 * (u - m) <= L2 * d)
          by (apply Rmult_le_compat_l; lra).
        lra.
      * pose proof (Hlip u m ltac:(lra) ltac:(lra) ltac:(lra)) as Hl.
        fold (g m) (g u) in Hl. rewrite Hgu in Hl.
        assert (L2 * (m - u) <= L2 * d)
          by (apply Rmult_le_compat_l; lra).
        lra.
Qed.

(** The decoder of ERIMM over a step [b - a >= 0] from a value at most
    [1], or to one: it grows by at most [exp (L * (b - a)) - 1]. *)
Lemma ERIMM_decoding_step (a b : R) (bit_depth : Z) (E_min E_clip : R) :
  (0 < bit_depth)%Z -> 0 < E_min < E_clip -> exp 1 * E_min <= 1 ->
  a <= b ->
  log_decoding_ERIMMRGB a bit_depth false E_min E_clip <= 1
  \/ log_decoding_ERIMMRGB b bit_depth false E_min E_clip <= 1 ->
  0 <= log_decoding_ERIMMRGB b bit_depth false E_min E_clip
       - log_decoding_ERIMMRGB a bit_depth false E_min E_clip
  <= exp ((ln E_clip - ln E_min) * (b - a)) - 1.
Proof.
  intros Hbd HE HEt1 Hab.
  rewrite !ERIMM_decoding_curve by tauto. cbv zeta.
  pose proof (ERIMM_range_pos _ _ HE) as HL.
  assert (HEt : 0 < exp 1 * E_min).
  { apply Rmult_lt_0_compat; [ apply exp_pos | lra ]. }
  assert (Hexp1 : exp (1 + ln E_min) = exp 1 * E_min).
  { rewrite exp_plus, exp_ln by lra. reflexivity. }
  set (E_t := exp 1 * E_min) in *.
  set (L := ln E_clip - ln E_min) in *.
  assert (HaL : a <= 1 / L <-> a * L <= 1).
  { split; intros H.
    - apply Rmult_le_compat_r with (r := L) in H; [ | lra ].
      replace (1 / L * L) with 1 in H by (field; lra). assumption.
    - apply Rmult_le_reg_r with L; [ lra | ].
      replace (1 / L * L) with 1 by (field; lra). assumption. }
  assert (HbL : b <= 1 / L <-> b * L <= 1).
  { split; intros H.
    - apply Rmult_le_compat_r with (r := L) in H; [ | lra ].
      replace (1 / L * L) with 1 in H by (field; lra). assumption.
    - apply Rmult_le_reg_r with L; [ lra | ].
      replace (1 / L * L) with 1 by (field; lra). assumption. }
  assert (HabL : a * L <= b * L) by (apply Rmult_le_compat_r; lra).
  replace (L * (b - a)) with (b * L - a * L) by ring.
  set (p := a * L) in *. set (q := b * L) in *.
  destruct (Rle_dec a (1 / L)) as [Ha | Ha],
           (Rle_dec b (1 / L)) as [Hb | Hb]; intros Hone.
  - (* both on the linear segment *)
    apply HaL in Ha. apply HbL in Hb.
    replace (L * (b * E_t) - L * (a * E_t)) with (E_t * (q - p))
      by (unfold p, q; ring).
    pose proof (exp_ineq1_le (q - p)) as Hexp.
    split; [ apply Rmult_le_pos; lra | ].
    assert (E_t * (q - p) <= 1 * (q - p))
      by (apply Rmult_le_compat_r; lra).
    lra.
  - (* across the breakpoint *)
    apply HaL in Ha.
    assert (Hq : 1 < q).
    { apply Rnot_le_lt. intros H. apply Hb. apply HbL. exact H. }
    replace (q + ln E_min) with ((q - 1) + (1 + ln E_min)) by ring.
    rewrite exp_plus, Hexp1.
    replace (L * (a * E_t)) with (E_t * (1 - (1 - p)))
      by (unfold p; ring).
    replace (q - p) with ((q - 1) + (1 - p)) by ring.
    rewrite exp_plus.
    pose proof (exp_ineq1_le (q - 1)) as HA.
    pose proof (exp_ineq1_le (1 - p)) as HB.
    set (A := exp (q - 1)) in *. set (B := exp (1 - p)) in *.
    set (s := 1 - p) in *.
    assert (Hs : 0 <= s) by (unfold s; lra).
    assert (HA1 : 1 <= A) by lra.
    assert (H1 : A * (1 + s) <= A * B)
      by (apply Rmult_le_compat_l; lra).
    assert (H2 : 1 * s <= A * s) by (apply Rmult_le_compat_r; lra).
    assert (H3 : 0 <= E_t * (A - 1 + s)) by (apply Rmult_le_pos; lra).
    assert (H4 : E_t * (A - 1 + s) <= 1 * (A - 1 + s))
      by (apply Rmult_le_compat_r; lra).
    split; lra.
  - exfalso. apply Ha. apply HaL. apply HbL in Hb. lra.
  - (* both on the logarithmic segment *)
    replace (q + ln E_min) with ((p + ln E_min) + (q - p)) by ring.
    rewrite exp_plus.
    pose proof (exp_pos (p + ln E_min)) as HD.
    pose proof (exp_ineq1_le (q - p)) as HT.
    set (D := exp (p + ln E_min)) in *.
    set (T := exp (q - p)) in *.
    assert (HT1 : 1 <= T) by lra.
    assert (HD1 : D <= 1).
    { destruct Hone as [H | H]; [ exact H | ].
      assert (HDT : exp (q + ln E_min) = D * T).
      { unfold D, T. rewrite <- exp_plus. f_equal. ring. }
      assert (D * 1 <= D * T) by (apply Rmult_le_compat_l; lra).
      lra. }
    assert (H1 : 0 <= D * (T - 1)) by (apply Rmult_le_pos; lra).
    assert (H2 : D * (T - 1) <= 1 * (T - 1))
      by (apply Rmult_le_compat_r; lra).
    split; lra.
Qed.

Lemma exp_le (x y : R) : x <= y -> exp x <= exp y.
Proof.
  intros [H | ->]; [ left; apply exp_increasing; assumption | apply Rle_refl ].
Qed.

Lemma ERIMM_integer_round_trip
  (X : R) (bit_depth : Z) (E_min E_clip : R) :
  (0 < bit_depth <= 62)%Z -> 0 <= X <= 1 ->
  0 < E_min -> exp 1 * E_min <= 1 -> 1 <= E_clip ->
  Rabs (log_decoding_ERIMMRGB
          (value (log_encoding_ERIMMRGB X bit_depth true E_min E_clip))
          bit_depth true E_min E_clip - X)
  <= exp ((ln E_clip - ln E_min) / (2 * IZR (2 ^ bit_depth - 1))) - 1.
Proof.
  intros Hbd HX HEm HEt1 HEc.
  assert (Hbd' : (0 < bit_depth)%Z) by lia.
  pose proof (I_max_ge_1 bit_depth Hbd') as HI.
  pose proof exp_1_bounds as He1.
  assert (HE : 0 < E_min < E_clip) by nra.
  pose proof (ERIMM_range_pos _ _ HE) as HL.
  rewrite ERIMM_encoding_curve by assumption. cbv zeta.
  pose proof (ERIMM_curve_range E_min E_clip X HEm ltac:(lra) ltac:(lra))
    as Hy.
  destruct (code_value_error _ bit_depth Hbd Hy) as (c & -> & Hc & Herr).
  pose proof (decoding_in_int c bit_depth 0 E_min E_clip) as Hint.
  cbv zeta in Hint. destruct Hint as (_ & _ & ->).
  pose proof (ERIMM_round_trip X bit_depth E_min E_clip Hbd' HE
                ltac:(lra)) as Hrt.
  set (I_max := IZR (2 ^ bit_depth - 1)) in *.
  set (L := ln E_clip - ln E_min) in *.
  set (y := ERIMM_curve E_min E_clip X) in *.
  set (e := 1 / (2 * I_max)) in *.
  replace (L / (2 * I_max)) with (L * e) by (unfold e; field; lra).
  apply Rabs_le.
  destruct (Rle_dec c y) as [Hle | Hgt].
  - pose proof (ERIMM_decoding_step c y bit_depth E_min E_clip Hbd' HE
                  HEt1 Hle) as Hs.
    fold L in Hs. rewrite Hrt in Hs. specialize (Hs ltac:(right; lra)).
    assert (exp (L * (y - c)) <= exp (L * e))
      by (apply exp_le; apply Rmult_le_compat_l; lra).
    lra.
  - pose proof (ERIMM_decoding_step y c bit_depth E_min E_clip Hbd' HE
                  HEt1 ltac:(lra)) as Hs.
    fold L in Hs. rewrite Hrt in Hs. specialize (Hs ltac:(left; lra)).
    assert (exp (L * (c - y)) <= exp (L * e))
      by (apply exp_le; apply Rmult_le_compat_l; lra).
    lra.
Qed.

(** C2, as the specification states it, fails in integer mode: the code
    value is rounded, and decoding it recovers [X] only up to that
    quantisation.  ROMM RGB at bit depth 8 encodes [0.001] as the code
    value [4], which decodes to [1 / 1020]: off by more than [1e-6]. *)
Lemma ROMM_integer_round_trip_inexact :
  0 <= 0.001 <= 1 /\
  cctf_encoding_ROMMRGB 0.001 8 true = as_int 4 /\
  cctf_decoding_ROMMRGB
    (value (cctf_encoding_ROMMRGB 0.001 8 true)) 8 true = 1 / 1020 /\
  ~ Rabs (cctf_decoding_ROMMRGB
            (value (cctf_encoding_ROMMRGB 0.001 8 true)) 8 true - 0.001)
    <= 0.000001.
Proof.
  assert (He : cctf_encoding_ROMMRGB 0.001 8 true = as_int 4).
  { rewrite ROMM_encoding_curve by lia. cbv zeta.
    change (2 ^ 8 - 1)%Z with 255%Z. f_equal.
    apply np_round_unique. unfold ROMM_curve.
    destruct (Rlt_dec 0.001 (/ 512)); lra. }
  assert (Hd : cctf_decoding_ROMMRGB
                 (value (cctf_encoding_ROMMRGB 0.001 8 true)) 8 true
               = 1 / 1020).
  { rewrite He. change (value (as_int 4)) with 4.
    unfold cctf_decoding_ROMMRGB, to_domain_1, from_range_1, np_where.
    cbn [negb]. rewrite ROMM_E_t. change (2 ^ 8 - 1)%Z with 255%Z.
    case_lt 4 (16 * / 512 * 255); lra. }
  repeat split; try assumption; try lra.
  rewrite Hd. intros H.
  rewrite Rabs_left in H by lra. lra.
Qed.

(** C2, amended: for [X] in [[0, 1]], with the parameters [E_clip >= 1]
    for RIMM and [0 < E_min <= 1 / e], [E_clip >= 1] for ERIMM.  In float
    mode, at a bit depth of 1 to 64 bits, decoding the encoding returns
    [X].  In integer mode, at a bit depth of 1 to 32 bits, decoding the
    integer code value the encoder returns recovers [X] up to the
    quantisation: within [0.9 / I_max] for ROMM RGB, within
    [E_clip ** 0.55 * V_clip / (0.9891 * I_max) + 0.00006] for RIMM RGB
    (the last term is for the jump of the curve at its knee), and within
    [exp (ln (E_clip / E_min) / (2 * I_max)) - 1] for ERIMM. *)
Theorem decoding_inverts_encoding
  (X : R) (bit_depth : Z) (E_clip E_min E_clip' : R) :
  0 <= X <= 1 -> 1 <= E_clip ->
  0 < E_min -> exp 1 * E_min <= 1 -> 1 <= E_clip' ->
  let I_max := IZR (2 ^ bit_depth - 1) in
  ((1 <= bit_depth <= 64)%Z ->
   cctf_decoding_ROMMRGB
     (value (cctf_encoding_ROMMRGB X bit_depth false)) bit_depth false = X /\
   cctf_decoding_RIMMRGB
     (value (cctf_encoding_RIMMRGB X bit_depth false E_clip))
     bit_depth false E_clip = X /\
   log_decoding_ERIMMRGB
     (value (log_encoding_ERIMMRGB X bit_depth false E_min E_clip'))
     bit_depth false E_min E_clip' = X) /\
  ((1 <= bit_depth <= 32)%Z ->
   Rabs (cctf_decoding_ROMMRGB
           (value (cctf_encoding_ROMMRGB X bit_depth true)) bit_depth true
         - X)
   <= 0.9 / I_max /\
   Rabs (cctf_decoding_RIMMRGB
           (value (cctf_encoding_RIMMRGB X bit_depth true E_clip))
           bit_depth true E_clip - X)
   <= Rpower E_clip 0.55 * RIMM_V_clip E_clip / (0.9891 * I_max)
      + 0.00006 /\
   Rabs (log_decoding_ERIMMRGB
           (value (log_encoding_ERIMMRGB X bit_depth true E_min E_clip'))
           bit_depth true E_min E_clip' - X)
   <= exp ((ln E_clip' - ln E_min) / (2 * I_max)) - 1).
Proof.
  intros HX HEc HEm HEt HEc' I_max.
  pose proof exp_1_bounds as He.
  assert (HE : 0 < E_min < E_clip') by nra.
  destruct (RIMM_V_clip_curve E_clip ltac:(lra)) as [_ HV].
  split; intros Hbd.
  - assert (Hbd' : (0 < bit_depth)%Z) by lia.
    rewrite ROMM_encoding_curve, RIMM_encoding_curve, ERIMM_encoding_curve
      by assumption.
    cbv zeta. unfold value. repeat split.
    + apply ROMM_round_trip; assumption.
    + apply RIMM_round_trip; try assumption; lra.
    + apply ERIMM_round_trip; try assumption; lra.
  - assert (Hbd' : (0 < bit_depth <= 62)%Z) by lia.
    unfold I_max. repeat split.
    + apply ROMM_integer_round_trip; assumption.
    + apply RIMM_integer_round_trip; assumption.
    + apply ERIMM_integer_round_trip; assumption.
Qed.

Lemma decoding_inverts_encoding_witness :
  (cctf_decoding_ROMMRGB
     (value (cctf_encoding_ROMMRGB 0.18 8 false)) 8 false = 0.18 /\
   cctf_decoding_RIMMRGB
     (value (cctf_encoding_RIMMRGB 0.18 8 false RIMM_E_clip)) 8 false
     RIMM_E_clip = 0.18 /\
   log_decoding_ERIMMRGB
     (value (log_encoding_ERIMMRGB 0.18 8 false ERIMM_E_min ERIMM_E_clip))
     8 false ERIMM_E_min ERIMM_E_clip = 0.18) /\
  (Rabs (cctf_decoding_ROMMRGB
           (value (cctf_encoding_ROMMRGB 0.18 8 true)) 8 true - 0.18)
   <= 0.9 / IZR (2 ^ 8 - 1) /\
   Rabs (cctf_decoding_RIMMRGB
           (value (cctf_encoding_RIMMRGB 0.18 8 true RIMM_E_clip))
           8 true RIMM_E_clip - 0.18)
   <= Rpower RIMM_E_clip 0.55 * RIMM_V_clip RIMM_E_clip
      / (0.9891 * IZR (2 ^ 8 - 1)) + 0.00006 /\
   Rabs (log_decoding_ERIMMRGB
           (value (log_encoding_ERIMMRGB 0.18 8 true
                     ERIMM_E_min ERIMM_E_clip))
           8 true ERIMM_E_min ERIMM_E_clip - 0.18)
   <= exp ((ln ERIMM_E_clip - ln ERIMM_E_min) / (2 * IZR (2 ^ 8 - 1)))
      - 1).
Proof.
  assert (H1 : 0 <= 0.18 <= 1) by lra.
  assert (H2 : 1 <= RIMM_E_clip) by (unfold RIMM_E_clip; lra).
  assert (H3 : 0 < ERIMM_E_min) by (unfold ERIMM_E_min; lra).
  assert (H4 : exp 1 * ERIMM_E_min <= 1).
  { pose proof exp_1_bounds. unfold ERIMM_E_min. lra. }
  assert (H5 : 1 <= ERIMM_E_clip) by (unfold ERIMM_E_clip; lra).
  assert (H6 : (1 <= 8 <= 64)%Z) by lia.
  assert (H7 : (1 <= 8 <= 32)%Z) by lia.
  pose proof (decoding_inverts_encoding 0.18 8 RIMM_E_clip
                ERIMM_E_min ERIMM_E_clip H1 H2 H3 H4 H5) as H.
  cbv zeta in H. destruct H as [Hf Hi].
  exact (conj (Hf H6) (Hi H7)).
Defined.

End Transfer_functions.

(** ** Properties of the Sony .spi1d codec *)

From Stdlib Require Import Lqa.

Section Codec.

Import Sony_spi1d.
Local Open Scope string_scope.

Example parse_float_minus_0_1 : parse_float "-0.1" = Some (-1 # 10)%Q.
Proof. vm_compute. reflexivity. Qed.
Example parse_float_1_5 : parse_float "1.5" = Some (3 # 2)%Q.
Proof. vm_compute. reflexivity. Qed.
Example parse_float_exp : parse_float "25e-1" = Some (5 # 2)%Q.
Proof. vm_compute. reflexivity. Qed.
Example parse_float_bad : parse_float "1.5x" = None.
Proof. vm_compute. reflexivity. Qed.
Example parse_float_dot : parse_float "." = None.
Proof. vm_compute. reflexivity. Qed.
Example parse_float_separator : parse_float "1_0.5" = Some (21 # 2)%Q.
Proof. vm_compute. reflexivity. Qed.
Example parse_float_separators : parse_float "1__0" = None.
Proof. vm_compute. reflexivity. Qed.
Example parse_float_separator_first : parse_float "_1" = None.
Proof. vm_compute. reflexivity. Qed.
Example parse_float_separator_last : parse_float "1_" = None.
Proof. vm_compute. reflexivity. Qed.
Example parse_float_separator_dot : parse_float "1_.5" = None.
Proof. vm_compute. reflexivity. Qed.
Example parse_int_separator : parse_int "1_0" = Some 10%Z.
Proof. vm_compute. reflexivity. Qed.
Example parse_int_separator_last : parse_int "1_" = None.
Proof. vm_compute. reflexivity. Qed.
Example parse_int_sign : parse_int "+3" = Some 3%Z.
Proof. vm_compute. reflexivity. Qed.
Example parse_int_minus : parse_int "-1" = Some (-1)%Z.
Proof. vm_compute. reflexivity. Qed.
Example parse_int_fraction : parse_int "2.5" = None.
Proof. vm_compute. reflexivity. Qed.
Example as_int_scalar_overflow :
  as_int_scalar "9223372036854775808" = Raise OverflowError.
Proof. vm_compute. reflexivity. Qed.
Example as_int_scalar_max :
  as_int_scalar "9223372036854775807" = Ok 9223372036854775807%Z.
Proof. vm_compute. reflexivity. Qed.
Example format_float_ex1 : format_float 7 (-1 # 10) = "-0.1000000".
Proof. vm_compute. reflexivity. Qed.
Example format_float_ex2 : format_float 2 (1 # 8) = "0.12".
Proof. vm_compute. reflexivity. Qed.
Example format_float_ex3 : format_float 2 (3 # 8) = "0.38".
Proof. vm_compute. reflexivity. Qed.
Example format_float_ex4 : format_float 0 (5 # 2) = "2".
Proof. vm_compute. reflexivity. Qed.
Example format_float_ex5 : format_float 3 (12345 # 10) = "1234.500".
Proof. vm_compute. reflexivity. Qed.
Example format_float_ex6 : format_float 2 (-1 # 1000) = "-0.00".
Proof. vm_compute. reflexivity. Qed.
Example split_ex : split "  From  -0.1 1.5 " = ["From"; "-0.1"; "1.5"].
Proof. vm_compute. reflexivity. Qed.
Example strip_ex : strip "  a b  " = "a b".
Proof. vm_compute. reflexivity. Qed.

Example write_example :
  file (snd (write_LUT_SonySPI1D empty_fs (Single (LUT_1D example_LUT1D))
               "a.spi1d" 2)) "a.spi1d"
  = Some (String.concat newline
            ["Version 1"; "From -0.10 1.50"; "Length 3"; "Components 1";
             "{"; " 0.00"; " 0.50"; " 1.00"; "}";
             "# A first comment."; "# A second comment."; ""]).
Proof. vm_compute. reflexivity. Qed.

Example read_write_example :
  read_LUT_SonySPI1D (fun p => p)
    (snd (write_LUT_SonySPI1D empty_fs (Single (LUT_1D example_LUT1D))
            "a.spi1d" 2)) "a.spi1d"
  = Ok (LUT_1D {| LUT1D_table := [0; 1 # 2; 1]%Q; LUT1D_name := "a.spi1d";
                  LUT1D_domain := [-1 # 10; 3 # 2]%Q;
                  LUT1D_comments :=
                    ["A first comment."; "A second comment."] |}).
Proof. vm_compute. reflexivity. Qed.

(** *** The minimal file *)

(** C7: reading the minimal 2-sample file ([Components 1],
    [From -0.1 1.5], rows [0.0] and [1.0], comment [# test]) yields a
    LUT1D with domain [[-0.1, 1.5]], table [[0.0, 1.0]] and comments
    [["test"]]. *)
Theorem read_minimal_file
  (path_to_title : string -> string) (fs : file_system) (path : string) :
  file fs path = Some minimal_file ->
  read_LUT_SonySPI1D path_to_title fs path
  = Ok (LUT_1D {| LUT1D_table := [0; 1]%Q;
                  LUT1D_name := path_to_title path;
                  LUT1D_domain := [-1 # 10; 3 # 2]%Q;
                  LUT1D_comments := ["test"] |}).
Proof.
  intros Hfile. unfold read_LUT_SonySPI1D. rewrite Hfile.
  vm_compute. reflexivity.
Qed.

Lemma read_minimal_file_witness :
  read_LUT_SonySPI1D (fun path => path)
    (with_file empty_fs "minimal.spi1d" minimal_file) "minimal.spi1d"
  = Ok (LUT_1D {| LUT1D_table := [0; 1]%Q;
                  LUT1D_name := "minimal.spi1d";
                  LUT1D_domain := [-1 # 10; 3 # 2]%Q;
                  LUT1D_comments := ["test"] |}).
Proof.
  apply (read_minimal_file (fun path => path)).
  reflexivity.
Defined.

(** *** Two refusals of the writer *)

Example write_non_uniform_domain :
  write_LUT_SonySPI1D empty_fs (Single (LUT_3x1D non_uniform_LUT3x1D))
    "a.spi1d" 7
  = (Raise (AssertionError Non_uniform_LUT_domain_is_unsupported), empty_fs).
Proof. vm_compute. reflexivity. Qed.

Example write_explicit_domain :
  write_LUT_SonySPI1D empty_fs
    (Single (LUT_1D {| LUT1D_table := [0; 1 # 2; 1]%Q; LUT1D_name := "";
                       LUT1D_domain := [0; 1 # 4; 1]%Q;
                       LUT1D_comments := [] |}))
    "a.spi1d" 7
  = (Raise (AssertionError LUT_domain_must_be_implicit), empty_fs).
Proof. vm_compute. reflexivity. Qed.

(** *** The loop of the reader *)

Lemma read_lines_app (st : reader_state) (l1 l2 : list string) :
  read_lines st (l1 ++ l2)
  = bind (read_lines st l1) (fun st' => read_lines st' l2).
Proof.
  revert st. induction l1 as [ | line l1 IH ]; intros st; cbn.
  - reflexivity.
  - destruct (read_line st line) as [st' | e]; cbn; [ apply IH | reflexivity ].
Qed.

Lemma lstrip_head (s : string) (c : ascii) (s' : string) :
  lstrip s = String c s' -> isspace c = false.
Proof.
  induction s as [ | a s IH ]; cbn; [ discriminate | ].
  destruct (isspace a) eqn:Ha; [ assumption | ].
  intros H. injection H as -> _. assumption.
Qed.

Lemma split_head_nonspace (c : ascii) (s : string) :
  isspace c = false -> exists w ws, split (String c s) = String c w :: ws.
Proof.
  intros Hc. cbn. rewrite Hc.
  destruct s as [ | c' s' ]; [ eauto | ].
  destruct (isspace c'); [ eauto | ].
  destruct (split (String c' s')); eauto.
Qed.

(** A stripped line that is not empty has a first token. *)
Lemma split_strip_nonempty (l : string) :
  strip l <> EmptyString -> split (strip l) <> [].
Proof.
  intros Hne. unfold strip in *.
  destruct (lstrip (rstrip l)) as [ | c s ] eqn:H; [ congruence | ].
  apply lstrip_head in H.
  destruct (split_head_nonspace c s H) as (w & ws & ->). discriminate.
Qed.

Lemma stripped_lines_spec (text line : string) :
  In line (stripped_lines text) ->
  line <> EmptyString /\ exists l, line = strip l.
Proof.
  unfold stripped_lines. intros H. apply filter_In in H as [Hin Hne].
  apply in_map_iff in Hin as (l & <- & _). split; [ | eauto ].
  intros Heq. rewrite Heq in Hne. discriminate.
Qed.

Ltac case_keyword k lit :=
  let H := fresh "Hk" in
  destruct (String.eqb k lit) eqn:H;
  [ apply String.eqb_eq in H; try subst k | ].

(** A line that is neither a [From] nor a [Components] line leaves the
    domain and the dimensions alone; it adds a row or a comment, or
    nothing. *)
Lemma read_line_plain (st : reader_state) (line : string) :
  plain_line line ->
  read_line st line
  = Ok {| domain_min := domain_min st; domain_max := domain_max st;
          dimensions := dimensions st;
          data := data st ++ (if is_data_line line then [split line] else []);
          comments :=
            comments st ++ (if is_comment line then [comment_of line] else [])
       |}.
Proof.
  intros (Htok & HFrom & HComp).
  unfold read_line, is_data_line, keyword, is_comment, comment_of in *.
  destruct st as [dmin dmax dims dat coms]. cbn [domain_min domain_max
    dimensions data comments].
  destruct (startswith line "#") eqn:Hc.
  - rewrite app_nil_r. reflexivity.
  - destruct Htok as [Htok | Htok]; [ discriminate | ].
    destruct (split line) as [ | k args ] eqn:Hs; [ congruence | ].
    cbn [hd_error existsb keywords] in *.
    case_keyword k "Version"; [ rewrite !app_nil_r; reflexivity | ].
    case_keyword k "From"; [ congruence | ].
    case_keyword k "Length"; [ rewrite !app_nil_r; reflexivity | ].
    case_keyword k "Components"; [ congruence | ].
    case_keyword k "{"; [ rewrite !app_nil_r; reflexivity | ].
    case_keyword k "}"; [ rewrite !app_nil_r; reflexivity | ].
    cbn. rewrite app_nil_r. reflexivity.
Qed.

Lemma read_lines_plain (st : reader_state) (lines : list string) :
  Forall plain_line lines ->
  read_lines st lines
  = Ok {| domain_min := domain_min st; domain_max := domain_max st;
          dimensions := dimensions st;
          data := data st ++ map split (filter is_data_line lines);
          comments := comments st ++ map comment_of (filter is_comment lines)
       |}.
Proof.
  intros H. revert st. induction H as [ | line lines Hline _ IH ]; intros st.
  - cbn. rewrite !app_nil_r. destruct st; reflexivity.
  - cbn [read_lines]. rewrite (read_line_plain st line Hline). cbn [bind].
    rewrite IH. cbn [domain_min domain_max dimensions data comments filter].
    f_equal. f_equal.
    + destruct (is_data_line line); cbn [map];
        rewrite <- app_assoc; reflexivity.
    + destruct (is_comment line); cbn [map];
        rewrite <- app_assoc; reflexivity.
Qed.

(** Only a [Components] line changes the dimensions. *)
Lemma read_line_dimensions (st st' : reader_state) (line : string) :
  read_line st line = Ok st' -> keyword line <> Some "Components" ->
  dimensions st' = dimensions st.
Proof.
  unfold read_line, keyword, is_comment. intros H HComp.
  destruct (startswith line "#").
  { injection H as <-. reflexivity. }
  destruct (split line) as [ | k args ]; [ discriminate | ].
  cbn [hd_error] in HComp.
  case_keyword k "Version"; [ injection H as <-; reflexivity | ].
  case_keyword k "From".
  { destruct (parse_floats args) as [ [ | low [ | high [ | ] ] ] | ];
      cbn in H; try discriminate.
    injection H as <-. reflexivity. }
  case_keyword k "Length"; [ injection H as <-; reflexivity | ].
  case_keyword k "Components"; [ congruence | ].
  destruct ((k =? "{") || (k =? "}"))%string;
    injection H as <-; reflexivity.
Qed.

Lemma read_lines_dimensions (st st' : reader_state) (lines : list string) :
  read_lines st lines = Ok st' ->
  (forall line, In line lines -> keyword line <> Some "Components") ->
  dimensions st' = dimensions st.
Proof.
  revert st. induction lines as [ | line lines IH ]; intros st H Hno.
  - injection H as <-. reflexivity.
  - cbn [read_lines] in H.
    destruct (read_line st line) as [st1 | e] eqn:H1; [ | discriminate ].
    cbn [bind] in H.
    rewrite (IH st1 H) by (intros l Hl; apply Hno; right; assumption).
    apply (read_line_dimensions st st1 line H1).
    apply Hno. left. reflexivity.
Qed.

(** *** Tables of one column *)

Lemma squeeze_column (xs : list Q) :
  (2 <= List.length xs)%nat ->
  np_squeeze (nd2 (map (fun x => [x]) xs)) = nd1 xs.
Proof.
  intros Hlen.
  destruct xs as [ | x [ | y xs ] ]; cbn in Hlen; try lia.
  assert (Hall : forall l : list Q,
            forallb (fun r => (List.length r =? 1)%nat)
                    (map (fun x => [x]) l) = true).
  { induction l; cbn; auto. }
  assert (Hcat : forall l : list Q,
            List.concat (map (fun x => [x]) l) = l).
  { induction l; cbn; congruence. }
  cbn [map np_squeeze]. 
  change ([x] :: [y] :: map (fun x0 => [x0]) xs)
    with (map (fun x0 => [x0]) (x :: y :: xs)).
  rewrite Hall, Hcat. reflexivity.
Qed.

Lemma same_width_column (xs : list Q) :
  same_width (map (fun x => [x]) xs) = true.
Proof.
  destruct xs as [ | x xs ]; cbn; [ reflexivity | ].
  induction xs; cbn; auto.
Qed.

(** *** Texts *)

Lemma append_assoc (s1 s2 s3 : string) :
  ((s1 ++ s2) ++ s3 = s1 ++ (s2 ++ s3))%string.
Proof. induction s1; cbn; congruence. Qed.

Lemma append_nil_r (s : string) : (s ++ "" = s)%string.
Proof. induction s; cbn; congruence. Qed.

Lemma string_all_app (P : ascii -> bool) (s1 s2 : string) :
  string_all P (s1 ++ s2) = string_all P s1 && string_all P s2.
Proof.
  induction s1 as [ | c s1 IH ]; cbn; [ reflexivity | ].
  rewrite IH, andb_assoc. reflexivity.
Qed.

Lemma string_all_impl (P Q : ascii -> bool) (s : string) :
  (forall c, P c = true -> Q c = true) ->
  string_all P s = true -> string_all Q s = true.
Proof.
  intros HPQ. induction s as [ | c s IH ]; cbn; [ reflexivity | ].
  intros H. apply andb_true_iff in H as [Hc Hs].
  rewrite (HPQ c Hc), (IH Hs). reflexivity.
Qed.

(** *** Decimal numerals *)

Lemma digit_value_digit (n : N) :
  (n < 10)%N -> digit_value (digit n) = Some n.
Proof.
  intros H. unfold digit_value, digit.
  rewrite N_ascii_embedding by lia.
  replace ((48 <=? 48 + n) && (48 + n <=? 57))%N with true.
  - f_equal. lia.
  - symmetry. apply andb_true_iff. split; apply N.leb_le; lia.
Qed.

Lemma is_digit_digit (n : N) : (n < 10)%N -> is_digit (digit n) = true.
Proof. intros H. unfold is_digit. rewrite digit_value_digit; auto. Qed.

Lemma mod_10_lt (n : N) : (n mod 10 < 10)%N.
Proof. apply N.mod_lt. discriminate. Qed.

Lemma string_all_digits_fixed (k : nat) (n : N) :
  string_all is_digit (digits_fixed k n) = true.
Proof.
  revert n. induction k as [ | k IH ]; intros n; cbn; [ reflexivity | ].
  rewrite string_all_app, IH. cbn.
  rewrite is_digit_digit by apply mod_10_lt. reflexivity.
Qed.

Lemma take_digits_fixed (k : nat) (n acc : N) (count : nat) (rest : string) :
  take_digits (digits_fixed k n ++ rest) acc count
  = take_digits rest (acc * 10 ^ N.of_nat k + n mod 10 ^ N.of_nat k)%N
      (count + k).
Proof.
  revert n acc count rest.
  induction k as [ | k IH ]; intros n acc count rest.
  - cbn [digits_fixed append]. f_equal; [ | lia ].
    change (N.of_nat 0) with 0%N. rewrite N.pow_0_r, N.mod_1_r. lia.
  - cbn [digits_fixed]. rewrite append_assoc. rewrite IH.
    cbn [append take_digits].
    rewrite digit_value_digit by apply mod_10_lt.
    f_equal; [ | lia ].
    rewrite Nat2N.inj_succ, N.pow_succ_r'.
    rewrite (N.Div0.mod_mul_r n 10 (10 ^ N.of_nat k)). lia.
Qed.

Lemma num_digits_fuel_bound (fuel : nat) (n : N) :
  (n < 2 ^ N.of_nat fuel)%N ->
  (n < 10 ^ N.of_nat (num_digits_fuel fuel n))%N.
Proof.
  revert n. induction fuel as [ | fuel IH ]; intros n Hn.
  - cbn in *. lia.
  - cbn [num_digits_fuel]. destruct (n <? 10)%N eqn:Hlt.
    + apply N.ltb_lt in Hlt. cbn. lia.
    + apply N.ltb_ge in Hlt.
      rewrite Nat2N.inj_succ, N.pow_succ_r' in *.
      assert (Hdiv : (n / 10 < 2 ^ N.of_nat fuel)%N).
      { apply N.Div0.div_lt_upper_bound. lia. }
      specialize (IH _ Hdiv).
      pose proof (N.Div0.div_mod n 10) as Hdm.
      pose proof (mod_10_lt n). lia.
Qed.

Lemma num_digits_bound (n : N) : (n < 10 ^ N.of_nat (num_digits n))%N.
Proof.
  unfold num_digits. apply num_digits_fuel_bound.
  rewrite N2Nat.id. apply N.size_gt.
Qed.

Lemma num_digits_pos (n : N) : exists k, num_digits n = S k.
Proof.
  unfold num_digits. destruct (N.to_nat (N.size n)) as [ | fuel ]; cbn.
  - eauto.
  - destruct (n <? 10)%N; eauto.
Qed.

(** Reading back the decimal numeral of [n]. *)
Lemma take_digits_str_N (n acc : N) (count : nat) (rest : string) :
  take_digits (str_N n ++ rest) acc count
  = take_digits rest (acc * 10 ^ N.of_nat (num_digits n) + n)%N
      (count + num_digits n).
Proof.
  unfold str_N. rewrite take_digits_fixed.
  rewrite (N.mod_small n) by apply num_digits_bound. reflexivity.
Qed.

Lemma pow10_N (k : nat) : Npos (pow10 k) = (10 ^ N.of_nat k)%N.
Proof.
  unfold pow10.
  assert (H : (10 ^ k <> 0)%nat) by (apply Nat.pow_nonzero; discriminate).
  rewrite <- positive_nat_N, Nat2Pos.id by assumption.
  rewrite Nat2N.inj_pow. reflexivity.
Qed.

Lemma length_digits_fixed (k : nat) (n : N) :
  String.length (digits_fixed k n) = k.
Proof.
  revert n. induction k as [ | k IH ]; intros n; cbn; [ reflexivity | ].
  assert (Happ : forall s c,
            String.length (s ++ String c "") = S (String.length s)).
  { induction s; intros; cbn; auto. }
  rewrite Happ, IH. reflexivity.
Qed.

(** The numeral of a natural number starts with a digit. *)
Lemma str_N_head (n : N) :
  exists c s, str_N n = String c s /\ is_digit c = true.
Proof.
  pose proof (string_all_digits_fixed (num_digits n) n) as Hall.
  pose proof (length_digits_fixed (num_digits n) n) as Hlen.
  destruct (num_digits_pos n) as [k Hk].
  unfold str_N. destruct (digits_fixed (num_digits n) n) as [ | c s ].
  - rewrite Hk in Hlen. discriminate.
  - cbn in Hall. apply andb_true_iff in Hall as [Hc _]. eauto.
Qed.

Lemma take_sign_digit (c : ascii) (s : string) :
  is_digit c = true -> take_sign (String c s) = (false, String c s).
Proof.
  destruct c as [b0 b1 b2 b3 b4 b5 b6 b7].
  destruct b0, b1, b2, b3, b4, b5, b6, b7; cbn; intros H;
    try reflexivity; discriminate.
Qed.

Lemma take_digits_dot (s : string) (acc : N) (count : nat) :
  take_digits (String "." s) acc count = (acc, count, String "." s).
Proof. cbn. destruct count, s; reflexivity. Qed.

(** Reading a fixed-point numeral back gives the number it stands for. *)
Lemma parse_format_float (decimals : nat) (v : Q) :
  parse_float (format_float decimals v) = Some (round_decimals decimals v).
Proof.
  unfold format_float, round_decimals.
  set (n := scaled_magnitude decimals v).
  rewrite pow10_N.
  set (scale := (10 ^ N.of_nat decimals)%N).
  assert (Hscale : (scale <> 0)%N) by (apply N.pow_nonzero; discriminate).
  set (ip := (n / scale)%N). set (fp := (n mod scale)%N).
  assert (Hn : (ip * scale + fp)%N = n).
  { unfold ip, fp. pose proof (N.Div0.div_mod n scale). lia. }
  assert (Hfp : (fp mod scale)%N = fp).
  { unfold fp. apply N.Div0.mod_mod. }
  destruct (num_digits_pos ip) as [k Hk].
  (* what is parsed after the sign *)
  assert (Hbody : forall (negative : bool) (fraction : string),
    fraction = match decimals with
               | O => ""%string
               | S _ => ("." ++ digits_fixed decimals fp)%string
               end ->
    parse_float_unsigned negative (str_N ip ++ fraction)
    = Some (Qred (if negative then (- (Z.of_N n # pow10 decimals))%Q
                  else (Z.of_N n # pow10 decimals)%Q))).
  { intros negative fraction ->. unfold parse_float_unsigned.
    rewrite take_digits_str_N. rewrite Hk. cbn [Nat.add].
    rewrite N.mul_0_l, N.add_0_l.
    destruct decimals as [ | d ].
    - cbn [take_digits Nat.add Nat.eqb].
      assert (ip = n) as ->.
      { unfold ip, scale. change (N.of_nat 0) with 0%N.
        rewrite N.pow_0_r. apply N.div_1_r. }
      reflexivity.
    - cbn [append]. rewrite take_digits_dot.
      rewrite <- (append_nil_r (digits_fixed (S d) fp)).
      rewrite take_digits_fixed. fold scale. rewrite Hfp, Hn.
      cbn [take_digits Nat.add Nat.eqb]. reflexivity. }
  destruct (Qltb v 0) eqn:Hneg.
  - unfold parse_float. cbn [append take_sign].
    exact (Hbody true _ eq_refl).
  - unfold parse_float. cbn [append].
    destruct (str_N_head ip) as (c & s & Hs & Hc).
    assert (Hsign : forall fraction,
              take_sign (str_N ip ++ fraction)
              = (false, (str_N ip ++ fraction)%string)).
    { intros fraction. rewrite Hs. cbn [append].
      apply take_sign_digit. assumption. }
    rewrite Hsign. exact (Hbody false _ eq_refl).
Qed.

(** *** Rounding *)

Lemma Qround_half_even_spec (x : Q) :
  (Qabs (inject_Z (Qround_half_even x) - x) <= 1 # 2)%Q.
Proof.
  unfold Qround_half_even.
  pose proof (Qfloor_le x) as Hlo. pose proof (Qlt_floor x) as Hhi.
  rewrite inject_Z_plus in Hhi. change (inject_Z 1) with 1%Q in Hhi.
  apply Qabs_Qle_condition.
  destruct (Qcompare (x - inject_Z (Qfloor x)) (1 # 2)) eqn:Hc.
  - apply Qeq_alt in Hc.
    destruct (Z.even (Qfloor x));
      [ | rewrite inject_Z_plus; change (inject_Z 1) with 1%Q ]; lra.
  - apply Qlt_alt in Hc. lra.
  - apply Qgt_alt in Hc.
    rewrite inject_Z_plus. change (inject_Z 1) with 1%Q. lra.
Qed.

Lemma Qround_half_even_nonneg (x : Q) :
  (0 <= x)%Q -> (0 <= Qround_half_even x)%Z.
Proof.
  intros Hx. unfold Qround_half_even.
  assert (Hf : (0 <= Qfloor x)%Z).
  { change 0%Z with (Qfloor 0). apply Qfloor_resp_le. assumption. }
  destruct (Qcompare (x - inject_Z (Qfloor x)) (1 # 2)); try lia.
  destruct (Z.even (Qfloor x)); lia.
Qed.

Lemma Qltb_lt (a b : Q) : Qltb a b = true <-> (a < b)%Q.
Proof.
  unfold Qltb. rewrite negb_true_iff.
  split.
  - intros H. apply Qnot_le_lt. intros Hle.
    apply Qle_bool_iff in Hle. congruence.
  - intros H. destruct (Qle_bool b a) eqn:Hle; [ | reflexivity ].
    apply Qle_bool_iff in Hle. lra.
Qed.

Lemma Qltb_ge (a b : Q) : Qltb a b = false <-> (b <= a)%Q.
Proof.
  unfold Qltb. rewrite negb_false_iff. apply Qle_bool_iff.
Qed.

(** The number a fixed-point numeral stands for is within half a unit of
    the last decimal place of the number printed. *)
Lemma round_decimals_close (decimals : nat) (v : Q) :
  (Qabs (round_decimals decimals v - v)
   <= (1 # 2) / inject_Z (Zpos (pow10 decimals)))%Q.
Proof.
  unfold round_decimals, scaled_magnitude.
  set (s := inject_Z (Zpos (pow10 decimals))).
  assert (Hs : (0 < s)%Q) by reflexivity.
  set (x := (Qabs v * s)%Q).
  assert (Hx : (0 <= x)%Q).
  { unfold x. apply Qmult_le_0_compat; [ apply Qabs_nonneg | lra ]. }
  pose proof (Qround_half_even_spec x) as Hr.
  pose proof (Qround_half_even_nonneg x Hx) as Hr0.
  rewrite Z2N.id by assumption.
  set (r := Qround_half_even x) in *.
  rewrite Qred_correct.
  apply Qle_shift_div_l; [ assumption | ].
  assert (Habs : forall a : Q, (Qabs a * s == Qabs (a * s))%Q).
  { intros a. rewrite Qabs_Qmult, (Qabs_pos s) by lra. reflexivity. }
  rewrite Habs.
  apply Qabs_Qle_condition in Hr. apply Qabs_Qle_condition.
  assert (Hq : forall z : Z,
            ((z # pow10 decimals) * s == inject_Z z)%Q).
  { intros z. unfold s. rewrite (Qmake_Qdiv z). field.
    discriminate. }
  destruct (Qltb v 0) eqn:Hneg.
  - apply Qltb_lt in Hneg.
    assert (Hv : (x == - v * s)%Q).
    { unfold x. rewrite Qabs_neg by lra. reflexivity. }
    setoid_replace (((- r # pow10 decimals) - v) * s)%Q
      with (inject_Z (- r) - v * s)%Q
      by (rewrite <- Hq; ring).
    rewrite inject_Z_opp. lra.
  - apply Qltb_ge in Hneg.
    assert (Hv : (x == v * s)%Q).
    { unfold x. rewrite Qabs_pos by lra. reflexivity. }
    setoid_replace (((r # pow10 decimals) - v) * s)%Q
      with (inject_Z r - v * s)%Q
      by (rewrite <- Hq; ring).
    lra.
Qed.

(** *** The characters of a numeral *)

Lemma numeral_char_facts (c : ascii) :
  is_numeral_char c = true ->
  isspace c = false /\ is_line_break c = false /\
  Ascii.eqb c "#" = false /\
  (Ascii.eqb c "-" = true \/ Ascii.eqb c "." = true \/ is_digit c = true).
Proof.
  destruct c as [b0 b1 b2 b3 b4 b5 b6 b7].
  destruct b0, b1, b2, b3, b4, b5, b6, b7; cbn; intros H;
    try discriminate; auto 6.
Qed.

Lemma digit_char_facts (c : ascii) :
  is_digit c = true -> is_numeral_char c = true.
Proof.
  unfold is_numeral_char. intros ->. reflexivity.
Qed.

Lemma format_float_chars (decimals : nat) (v : Q) :
  string_all is_numeral_char (format_float decimals v) = true.
Proof.
  unfold format_float, str_N.
  assert (Hd : forall k n,
            string_all is_numeral_char (digits_fixed k n) = true).
  { intros k n. apply (string_all_impl is_digit); [ | apply string_all_digits_fixed ].
    apply digit_char_facts. }
  destruct (Qltb v 0), decimals as [ | d ];
    rewrite !string_all_app, ?Hd; cbn [append string_all];
    rewrite ?Hd; reflexivity.
Qed.

(** A numeral starts with a minus sign or a digit. *)
Lemma format_float_head (decimals : nat) (v : Q) :
  exists c s,
    format_float decimals v = String c s /\
    (c = "-"%char \/ is_digit c = true).
Proof.
  unfold format_float.
  destruct (str_N_head
              (scaled_magnitude decimals v / Npos (pow10 decimals)))
    as (c & s & Hs & Hc).
  rewrite Hs.
  destruct (Qltb v 0); cbn [append]; eauto.
Qed.

Lemma format_float_token (decimals : nat) (v : Q) :
  is_token (format_float decimals v) = true.
Proof.
  unfold is_token.
  destruct (format_float_head decimals v) as (c & s & Hs & _).
  pose proof (format_float_chars decimals v) as Hall.
  rewrite Hs in *. cbn [String.eqb negb andb].
  apply (string_all_impl is_numeral_char); [ | assumption ].
  intros a Ha. apply numeral_char_facts in Ha as (-> & _). reflexivity.
Qed.

Lemma format_float_no_line_break (decimals : nat) (v : Q) :
  string_all (fun c => negb (is_line_break c)) (format_float decimals v)
  = true.
Proof.
  apply (string_all_impl is_numeral_char); [ | apply format_float_chars ].
  intros a Ha. apply numeral_char_facts in Ha as (_ & -> & _). reflexivity.
Qed.

(** *** Splitting and stripping *)

Lemma is_token_cons (c : ascii) (s : string) :
  is_token (String c s) = true ->
  isspace c = false /\ (s = EmptyString \/ is_token s = true).
Proof.
  unfold is_token. cbn. intros H.
  apply andb_true_iff in H as [Hc Hs]. apply negb_true_iff in Hc.
  split; [ assumption | ].
  destruct s as [ | c' s' ]; [ left; reflexivity | right ].
  cbn in *. assumption.
Qed.

Lemma is_token_nonempty (s : string) : is_token s = true -> s <> EmptyString.
Proof. intros H ->. discriminate. Qed.

Lemma split_space (c : ascii) (s : string) :
  isspace c = true -> split (String c s) = split s.
Proof. intros H. cbn. rewrite H. reflexivity. Qed.

(** A token followed by white space is the first token of the split. *)
Lemma split_token_space (w : string) (c : ascii) (s : string) :
  is_token w = true -> isspace c = true ->
  split (w ++ String c s) = w :: split s.
Proof.
  intros Hw Hc. induction w as [ | a w IH ]; [ discriminate | ].
  apply is_token_cons in Hw as [Ha [-> | Hw]].
  - cbn [append]. cbn [split]. rewrite Ha, Hc. reflexivity.
  - specialize (IH Hw).
    destruct w as [ | a' w' ]; [ discriminate | ].
    apply is_token_cons in Hw as [Ha' _].
    cbn [append] in *. 
    change (split (String a (String a' (w' ++ String c s))))
      with (if isspace a then split (String a' (w' ++ String c s))
            else if isspace a'
                 then String a EmptyString
                      :: split (String a' (w' ++ String c s))
                 else match split (String a' (w' ++ String c s)) with
                      | w0 :: ws => String a w0 :: ws
                      | [] => [String a EmptyString]
                      end).
    rewrite Ha, Ha', IH. reflexivity.
Qed.

Lemma split_token (w : string) : is_token w = true -> split w = [w].
Proof.
  intros Hw. induction w as [ | a w IH ]; [ discriminate | ].
  apply is_token_cons in Hw as [Ha [-> | Hw]].
  - cbn. rewrite Ha. reflexivity.
  - specialize (IH Hw).
    destruct w as [ | a' w' ]; [ discriminate | ].
    apply is_token_cons in Hw as [Ha' _].
    change (split (String a (String a' w')))
      with (if isspace a then split (String a' w')
            else if isspace a'
                 then String a EmptyString :: split (String a' w')
                 else match split (String a' w') with
                      | w0 :: ws => String a w0 :: ws
                      | [] => [String a EmptyString]
                      end).
    rewrite Ha, Ha', IH. reflexivity.
Qed.

Lemma lstrip_nonspace (c : ascii) (s : string) :
  isspace c = false -> lstrip (String c s) = String c s.
Proof. intros H. cbn. rewrite H. reflexivity. Qed.

Lemma lstrip_space (c : ascii) (s : string) :
  isspace c = true -> lstrip (String c s) = lstrip s.
Proof. intros H. cbn. rewrite H. reflexivity. Qed.

Lemma rstrip_cons (c : ascii) (s : string) :
  rstrip (String c s)
  = match rstrip s with
    | EmptyString => if isspace c then EmptyString else String c EmptyString
    | r => String c r
    end.
Proof. reflexivity. Qed.

Lemma rstrip_token (w : string) : is_token w = true -> rstrip w = w.
Proof.
  intros Hw. induction w as [ | a w IH ]; [ discriminate | ].
  apply is_token_cons in Hw as [Ha [-> | Hw]].
  - cbn. rewrite Ha. reflexivity.
  - rewrite rstrip_cons, (IH Hw).
    destruct w; [ discriminate | reflexivity ].
Qed.

(** Nothing is stripped on the right of a text that ends with a token. *)
Lemma rstrip_app_token (s w : string) :
  is_token w = true -> rstrip (s ++ w) = (s ++ w)%string.
Proof.
  intros Hw. induction s as [ | c s IH ]; cbn [append].
  - apply rstrip_token. assumption.
  - rewrite rstrip_cons, IH.
    destruct (s ++ w)%string eqn:Happ; [ | reflexivity ].
    destruct s; cbn in Happ; [ | discriminate ].
    subst w. discriminate.
Qed.

Lemma rstrip_spaces (t : string) :
  string_all isspace t = true -> rstrip t = EmptyString.
Proof.
  induction t as [ | c t IH ]; cbn [string_all]; [ reflexivity | ].
  intros H. apply andb_true_iff in H as [Hc Ht].
  rewrite rstrip_cons, (IH Ht), Hc. reflexivity.
Qed.

(** White space at the end is stripped. *)
Lemma rstrip_app_spaces (s t : string) :
  string_all isspace t = true -> rstrip (s ++ t) = rstrip s.
Proof.
  intros Ht. induction s as [ | c s IH ]; cbn [append].
  - rewrite rstrip_spaces by assumption. reflexivity.
  - rewrite !rstrip_cons, IH. reflexivity.
Qed.

Lemma rstrip_idempotent (s : string) : rstrip (rstrip s) = rstrip s.
Proof.
  induction s as [ | c s IH ]; [ reflexivity | ].
  rewrite rstrip_cons.
  destruct (rstrip s) as [ | a r ] eqn:Hr.
  - destruct (isspace c) eqn:Hc; [ reflexivity | ].
    cbn. rewrite Hc. reflexivity.
  - rewrite rstrip_cons, IH. reflexivity.
Qed.

Lemma strip_newline (s : string) : strip (s ++ newline) = strip s.
Proof.
  unfold strip. rewrite rstrip_app_spaces; reflexivity.
Qed.

(** *** The lines of a written text *)

Lemma line_break_split (c : ascii) :
  is_line_break c = false -> Ascii.eqb c LF = false /\ Ascii.eqb c CR = false.
Proof. unfold is_line_break. intros H. apply orb_false_iff in H. exact H. Qed.

Lemma concat_empty_cons (x : string) (l : list string) :
  String.concat "" (x :: l) = (x ++ String.concat "" l)%string.
Proof.
  destruct l; cbn [String.concat]; [ rewrite append_nil_r | ]; reflexivity.
Qed.

Lemma text_of_lines_cons (line : string) (lines : list string) :
  text_of_lines (line :: lines)
  = (line ++ newline ++ text_of_lines lines)%string.
Proof.
  unfold text_of_lines. cbn [map]. rewrite concat_empty_cons.
  apply append_assoc.
Qed.

Lemma text_of_lines_app (l1 l2 : list string) :
  text_of_lines (l1 ++ l2) = (text_of_lines l1 ++ text_of_lines l2)%string.
Proof.
  induction l1 as [ | line l1 IH ]; [ reflexivity | ].
  cbn [app]. rewrite !text_of_lines_cons, IH, !append_assoc. reflexivity.
Qed.

Lemma concat_map_lines {A : Type} (f : A -> string) (l : list A) :
  String.concat "" (map (fun a => f a ++ newline)%string l)
  = text_of_lines (map f l).
Proof.
  unfold text_of_lines. rewrite map_map. reflexivity.
Qed.

(** A text without carriage returns is read as it is. *)
Lemma universal_newlines_line (line rest : string) :
  no_line_break line = true ->
  universal_newlines (line ++ newline ++ rest)
  = (line ++ newline ++ universal_newlines rest)%string.
Proof.
  unfold no_line_break.
  induction line as [ | c line IH ]; cbn [string_all append]; intros H.
  - reflexivity.
  - apply andb_true_iff in H as [Hc Hl]. apply negb_true_iff in Hc.
    apply line_break_split in Hc as [_ Hcr].
    cbn [universal_newlines]. rewrite Hcr, (IH Hl). reflexivity.
Qed.

Lemma universal_newlines_lines (lines : list string) :
  forallb no_line_break lines = true ->
  universal_newlines (text_of_lines lines) = text_of_lines lines.
Proof.
  induction lines as [ | line lines IH ]; cbn [forallb]; intros H.
  - reflexivity.
  - apply andb_true_iff in H as [Hl Hls].
    rewrite text_of_lines_cons, universal_newlines_line, (IH Hls)
      by assumption.
    reflexivity.
Qed.

Lemma readlines_line (line rest : string) :
  no_line_break line = true ->
  readlines (line ++ newline ++ rest)
  = (line ++ newline)%string :: readlines rest.
Proof.
  unfold no_line_break.
  induction line as [ | c line IH ]; cbn [string_all append]; intros H.
  - reflexivity.
  - apply andb_true_iff in H as [Hc Hl]. apply negb_true_iff in Hc.
    apply line_break_split in Hc as [Hlf _].
    cbn [readlines]. rewrite Hlf, (IH Hl). reflexivity.
Qed.

Lemma readlines_lines (lines : list string) :
  forallb no_line_break lines = true ->
  readlines (text_of_lines lines)
  = map (fun line => line ++ newline)%string lines.
Proof.
  induction lines as [ | line lines IH ]; cbn [forallb]; intros H.
  - reflexivity.
  - apply andb_true_iff in H as [Hl Hls].
    rewrite text_of_lines_cons, readlines_line, (IH Hls) by assumption.
    reflexivity.
Qed.

(** The lines the reader iterates on, for a text written line by line. *)
Lemma stripped_lines_text_of_lines (lines : list string) :
  forallb no_line_break lines = true ->
  stripped_lines (text_of_lines lines)
  = filter (fun line => negb (line =? "")%string) (map strip lines).
Proof.
  intros H. unfold stripped_lines.
  rewrite universal_newlines_lines, readlines_lines by assumption.
  rewrite map_map. f_equal.
  apply map_ext. intros line. apply strip_newline.
Qed.

(** *** The text the writer produces *)

Lemma write_body_lines
  (decimals : nat) (low high : Q) (size : nat) (components : string)
  (rows : list (list Q)) (comments : list string) :
  (version_line
   ++ write_body decimals low high size components
        (map (fun row =>
                String " " (join (map (format_float decimals) row))
                ++ newline) rows)
        comments)%string
  = text_of_lines
      (written_lines decimals low high size components rows comments).
Proof.
  unfold written_lines, write_body, version_line.
  cbn [app]. rewrite !text_of_lines_cons, !text_of_lines_app.
  rewrite (concat_map_lines
             (fun row => String " " (join (map (format_float decimals) row)))).
  change (map write_comment comments)
    with (map (fun c => ("# " ++ c) ++ newline)%string comments).
  rewrite (concat_map_lines (fun c => ("# " ++ c)%string)).
  rewrite text_of_lines_cons. cbn [text_of_lines map String.concat].
  unfold join. cbn [String.concat].
  rewrite !append_assoc. cbn [append]. rewrite ?append_nil_r.
  reflexivity.
Qed.

(** *** Lines made of tokens *)

Lemma join_cons (w w' : string) (ws : list string) :
  join (w :: w' :: ws) = (w ++ String " " (join (w' :: ws)))%string.
Proof. reflexivity. Qed.

Lemma split_join (ws : list string) :
  forallb is_token ws = true -> split (join ws) = ws.
Proof.
  induction ws as [ | w [ | w' ws ] IH ]; cbn [forallb]; intros H.
  - reflexivity.
  - apply andb_true_iff in H as [Hw _]. apply split_token. assumption.
  - apply andb_true_iff in H as [Hw Hws].
    rewrite join_cons, split_token_space, (IH Hws) by auto. reflexivity.
Qed.

Lemma rstrip_app_fixed (s t : string) :
  rstrip t = t -> t <> EmptyString -> rstrip (s ++ t) = (s ++ t)%string.
Proof.
  intros Ht Hne. induction s as [ | c s IH ]; cbn [append]; [ assumption | ].
  rewrite rstrip_cons, IH.
  destruct (s ++ t)%string eqn:Happ; [ | reflexivity ].
  destruct s; cbn in Happ; congruence.
Qed.

Lemma join_head (w : string) (ws : list string) :
  is_token w = true ->
  exists c s s',
    w = String c s /\ join (w :: ws) = String c s' /\ isspace c = false.
Proof.
  intros Hw. destruct w as [ | c s ]; [ discriminate | ].
  apply is_token_cons in Hw as [Hc _].
  destruct ws as [ | w' ws ].
  - exists c, s, s. auto.
  - rewrite join_cons. cbn [append].
    exists c, s, (s ++ String " " (join (w' :: ws)))%string. auto.
Qed.

Lemma rstrip_join (ws : list string) :
  ws <> [] -> forallb is_token ws = true ->
  rstrip (join ws) = join ws /\ join ws <> EmptyString.
Proof.
  induction ws as [ | w [ | w' ws ] IH ]; cbn [forallb]; intros Hne H.
  - congruence.
  - apply andb_true_iff in H as [Hw _]. split.
    + apply rstrip_token. assumption.
    + apply is_token_nonempty. assumption.
  - apply andb_true_iff in H as [Hw Hws].
    destruct (IH ltac:(discriminate) Hws) as [Hr Hn].
    rewrite join_cons. split.
    + apply (rstrip_app_fixed w (String " " (join (w' :: ws)))).
      * rewrite rstrip_cons, Hr.
        destruct (join (w' :: ws)); [ congruence | reflexivity ].
      * discriminate.
    + destruct w; [ discriminate | cbn; discriminate ].
Qed.

(** A line of tokens is not changed by [strip], and a space before it is
    stripped. *)
Lemma strip_join (ws : list string) :
  ws <> [] -> forallb is_token ws = true ->
  strip (join ws) = join ws /\ strip (String " " (join ws)) = join ws.
Proof.
  intros Hne H. destruct (rstrip_join ws Hne H) as [Hr Hn].
  destruct ws as [ | w ws ]; [ congruence | ].
  cbn [forallb] in H. apply andb_true_iff in H as [Hw _].
  destruct (join_head w ws Hw) as (c & s & s' & _ & Hj & Hc).
  split; unfold strip.
  - rewrite Hr, Hj. apply lstrip_nonspace. assumption.
  - rewrite rstrip_cons, Hr, Hj.
    rewrite lstrip_space by reflexivity.
    apply lstrip_nonspace. assumption.
Qed.

Lemma str_N_token (n : N) : is_token (str_N n) = true.
Proof.
  unfold is_token.
  destruct (str_N_head n) as (c & s & Hs & _).
  pose proof (string_all_digits_fixed (num_digits n) n) as Hall.
  fold (str_N n) in Hall. rewrite Hs in *. cbn [String.eqb negb andb].
  apply (string_all_impl is_digit); [ | assumption ].
  intros a Ha. apply digit_char_facts in Ha.
  apply numeral_char_facts in Ha as (-> & _). reflexivity.
Qed.

Lemma forallb_format_float_token (decimals : nat) (row : list Q) :
  forallb is_token (map (format_float decimals) row) = true.
Proof.
  induction row; cbn; [ reflexivity | ].
  rewrite format_float_token. assumption.
Qed.

(** *** What the reader makes of each written line *)

(** A comment line comes back as the comment, stripped. *)
Lemma comment_line_read (comment : string) :
  let line := strip ("# " ++ comment) in
  line <> EmptyString /\ is_comment line = true /\
  is_data_line line = false /\ comment_of line = strip comment.
Proof.
  assert (Hs : strip ("# " ++ comment)
               = match rstrip comment with
                 | EmptyString => "#"
                 | r => ("# " ++ r)%string
                 end).
  { unfold strip. cbn [append]. rewrite !rstrip_cons.
    destruct (rstrip comment); reflexivity. }
  cbv zeta. rewrite Hs.
  destruct (rstrip comment) as [ | a r ] eqn:Hr.
  - repeat split; try discriminate.
    unfold strip. rewrite Hr. reflexivity.
  - cbn [append]. repeat split; try discriminate.
    unfold comment_of, slice_from_1, strip.
    rewrite rstrip_cons.
    assert (Hrr : rstrip (String a r) = String a r).
    { rewrite <- Hr. apply rstrip_idempotent. }
    rewrite Hrr. rewrite lstrip_space by reflexivity. rewrite Hr. reflexivity.
Qed.

Lemma numeral_head_not_keyword (c : ascii) (s : string) :
  c = "-"%char \/ is_digit c = true ->
  startswith (String c s) "#" = false /\
  existsb (String.eqb (String c s)) keywords = false.
Proof.
  destruct c as [b0 b1 b2 b3 b4 b5 b6 b7].
  destruct b0, b1, b2, b3, b4, b5, b6, b7; cbn;
    intros [H | H]; try discriminate; auto.
Qed.

(** A row line comes back as its numerals. *)
Lemma row_line_read (decimals : nat) (v : Q) (row : list Q) :
  let tokens := map (format_float decimals) (v :: row) in
  let line := strip (String " " (join tokens)) in
  line = join tokens /\ line <> EmptyString /\
  is_comment line = false /\ is_data_line line = true /\
  split line = tokens.
Proof.
  cbv zeta.
  pose proof (forallb_format_float_token decimals (v :: row)) as Htok.
  assert (Hne : map (format_float decimals) (v :: row) <> [])
    by discriminate.
  destruct (strip_join _ Hne Htok) as [_ Hstrip].
  destruct (rstrip_join _ Hne Htok) as [_ Hnonempty].
  rewrite Hstrip. pose proof (split_join _ Htok) as Hsplit.
  cbn [map] in *.
  destruct (format_float_head decimals v) as (c & s & Hv & Hc).
  destruct (join_head (format_float decimals v)
              (map (format_float decimals) row)
              (format_float_token decimals v)) as (c' & s1 & s' & Hv' & Hj & _).
  assert (c' = c) by congruence. subst c'.
  destruct (numeral_head_not_keyword c s' Hc) as [Hcomment _].
  destruct (numeral_head_not_keyword c s1 Hc) as [_ Hkey].
  unfold is_data_line, keyword, is_comment.
  rewrite Hsplit. rewrite Hj in *. rewrite Hcomment.
  cbn [hd_error]. rewrite Hv', Hkey. auto.
Qed.

Lemma data_line_plain (line : string) :
  is_data_line line = true -> plain_line line.
Proof.
  unfold is_data_line, plain_line, keyword.
  destruct (is_comment line); [ discriminate | ].
  destruct (split line) as [ | k args ]; cbn [hd_error]; [ discriminate | ].
  cbn [existsb keywords]. intros H. apply negb_true_iff in H.
  repeat (apply orb_false_iff in H as [? H]).
  repeat split.
  - right. discriminate.
  - intros Heq. injection Heq as ->. discriminate.
  - intros Heq. injection Heq as ->. discriminate.
Qed.

Lemma comment_plain (line : string) :
  is_comment line = true -> plain_line line.
Proof.
  unfold plain_line, keyword. intros ->.
  repeat split; auto; discriminate.
Qed.

Lemma nonempty_line_spec (line : string) :
  line <> EmptyString -> nonempty_line line = true.
Proof.
  intros H. unfold nonempty_line. apply negb_true_iff.
  apply String.eqb_neq. assumption.
Qed.

(** The lines after the opening brace: rows, closing brace, comments. *)
Lemma tail_lines_read
  (decimals : nat) (rows : list (list Q)) (comments : list string) :
  Forall (fun row => row <> []) rows ->
  let lines :=
    map strip
      (map (fun row => String " " (join (map (format_float decimals) row)))
           rows
       ++ ["}"%string]
       ++ map (fun comment => ("# " ++ comment)%string) comments) in
  filter nonempty_line lines = lines /\
  Forall plain_line lines /\
  map split (filter is_data_line lines)
  = map (map (format_float decimals)) rows /\
  map comment_of (filter is_comment lines) = map strip comments.
Proof.
  intros Hrows. cbv zeta. induction Hrows as [ | row rows Hrow _ IH ].
  - cbn [map app].
    change (strip "}") with "}"%string.
    cbn [filter]. change (nonempty_line "}") with true.
    change (is_data_line "}") with false. change (is_comment "}") with false.
    cbv iota.
    assert (Hbrace : plain_line "}").
    { repeat split; try (right; discriminate); cbn; discriminate. }
    induction comments as [ | c cs IHc ].
    + cbn. repeat split; auto.
    + destruct IHc as (Hf & Hp & Hd & Hc).
      destruct (comment_line_read c) as (Hne & Hcom & Hdat & Hof).
      cbv zeta in *. cbn [map filter].
      rewrite (nonempty_line_spec _ Hne), Hcom, Hdat. cbn [map].
      injection Hf as Hf. inversion Hp as [ | ? ? _ Hp' ]; subst.
      repeat split.
      * do 2 f_equal. exact Hf.
      * constructor; [ assumption | ].
        constructor; [ apply comment_plain; assumption | assumption ].
      * exact Hd.
      * f_equal; assumption.
  - destruct row as [ | v row ]; [ congruence | ].
    destruct IH as (Hf & Hp & Hd & Hc).
    destruct (row_line_read decimals v row)
      as (_ & Hne & Hcom & Hdat & Hsplit).
    cbv zeta in *. cbn [map app filter] in *.
    rewrite (nonempty_line_spec _ Hne), Hcom, Hdat. cbn [map].
    repeat split.
    + f_equal. exact Hf.
    + constructor; [ apply data_line_plain; assumption | assumption ].
    + f_equal; assumption.
    + exact Hc.
Qed.

(** *** The header *)

Lemma read_line_from (st : reader_state) (line : string) (args : list string) :
  is_comment line = false -> split line = "From" :: args ->
  read_line st line
  = bind (parse_floats args) (fun values =>
      match values with
      | [low; high] =>
          Ok {| domain_min := low; domain_max := high;
                dimensions := dimensions st; data := data st;
                comments := comments st |}
      | _ => Raise ValueError
      end).
Proof.
  intros Hc Hs. unfold read_line, is_comment in *. rewrite Hc, Hs.
  reflexivity.
Qed.

Lemma read_line_length (st : reader_state) (line : string) (args : list string) :
  is_comment line = false -> split line = "Length" :: args ->
  read_line st line = Ok st.
Proof.
  intros Hc Hs. unfold read_line, is_comment in *. rewrite Hc, Hs.
  reflexivity.
Qed.

Lemma is_comment_join (c : ascii) (w : string) (ws : list string) :
  Ascii.eqb c "#" = false -> is_comment (join (String c w :: ws)) = false.
Proof.
  intros Hc. unfold is_comment, startswith.
  destruct ws as [ | w' ws ]; [ | rewrite join_cons ]; cbn [join String.concat append prefix];
    destruct (ascii_dec "#" c) as [<- | ]; try reflexivity; discriminate.
Qed.

(** The five lines of the header set the domain and the dimensions. *)
Lemma header_read (decimals : nat) (low high : Q) (size : nat) (one : bool) :
  let header :=
    map strip
      ["Version 1";
       join ["From"; format_float decimals low; format_float decimals high];
       join ["Length"; str_N (N.of_nat size)];
       join ["Components"; if one then "1" else "3"];
       "{"] in
  filter nonempty_line header = header /\
  read_lines initial_state header
  = Ok {| domain_min := round_decimals decimals low;
          domain_max := round_decimals decimals high;
          dimensions := if one then 1%Z else 2%Z;
          data := []; comments := [] |}.
Proof.
  cbv zeta.
  set (from := ["From"; format_float decimals low;
                format_float decimals high]).
  set (len := ["Length"; str_N (N.of_nat size)]).
  assert (Hfrom : forallb is_token from = true).
  { unfold from. cbn [forallb]. rewrite !format_float_token. reflexivity. }
  assert (Hlen : forallb is_token len = true).
  { unfold len. cbn [forallb]. rewrite str_N_token. reflexivity. }
  destruct (strip_join from ltac:(discriminate) Hfrom) as [Hsf _].
  destruct (strip_join len ltac:(discriminate) Hlen) as [Hsl _].
  destruct (rstrip_join from ltac:(discriminate) Hfrom) as [_ Hnf].
  destruct (rstrip_join len ltac:(discriminate) Hlen) as [_ Hnl].
  cbn [map]. rewrite Hsf, Hsl.
  change (strip "Version 1") with "Version 1"%string.
  change (strip "{") with "{"%string.
  assert (Hcomp : strip (join ["Components"; if one then "1" else "3"])
                  = join ["Components"; if one then "1" else "3"])
    by (destruct one; reflexivity).
  rewrite Hcomp. split.
  - cbn [filter].
    rewrite (nonempty_line_spec _ Hnf), (nonempty_line_spec _ Hnl).
    destruct one; reflexivity.
  - cbn [read_lines].
    change (read_line initial_state "Version 1") with (Ok initial_state).
    cbn [bind].
    rewrite (read_line_from initial_state (join from)
               [format_float decimals low; format_float decimals high]);
      [ | apply is_comment_join; reflexivity | apply split_join; assumption ].
    cbn [parse_floats]. rewrite !parse_format_float. cbn [bind].
    rewrite (read_line_length _ (join len) [str_N (N.of_nat size)]);
      [ | apply is_comment_join; reflexivity | apply split_join; assumption ].
    cbn [bind]. destruct one; reflexivity.
Qed.

(** *** Writing, then reading *)

Lemma no_line_break_join (ws : list string) :
  forallb no_line_break ws = true -> no_line_break (join ws) = true.
Proof.
  unfold no_line_break.
  induction ws as [ | w [ | w' ws ] IH ]; cbn [forallb]; intros H.
  - reflexivity.
  - apply andb_true_iff in H as [Hw _]. exact Hw.
  - apply andb_true_iff in H as [Hw Hws].
    rewrite join_cons, string_all_app, Hw. cbn [string_all andb].
    rewrite (IH Hws). reflexivity.
Qed.

Lemma str_N_no_line_break (n : N) : no_line_break (str_N n) = true.
Proof.
  apply (string_all_impl is_digit);
    [ | apply string_all_digits_fixed ].
  intros a Ha. apply digit_char_facts in Ha.
  apply numeral_char_facts in Ha as (_ & -> & _). reflexivity.
Qed.

Lemma forallb_no_line_break_floats (decimals : nat) (row : list Q) :
  forallb no_line_break (map (format_float decimals) row) = true.
Proof.
  induction row; cbn [map forallb]; [ reflexivity | ].
  rewrite IHrow. unfold no_line_break at 1.
  rewrite format_float_no_line_break. reflexivity.
Qed.

Lemma written_lines_no_line_break
  (decimals : nat) (low high : Q) (size : nat) (one : bool)
  (rows : list (list Q)) (comments : list string) :
  forallb no_line_break comments = true ->
  forallb no_line_break
    (written_lines decimals low high size (if one then "1" else "3")
       rows comments) = true.
Proof.
  intros Hc. unfold written_lines.
  assert (Hfrom : no_line_break
                    (join ["From"; format_float decimals low;
                           format_float decimals high]) = true).
  { apply no_line_break_join.
    apply (forallb_no_line_break_floats decimals [low; high]). }
  assert (Hlen : no_line_break (join ["Length"; str_N (N.of_nat size)])
                 = true).
  { apply no_line_break_join. cbn [forallb].
    rewrite str_N_no_line_break. reflexivity. }
  assert (Hcomp : no_line_break
                    (join ["Components"; if one then "1" else "3"]) = true)
    by (destruct one; reflexivity).
  assert (Hrows : forallb no_line_break
                    (map (fun row =>
                            String " "
                              (join (map (format_float decimals) row)))
                         rows) = true).
  { apply forallb_forall. intros line Hin.
    apply in_map_iff in Hin as (row & <- & _).
    unfold no_line_break. cbn [string_all].
    apply andb_true_iff. split; [ reflexivity | ].
    apply no_line_break_join. apply forallb_no_line_break_floats. }
  assert (Hcoms : forallb no_line_break
                    (map (fun comment => ("# " ++ comment)%string) comments)
                  = true).
  { apply forallb_forall. intros line Hin.
    apply in_map_iff in Hin as (c & <- & Hin).
    rewrite forallb_forall in Hc. apply (Hc c Hin). }
  rewrite !forallb_app, Hrows, Hcoms.
  cbn [forallb]. rewrite Hfrom, Hlen, Hcomp. reflexivity.
Qed.

Lemma parse_floats_format (decimals : nat) (row : list Q) :
  parse_floats (map (format_float decimals) row)
  = Ok (map (round_decimals decimals) row).
Proof.
  induction row as [ | v row IH ]; cbn [map parse_floats]; [ reflexivity | ].
  rewrite parse_format_float, IH. reflexivity.
Qed.

Lemma parse_rows_format (decimals : nat) (rows : list (list Q)) :
  parse_rows (map (map (format_float decimals)) rows)
  = Ok (map (map (round_decimals decimals)) rows).
Proof.
  induction rows as [ | row rows IH ]; cbn [map parse_rows]; [ reflexivity | ].
  rewrite parse_floats_format, IH. reflexivity.
Qed.

(** The state of the reader after the loop, on the text the writer
    produces. *)
Lemma read_written_lines
  (decimals : nat) (low high : Q) (size : nat) (one : bool)
  (rows : list (list Q)) (comments : list string) :
  Forall (fun row => row <> []) rows ->
  forallb no_line_break comments = true ->
  read_lines initial_state
    (stripped_lines
       (text_of_lines
          (written_lines decimals low high size (if one then "1" else "3")
             rows comments)))
  = Ok {| domain_min := round_decimals decimals low;
          domain_max := round_decimals decimals high;
          dimensions := if one then 1%Z else 2%Z;
          data := map (map (format_float decimals)) rows;
          Sony_spi1d.comments := map strip comments |}.
Proof.
  intros Hrows Hc.
  rewrite stripped_lines_text_of_lines
    by (apply written_lines_no_line_break; assumption).
  unfold written_lines. rewrite map_app, filter_app.
  destruct (header_read decimals low high size one) as [Hhf Hhr].
  destruct (tail_lines_read decimals rows comments Hrows)
    as (Htf & Htp & Htd & Htc).
  cbv zeta in *.
  change (fun line : string => negb (line =? "")%string)
    with nonempty_line.
  rewrite Hhf, Htf, read_lines_app, Hhr. cbn [bind].
  rewrite (read_lines_plain _ _ Htp).
  cbn [domain_min domain_max dimensions data Sony_spi1d.comments].
  rewrite Htd, Htc. reflexivity.
Qed.

(** The file a LUT that passes the preconditions is written to, with a
    number of decimals that is not negative. *)
Lemma write_LUT_text
  (fs : file_system) (LUT : LUT_argument) (path : string) (decimals : Z)
  (LUTxD : AbstractLUT) (low high : Q) :
  first_LUT LUT = Ok LUTxD ->
  write_precondition_violated LUTxD = false ->
  printed_domain LUTxD = [low; high] ->
  writable fs path = true -> (0 <= decimals)%Z ->
  write_LUT_SonySPI1D fs LUT path decimals
  = (Ok true,
     with_file fs path
       (text_of_lines (lines_of_LUT (Z.to_nat decimals) low high LUTxD))).
Proof.
  intros Hfirst Hpre Hdom Hw Hdec.
  unfold write_LUT_SonySPI1D, write_preconditions. rewrite Hfirst.
  unfold write_precondition_violated in Hpre.
  apply orb_false_iff in Hpre as [Hpre Huni].
  apply orb_false_iff in Hpre as [Hexp Hkind].
  apply negb_false_iff in Hkind.
  cbn [bind]. rewrite Hexp, Hkind. cbn [negb attest bind].
  apply Z.ltb_ge in Hdec.
  destruct LUTxD as [l | l | explicit]; [ | | discriminate ].
  - cbn [printed_domain] in Hdom. rewrite Hdom, Hw, Hdec.
    f_equal. f_equal. cbn [lines_of_LUT].
    rewrite <- write_body_lines. f_equal. f_equal.
    rewrite map_map. reflexivity.
  - cbn [printed_domain] in Hdom. apply negb_false_iff in Huni.
    rewrite Huni. cbn [attest bind]. rewrite Hdom, Hw, Hdec.
    f_equal. f_equal. cbn [lines_of_LUT].
    rewrite <- write_body_lines. f_equal. f_equal.
    rewrite map_map. apply map_ext. intros [[r g] b]. reflexivity.
Qed.

(** The file a 1D LUT with an implicit domain is written to. *)
Lemma write_LUT1D_text
  (fs : file_system) (l : LUT1D) (path : string) (decimals : nat)
  (low high : Q) :
  LUT1D_domain l = [low; high] -> writable fs path = true ->
  write_LUT_SonySPI1D fs (Single (LUT_1D l)) path (Z.of_nat decimals)
  = (Ok true,
     with_file fs path
       (text_of_lines
          (written_lines decimals low high (List.length (LUT1D_table l)) "1"
             (map (fun x => [x]) (LUT1D_table l)) (LUT1D_comments l)))).
Proof.
  intros Hdom Hw.
  rewrite (write_LUT_text fs (Single (LUT_1D l)) path _ (LUT_1D l) low high
             eq_refl); try assumption; try lia.
  - rewrite Nat2Z.id. reflexivity.
  - unfold write_precondition_violated.
    cbn [is_domain_explicit is_1D_or_3x1D]. rewrite Hdom. reflexivity.
Qed.

Lemma np_unique_uniform (low high : Q) :
  (low < high)%Q ->
  np_unique (flatten [(low, low, low); (high, high, high)]) = [low; high].
Proof.
  intros H. unfold np_unique, flatten. cbn [flat_map app fold_right].
  assert (Hhh : Qcompare high high = Eq) by (apply Qeq_alt; reflexivity).
  assert (Hll : Qcompare low low = Eq) by (apply Qeq_alt; reflexivity).
  assert (Hlh : Qcompare low high = Lt) by (apply Qlt_alt; assumption).
  do 6 (cbn [insert_unique]; rewrite ?Hhh, ?Hll, ?Hlh).
  reflexivity.
Qed.

(** The file a 3x1D LUT with an implicit, uniform domain is written to. *)
Lemma write_LUT3x1D_text
  (fs : file_system) (l : LUT3x1D) (path : string) (decimals : nat)
  (low high : Q) :
  LUT3x1D_domain l = [(low, low, low); (high, high, high)] ->
  (low < high)%Q -> writable fs path = true ->
  write_LUT_SonySPI1D fs (Single (LUT_3x1D l)) path (Z.of_nat decimals)
  = (Ok true,
     with_file fs path
       (text_of_lines
          (written_lines decimals low high (List.length (LUT3x1D_table l))
             "3" (map row_of_triple (LUT3x1D_table l))
             (LUT3x1D_comments l)))).
Proof.
  intros Hdom Hlt Hw.
  pose proof (np_unique_uniform low high Hlt) as Huni.
  rewrite (write_LUT_text fs (Single (LUT_3x1D l)) path _ (LUT_3x1D l)
             low high eq_refl); try assumption; try lia.
  - rewrite Nat2Z.id. reflexivity.
  - unfold write_precondition_violated.
    cbn [is_domain_explicit is_1D_or_3x1D]. rewrite Hdom, Huni. reflexivity.
  - cbn [printed_domain]. rewrite Hdom. exact Huni.
Qed.

Lemma file_with_file (fs : file_system) (path text : string) :
  file (with_file fs path text) path = Some text.
Proof. unfold with_file. cbn [file]. rewrite String.eqb_refl. reflexivity. Qed.

(** *** The outcomes of the writer *)

Lemma length_2_inv {A : Type} (l : list A) :
  List.length l = 2%nat -> exists a b, l = [a; b].
Proof.
  destruct l as [ | a [ | b [ | c l ] ] ]; try discriminate.
  intros _. exists a, b. reflexivity.
Qed.

(** A LUT that violates no precondition has two bounds to print. *)
Lemma printed_domain_bounds (LUTxD : AbstractLUT) :
  write_precondition_violated LUTxD = false ->
  exists low high, printed_domain LUTxD = [low; high].
Proof.
  unfold write_precondition_violated. intros Hpre.
  apply orb_false_iff in Hpre as [Hpre Huni].
  apply orb_false_iff in Hpre as [Hexp Hkind].
  destruct LUTxD as [l | l | explicit]; [ | | discriminate ].
  - cbn in Hexp. apply negb_false_iff, Nat.eqb_eq in Hexp.
    exact (length_2_inv _ Hexp).
  - apply negb_false_iff, Nat.eqb_eq in Huni.
    exact (length_2_inv _ Huni).
Qed.

(** C8, as the specification states it, fails: a call that violates none
    of the three preconditions does not always write the file and return
    [True].  With a negative number of decimals the writer opens the
    file, writes the version line and raises a [ValueError] at the format
    of the [From] line; with an empty [LUTSequence] it raises an
    [IndexError] before any attestation. *)
Lemma write_raises_without_precondition_error :
  write_precondition_violated (LUT_1D example_LUT1D) = false /\
  writable empty_fs "a.spi1d" = true /\
  fst (write_LUT_SonySPI1D empty_fs (Single (LUT_1D example_LUT1D))
         "a.spi1d" (-1)) = Raise ValueError /\
  file (snd (write_LUT_SonySPI1D empty_fs (Single (LUT_1D example_LUT1D))
               "a.spi1d" (-1))) "a.spi1d" = Some version_line /\
  fst (write_LUT_SonySPI1D empty_fs (LUTSequence []) "a.spi1d" 7)
  = Raise IndexError.
Proof. repeat split. Qed.

(** C8, amended: the outcomes of the writer, in the order of the source.
    An empty [LUTSequence] raises an [IndexError].  Otherwise, on the LUT
    itself or the first of the sequence: an explicit domain, then a LUT
    that is neither 1D nor 3x1D, then a 3x1D LUT whose flattened domain
    does not reduce to 2 distinct values, each raise their attestation
    error.  All of these leave the file system as it was.  When no
    precondition is violated the file is opened: a path that cannot be
    opened raises an [OSError] and leaves the file system as it was; a
    negative number of decimals raises a [ValueError] and leaves a file
    with the version line alone; with a number of decimals from 0 to
    [INT_MAX] the writer returns [True] and the file holds the header, a
    line for each row, the closing brace and the comments. *)
Theorem write_outcomes
  (fs : file_system) (LUT : LUT_argument) (path : string) (decimals : Z) :
  let outcome := write_LUT_SonySPI1D fs LUT path decimals in
  (LUT = LUTSequence [] -> outcome = (Raise IndexError, fs)) /\
  (forall LUTxD : AbstractLUT,
     first_LUT LUT = Ok LUTxD ->
     (is_domain_explicit LUTxD = true ->
      outcome = (Raise (AssertionError LUT_domain_must_be_implicit), fs)) /\
     (is_domain_explicit LUTxD = false -> is_1D_or_3x1D LUTxD = false ->
      outcome
      = (Raise (AssertionError LUT_must_be_either_a_1D_or_3x1D_LUT), fs)) /\
     (is_domain_explicit LUTxD = false -> is_1D_or_3x1D LUTxD = true ->
      write_precondition_violated LUTxD = true ->
      outcome
      = (Raise (AssertionError Non_uniform_LUT_domain_is_unsupported), fs)) /\
     (write_precondition_violated LUTxD = false ->
      (writable fs path = false -> outcome = (Raise OSError, fs)) /\
      (writable fs path = true -> (decimals < 0)%Z ->
       outcome = (Raise ValueError, with_file fs path version_line)) /\
      (writable fs path = true -> (0 <= decimals <= INT_MAX)%Z ->
       exists low high,
         printed_domain LUTxD = [low; high] /\
         outcome
         = (Ok true,
            with_file fs path
              (text_of_lines
                 (lines_of_LUT (Z.to_nat decimals) low high LUTxD)))))).
Proof.
  cbv zeta. split.
  { intros ->. reflexivity. }
  intros LUTxD Hfirst.
  split; [ | split; [ | split ] ].
  - intros Hexp. unfold write_LUT_SonySPI1D, write_preconditions.
    rewrite Hfirst. cbn [bind]. rewrite Hexp. reflexivity.
  - intros Hexp Hkind. unfold write_LUT_SonySPI1D, write_preconditions.
    rewrite Hfirst. cbn [bind]. rewrite Hexp, Hkind. reflexivity.
  - intros Hexp Hkind Hpre.
    unfold write_LUT_SonySPI1D, write_preconditions.
    rewrite Hfirst. cbn [bind]. rewrite Hexp, Hkind. cbn [negb attest bind].
    unfold write_precondition_violated in Hpre.
    rewrite Hexp, Hkind in Hpre. cbn [negb orb] in Hpre.
    destruct LUTxD as [l | l | explicit]; try discriminate.
    apply negb_true_iff in Hpre. rewrite Hpre. reflexivity.
  - intros Hpre.
    destruct (printed_domain_bounds LUTxD Hpre) as (low & high & Hdom).
    split; [ | split ].
    + intros Hw. unfold write_LUT_SonySPI1D, write_preconditions.
      rewrite Hfirst. unfold write_precondition_violated in Hpre.
      apply orb_false_iff in Hpre as [Hpre Huni].
      apply orb_false_iff in Hpre as [Hexp Hkind].
      apply negb_false_iff in Hkind.
      cbn [bind]. rewrite Hexp, Hkind. cbn [negb attest bind].
      destruct LUTxD as [l | l | explicit]; [ | | discriminate ].
      * rewrite Hw. reflexivity.
      * apply negb_false_iff in Huni. rewrite Huni. cbn [attest bind].
        rewrite Hw. reflexivity.
    + intros Hw Hdec. unfold write_LUT_SonySPI1D, write_preconditions.
      rewrite Hfirst. unfold write_precondition_violated in Hpre.
      apply orb_false_iff in Hpre as [Hpre Huni].
      apply orb_false_iff in Hpre as [Hexp Hkind].
      apply negb_false_iff in Hkind.
      cbn [bind]. rewrite Hexp, Hkind. cbn [negb attest bind].
      apply Z.ltb_lt in Hdec.
      destruct LUTxD as [l | l | explicit]; [ | | discriminate ].
      * cbn [printed_domain] in Hdom. rewrite Hdom, Hw, Hdec. reflexivity.
      * cbn [printed_domain] in Hdom. apply negb_false_iff in Huni.
        rewrite Huni. cbn [attest bind]. rewrite Hdom, Hw, Hdec.
        reflexivity.
    + intros Hw [Hdec _]. exists low, high. split; [ exact Hdom | ].
      apply write_LUT_text; assumption.
Qed.

Lemma write_outcomes_witness :
  write_LUT_SonySPI1D empty_fs (Single (LUT_3x1D non_uniform_LUT3x1D))
    "a.spi1d" 7
  = (Raise (AssertionError Non_uniform_LUT_domain_is_unsupported),
     empty_fs) /\
  write_LUT_SonySPI1D empty_fs (Single (LUT_1D example_LUT1D)) "a.spi1d" (-1)
  = (Raise ValueError, with_file empty_fs "a.spi1d" version_line) /\
  exists low high,
    printed_domain (LUT_1D example_LUT1D) = [low; high] /\
    write_LUT_SonySPI1D empty_fs (Single (LUT_1D example_LUT1D)) "a.spi1d" 2
    = (Ok true,
       with_file empty_fs "a.spi1d"
         (text_of_lines
            (lines_of_LUT (Z.to_nat 2) low high (LUT_1D example_LUT1D)))).
Proof.
  pose proof (proj2 (write_outcomes empty_fs
                       (Single (LUT_3x1D non_uniform_LUT3x1D)) "a.spi1d" 7)
                (LUT_3x1D non_uniform_LUT3x1D) eq_refl) as H3.
  pose proof (proj2 (write_outcomes empty_fs
                       (Single (LUT_1D example_LUT1D)) "a.spi1d" (-1))
                (LUT_1D example_LUT1D) eq_refl) as Hneg.
  pose proof (proj2 (write_outcomes empty_fs
                       (Single (LUT_1D example_LUT1D)) "a.spi1d" 2)
                (LUT_1D example_LUT1D) eq_refl) as Hok.
  split; [ | split ].
  - exact (proj1 (proj2 (proj2 H3)) eq_refl eq_refl eq_refl).
  - exact (proj1 (proj2 (proj2 (proj2 (proj2 Hneg)) eq_refl)) eq_refl
             eq_refl).
  - assert (H2 : (0 <= 2 <= INT_MAX)%Z) by (unfold INT_MAX; lia).
    exact (proj2 (proj2 (proj2 (proj2 (proj2 Hok)) eq_refl)) eq_refl H2).
Defined.

Lemma as_float_array_format (decimals : nat) (rows : list (list Q)) :
  rows <> [] ->
  same_width (map (map (round_decimals decimals)) rows) = true ->
  as_float_array (map (map (format_float decimals)) rows)
  = Ok (nd2 (map (map (round_decimals decimals)) rows)).
Proof.
  intros Hne Hw. unfold as_float_array.
  destruct (map (map (format_float decimals)) rows) eqn:Hm.
  - destruct rows; [ congruence | discriminate ].
  - rewrite <- Hm, parse_rows_format. cbn [bind]. rewrite Hw. reflexivity.
Qed.

Lemma same_width_triples (ts : list (Q * Q * Q)) :
  same_width (map row_of_triple ts) = true.
Proof.
  destruct ts as [ | [[r g] b] ts ]; cbn; [ reflexivity | ].
  induction ts as [ | [[r' g'] b'] ts IH ]; cbn; auto.
Qed.

Lemma as_triples_rows (ts : list (Q * Q * Q)) :
  as_triples (map row_of_triple ts) = Some ts.
Proof.
  induction ts as [ | [[r g] b] ts IH ]; cbn [map as_triples]; [ reflexivity | ].
  rewrite IH. reflexivity.
Qed.

(** *** Files without a [From] and a [Components] line *)

(** The lines of a file are plain when none is a [From] or a [Components]
    line. *)
Lemma plain_lines (text : string) (lines : list string) :
  (forall line, In line lines -> In line (stripped_lines text)) ->
  (forall line, In line lines ->
                keyword line <> Some "From" /\
                keyword line <> Some "Components") ->
  Forall plain_line lines.
Proof.
  intros Hsub Hno. apply Forall_forall. intros line Hin.
  destruct (Hno line Hin) as [HF HC].
  destruct (stripped_lines_spec text line (Hsub line Hin)) as (Hne & l & ->).
  repeat split; try assumption.
  right. apply split_strip_nonempty. assumption.
Qed.

(** Rows of one number each, two at least, make a 1D table. *)
Lemma one_number_rows (rows : list (list string)) (xs : list Q) :
  parse_rows rows = Ok (map (fun x => [x]) xs) ->
  (2 <= List.length xs)%nat ->
  bind (as_float_array rows) (fun table => Ok (np_squeeze table))
  = Ok (nd1 xs).
Proof.
  intros Hrows Hlen. unfold as_float_array.
  destruct rows as [ | row rows' ] eqn:Hr.
  { cbn in Hrows. injection Hrows as Hnil.
    destruct xs; [ cbn in Hlen; lia | discriminate ]. }
  rewrite Hrows. cbn [bind]. rewrite same_width_column. cbn [bind].
  rewrite squeeze_column by assumption. reflexivity.
Qed.

(** Rows of three numbers each make a table of triples. *)
Lemma three_number_rows (rows : list (list string)) (ts : list (Q * Q * Q)) :
  parse_rows rows = Ok (map row_of_triple ts) ->
  (2 <= List.length ts)%nat ->
  as_float_array rows = Ok (nd2 (map row_of_triple ts)).
Proof.
  intros Hrows Hlen. unfold as_float_array.
  destruct rows as [ | row rows' ] eqn:Hr.
  { cbn in Hrows. injection Hrows as Hnil.
    destruct ts; [ cbn in Hlen; lia | discriminate ]. }
  rewrite Hrows. cbn [bind]. rewrite same_width_triples. reflexivity.
Qed.

(** Rows of different widths make no array. *)
Lemma ragged_rows (rows : list (list string)) (parsed : list (list Q)) :
  parse_rows rows = Ok parsed -> same_width parsed = false ->
  as_float_array rows = Raise ValueError.
Proof.
  intros Hrows Hw. unfold as_float_array.
  destruct rows as [ | row rows' ] eqn:Hr.
  { cbn in Hrows. injection Hrows as <-. discriminate. }
  rewrite Hrows. cbn [bind]. rewrite Hw. reflexivity.
Qed.

(** C10, as the specification states it, fails: a file without [From] and
    [Components] lines is not read whatever its numeric rows.  With the
    rows [0.0] and [1.0 2.0] the rows make no array, and the reader raises
    a [ValueError]. *)
Lemma read_defaults_fails_on_ragged_rows :
  map keyword (stripped_lines ragged_file)
  = [Some "Version"; Some "{"; Some "0.0"; Some "1.0"; Some "}"] /\
  read_LUT_SonySPI1D (fun path => path)
    (with_file empty_fs "ragged.spi1d" ragged_file) "ragged.spi1d"
  = Raise ValueError.
Proof. split; vm_compute; reflexivity. Qed.

(** C10, amended: when no line of the file is a [From] or a [Components]
    line, the loop of the reader does not fail and ends with the defaults
    in place, the domain [[0, 1]] and the dimensions [1], with the rows
    and the comments of the file.  When every row holds one number and
    there are at least two rows, the result is the LUT1D of these numbers
    over the domain [[0, 1]]; when the rows differ in width the reader
    raises a [ValueError]. *)
Theorem read_defaults
  (path_to_title : string -> string) (fs : file_system)
  (path text : string) :
  file fs path = Some text ->
  (forall line, In line (stripped_lines text) ->
                keyword line <> Some "From" /\
                keyword line <> Some "Components") ->
  let rows := map split (filter is_data_line (stripped_lines text)) in
  let comments := map comment_of (filter is_comment (stripped_lines text)) in
  read_lines initial_state (stripped_lines text)
  = Ok {| domain_min := 0%Q; domain_max := 1%Q; dimensions := 1%Z;
          data := rows; Sony_spi1d.comments := comments |} /\
  (forall xs : list Q,
     parse_rows rows = Ok (map (fun x => [x]) xs) ->
     (2 <= List.length xs)%nat ->
     read_LUT_SonySPI1D path_to_title fs path
     = Ok (LUT_1D {| LUT1D_table := xs;
                     LUT1D_name := path_to_title path;
                     LUT1D_domain := [0; 1]%Q;
                     LUT1D_comments := comments |})) /\
  (forall parsed : list (list Q),
     parse_rows rows = Ok parsed -> same_width parsed = false ->
     read_LUT_SonySPI1D path_to_title fs path = Raise ValueError).
Proof.
  intros Hfile Hno rows comments.
  assert (Hplain : Forall plain_line (stripped_lines text))
    by (apply (plain_lines text); auto).
  assert (Hloop :
    read_lines initial_state (stripped_lines text)
    = Ok {| domain_min := 0%Q; domain_max := 1%Q; dimensions := 1%Z;
            data := rows; Sony_spi1d.comments := comments |}).
  { rewrite (read_lines_plain initial_state _ Hplain). reflexivity. }
  split; [ exact Hloop | split ].
  - intros xs Hrows Hlen.
    pose proof (one_number_rows rows xs Hrows Hlen) as Htable.
    unfold read_LUT_SonySPI1D. rewrite Hfile, Hloop.
    cbn [bind data dimensions domain_min domain_max Sony_spi1d.comments].
    destruct (as_float_array rows) as [table | e]; [ | discriminate ].
    cbn [bind] in Htable |- *. injection Htable as ->.
    change (1 =? 1)%Z with true. cbv iota.
    unfold new_LUT1D. apply Nat.leb_le in Hlen. rewrite Hlen. reflexivity.
  - intros parsed Hrows Hw.
    unfold read_LUT_SonySPI1D. rewrite Hfile, Hloop.
    cbn [bind data]. rewrite (ragged_rows rows parsed Hrows Hw).
    reflexivity.
Qed.

Lemma read_defaults_witness :
  read_LUT_SonySPI1D (fun path => path)
    (with_file empty_fs "defaults.spi1d" defaults_file) "defaults.spi1d"
  = Ok (LUT_1D {| LUT1D_table := [0; 1]%Q;
                  LUT1D_name := "defaults.spi1d";
                  LUT1D_domain := [0; 1]%Q;
                  LUT1D_comments := ["test"] |}).
Proof.
  assert (Hfile : file (with_file empty_fs "defaults.spi1d" defaults_file)
                    "defaults.spi1d" = Some defaults_file) by reflexivity.
  assert (Hno : forall line, In line (stripped_lines defaults_file) ->
                  keyword line <> Some "From" /\
                  keyword line <> Some "Components").
  { intros line Hin. vm_compute in Hin.
    repeat (destruct Hin as [<- | Hin]; [ split; vm_compute; discriminate | ]).
    destruct Hin. }
  apply (proj1 (proj2 (read_defaults (fun path => path) _ _ _ Hfile Hno))
           [0; 1]%Q).
  - vm_compute. reflexivity.
  - cbn. lia.
Defined.

(** *** The [Components] line *)

Lemma read_line_components
  (st : reader_state) (line argument : string) (rest : list string) :
  is_comment line = false ->
  split line = "Components" :: argument :: rest ->
  read_line st line
  = bind (as_int_scalar argument) (fun component =>
      if ((component =? 1) || (component =? 3))%Z
      then Ok {| domain_min := domain_min st; domain_max := domain_max st;
                 dimensions := if (component =? 1)%Z then 1%Z else 2%Z;
                 data := data st; comments := comments st |}
      else Raise (AssertionError Only_1_or_3_components_are_supported)).
Proof.
  intros Hc Hs. unfold read_line, is_comment in *. rewrite Hc, Hs.
  cbn. destruct (as_int_scalar argument) as [c | ]; [ | reflexivity ].
  cbn [bind]. unfold attest.
  destruct ((c =? 1) || (c =? 3))%Z; reflexivity.
Qed.

Lemma as_int_scalar_in_range (token : string) (z : Z) :
  parse_int token = Some z -> (INT64_MIN <= z <= INT64_MAX)%Z ->
  as_int_scalar token = Ok z.
Proof.
  intros Hp [Hlo Hhi]. unfold as_int_scalar. rewrite Hp.
  apply Z.leb_le in Hlo, Hhi. rewrite Hlo, Hhi. reflexivity.
Qed.

(** C9, as the specification states it, fails: a [Components] value other
    than 1 or 3 does not always raise the error of the format.  The value
    [2.5] is no integer: its conversion raises a [ValueError] before the
    components are attested. *)
Lemma read_fractional_components_raises_ValueError :
  map keyword (stripped_lines fractional_components_file)
  = [Some "Version"; Some "From"; Some "Length"; Some "Components";
     Some "{"; Some "0.0"; Some "1.0"; Some "}"] /\
  nth_error (stripped_lines fractional_components_file) 3
  = Some "Components 2.5" /\
  read_LUT_SonySPI1D (fun path => path)
    (with_file empty_fs "c.spi1d" fractional_components_file) "c.spi1d"
  = Raise ValueError /\
  read_LUT_SonySPI1D (fun path => path)
    (with_file empty_fs "c.spi1d" fractional_components_file) "c.spi1d"
  <> Raise (AssertionError Only_1_or_3_components_are_supported).
Proof.
  repeat split; try (vm_compute; reflexivity).
  vm_compute. discriminate.
Qed.

(** C9, amended: on a [Components] line with a value of at most 4300
    characters, reached without an error.  A value that is no integer text raises a [ValueError], and an
    integer beyond 64 bits an [OverflowError].  An integer other than 1
    and 3 raises the attestation error ["Only 1 or 3 components are
    supported!"].  With the value 1 or 3, and no [From] or [Components]
    line after it: when every row of the file holds one number, with two
    rows at least and the bounds of the domain in order, the value 1 gives
    the LUT1D of these numbers over the domain [[min, max]]; when every
    row holds three numbers, with two rows at least, the value 3 gives the
    LUT3x1D of these rows over the domain with the rows [[min, min, min]]
    and [[max, max, max]]. *)
Theorem read_components
  (path_to_title : string -> string) (fs : file_system)
  (path text : string) (before after : list string)
  (line argument : string) (rest : list string) (st : reader_state) :
  file fs path = Some text ->
  stripped_lines text = (before ++ line :: after)%list ->
  read_lines initial_state before = Ok st ->
  is_comment line = false ->
  split line = "Components" :: argument :: rest ->
  (String.length argument <= int_max_str_digits)%nat ->
  let rows := (data st ++ map split (filter is_data_line after))%list in
  let comments :=
    (comments st ++ map comment_of (filter is_comment after))%list in
  (parse_int argument = None ->
   read_LUT_SonySPI1D path_to_title fs path = Raise ValueError) /\
  (forall c : Z,
     parse_int argument = Some c ->
     ((c < INT64_MIN)%Z \/ (INT64_MAX < c)%Z ->
      read_LUT_SonySPI1D path_to_title fs path = Raise OverflowError) /\
     ((INT64_MIN <= c <= INT64_MAX)%Z -> c <> 1%Z -> c <> 3%Z ->
      read_LUT_SonySPI1D path_to_title fs path
      = Raise (AssertionError Only_1_or_3_components_are_supported)) /\
     ((forall l, In l after ->
                 keyword l <> Some "From" /\ keyword l <> Some "Components") ->
      (c = 1%Z ->
       forall xs : list Q,
         parse_rows rows = Ok (map (fun x => [x]) xs) ->
         (2 <= List.length xs)%nat ->
         Qltb (domain_min st) (domain_max st) = true ->
         read_LUT_SonySPI1D path_to_title fs path
         = Ok (LUT_1D {| LUT1D_table := xs;
                         LUT1D_name := path_to_title path;
                         LUT1D_domain := [domain_min st; domain_max st];
                         LUT1D_comments := comments |})) /\
      (c = 3%Z ->
       forall ts : list (Q * Q * Q),
         parse_rows rows = Ok (map row_of_triple ts) ->
         (2 <= List.length ts)%nat ->
         read_LUT_SonySPI1D path_to_title fs path
         = Ok (LUT_3x1D
                 {| LUT3x1D_table := ts;
                    LUT3x1D_name := path_to_title path;
                    LUT3x1D_domain :=
                      [(domain_min st, domain_min st, domain_min st);
                       (domain_max st, domain_max st, domain_max st)];
                    LUT3x1D_comments := comments |})))).
Proof.
  intros Hfile Hlines Hbefore Hc Hs _ rows comments.
  pose proof (read_line_components st line argument rest Hc Hs) as Hline.
  assert (Hread : forall r,
    read_line st line = r ->
    read_lines initial_state (stripped_lines text)
    = bind r (fun st1 => read_lines st1 after)).
  { intros r <-. rewrite Hlines, read_lines_app, Hbefore. reflexivity. }
  split.
  { intros Hint. unfold read_LUT_SonySPI1D. rewrite Hfile.
    rewrite (Hread (Raise ValueError)); [ reflexivity | ].
    rewrite Hline. unfold as_int_scalar. rewrite Hint. reflexivity. }
  intros c Hint. split; [ | split ].
  - intros Hout. unfold read_LUT_SonySPI1D. rewrite Hfile.
    rewrite (Hread (Raise OverflowError)); [ reflexivity | ].
    rewrite Hline. unfold as_int_scalar. rewrite Hint.
    destruct Hout as [Hlo | Hhi].
    + apply Z.leb_gt in Hlo. rewrite Hlo. reflexivity.
    + apply Z.leb_gt in Hhi. rewrite Hhi, andb_false_r. reflexivity.
  - intros Hrange H1 H3. unfold read_LUT_SonySPI1D. rewrite Hfile.
    rewrite (Hread (Raise (AssertionError
                             Only_1_or_3_components_are_supported)));
      [ reflexivity | ].
    rewrite Hline, (as_int_scalar_in_range _ _ Hint Hrange). cbn [bind].
    apply Z.eqb_neq in H1, H3. rewrite H1, H3. reflexivity.
  - intros Hafter.
    assert (Hplain : Forall plain_line after).
    { apply (plain_lines text); [ | assumption ].
      intros l Hl. rewrite Hlines. apply in_or_app. right. right.
      assumption. }
    assert (Hloop : c = 1%Z \/ c = 3%Z ->
      read_lines initial_state (stripped_lines text)
      = Ok {| domain_min := domain_min st; domain_max := domain_max st;
              dimensions := if (c =? 1)%Z then 1%Z else 2%Z;
              data := rows; Sony_spi1d.comments := comments |}).
    { intros Hval.
      assert (Hrange : (INT64_MIN <= c <= INT64_MAX)%Z)
        by (destruct Hval; subst c; split; discriminate).
      rewrite (Hread _ Hline), (as_int_scalar_in_range _ _ Hint Hrange).
      cbn [bind].
      replace ((c =? 1) || (c =? 3))%Z with true
        by (destruct Hval; subst c; reflexivity).
      cbv iota. cbn [bind].
      rewrite (read_lines_plain _ _ Hplain). reflexivity. }
    split.
    + intros -> xs Hrows Hlen Hord.
      pose proof (one_number_rows rows xs Hrows Hlen) as Htable.
      unfold read_LUT_SonySPI1D. rewrite Hfile, Hloop by (left; reflexivity).
      cbn [bind data dimensions domain_min domain_max Sony_spi1d.comments].
      destruct (as_float_array rows) as [table | e]; [ | discriminate ].
      cbn [bind] in Htable |- *. injection Htable as ->.
      change (1 =? 1)%Z with true. cbv iota.
      unfold new_LUT1D. apply Nat.leb_le in Hlen. rewrite Hlen, Hord.
      reflexivity.
    + intros -> ts Hrows Hlen.
      pose proof (three_number_rows rows ts Hrows Hlen) as Htable.
      unfold read_LUT_SonySPI1D. rewrite Hfile, Hloop by (right; reflexivity).
      cbn [bind data dimensions domain_min domain_max Sony_spi1d.comments].
      rewrite Htable. cbn [bind].
      change (3 =? 1)%Z with false. cbv iota.
      change (2 =? 1)%Z with false. change (2 =? 2)%Z with true. cbv iota.
      unfold new_LUT3x1D. rewrite as_triples_rows.
      apply Nat.leb_le in Hlen. rewrite Hlen. reflexivity.
Qed.

Lemma read_components_witness :
  read_LUT_SonySPI1D (fun path => path)
    (with_file empty_fs "two.spi1d" two_components_file) "two.spi1d"
  = Raise (AssertionError Only_1_or_3_components_are_supported) /\
  read_LUT_SonySPI1D (fun path => path)
    (with_file empty_fs "minimal.spi1d" minimal_file) "minimal.spi1d"
  = Ok (LUT_1D {| LUT1D_table := [0; 1]%Q;
                  LUT1D_name := "minimal.spi1d";
                  LUT1D_domain := [-1 # 10; 3 # 2]%Q;
                  LUT1D_comments := ["test"] |}) /\
  read_LUT_SonySPI1D (fun path => path)
    (with_file empty_fs "three.spi1d" three_components_file) "three.spi1d"
  = Ok (LUT_3x1D
          {| LUT3x1D_table := [(0, 1 # 4, 1 # 2); (1, 1, 1)]%Q;
             LUT3x1D_name := "three.spi1d";
             LUT3x1D_domain :=
               [(-1 # 10, -1 # 10, -1 # 10); (3 # 2, 3 # 2, 3 # 2)]%Q;
             LUT3x1D_comments := ["test"] |}).
Proof.
  set (st := {| domain_min := (-1 # 10)%Q; domain_max := (3 # 2)%Q;
                dimensions := 1%Z; data := [];
                Sony_spi1d.comments := [] |}).
  assert (Hno : forall after : list string,
            forallb (fun l =>
                       match keyword l with
                       | Some k => negb (k =? "From") && negb (k =? "Components")
                       | None => true
                       end) after = true ->
            forall l, In l after ->
              keyword l <> Some "From" /\ keyword l <> Some "Components").
  { intros after Hall l Hin.
    rewrite forallb_forall in Hall. specialize (Hall l Hin).
    destruct (keyword l) as [k | ]; [ | split; discriminate ].
    apply andb_true_iff in Hall as [HF HC].
    apply negb_true_iff, String.eqb_neq in HF, HC.
    split; congruence. }
  assert (Hdigits : forall token : string,
            (String.length token <=? 1)%nat = true ->
            (String.length token <= int_max_str_digits)%nat).
  { intros token H. apply Nat.leb_le in H. unfold int_max_str_digits. lia. }
  split; [ | split ].
  - pose proof (read_components (fun path => path)
                  (with_file empty_fs "two.spi1d" two_components_file)
                  "two.spi1d" two_components_file
                  ["Version 1"; "From -0.1 1.5"; "Length 2"]
                  ["{"; "0.0 0.0"; "1.0 1.0"; "}"]
                  "Components 2" "2" [] st
                  eq_refl eq_refl eq_refl eq_refl eq_refl
                  (Hdigits "2" eq_refl)) as H.
    cbv zeta in H. destruct H as [_ H].
    destruct (H 2%Z eq_refl) as (_ & H2 & _).
    apply H2; [ split | | ]; discriminate.
  - pose proof (read_components (fun path => path)
                  (with_file empty_fs "minimal.spi1d" minimal_file)
                  "minimal.spi1d" minimal_file
                  ["Version 1"; "From -0.1 1.5"; "Length 2"]
                  ["{"; "0.0"; "1.0"; "}"; "# test"]
                  "Components 1" "1" [] st
                  eq_refl eq_refl eq_refl eq_refl eq_refl
                  (Hdigits "1" eq_refl)) as H.
    cbv zeta in H. destruct H as [_ H].
    destruct (H 1%Z eq_refl) as (_ & _ & H1).
    destruct (H1 (Hno ["{"; "0.0"; "1.0"; "}"; "# test"] eq_refl))
      as [H1D _].
    apply (H1D eq_refl [0; 1]%Q).
    + vm_compute. reflexivity.
    + cbn. lia.
    + reflexivity.
  - pose proof (read_components (fun path => path)
                  (with_file empty_fs "three.spi1d" three_components_file)
                  "three.spi1d" three_components_file
                  ["Version 1"; "From -0.1 1.5"; "Length 2"]
                  ["{"; "0.0 0.25 0.5"; "1.0 1.0 1.0"; "}"; "# test"]
                  "Components 3" "3" [] st
                  eq_refl eq_refl eq_refl eq_refl eq_refl
                  (Hdigits "3" eq_refl)) as H.
    cbv zeta in H. destruct H as [_ H].
    destruct (H 3%Z eq_refl) as (_ & _ & H3).
    destruct (H3 (Hno ["{"; "0.0 0.25 0.5"; "1.0 1.0 1.0"; "}"; "# test"]
                    eq_refl)) as [_ H3D].
    apply (H3D eq_refl [(0, 1 # 4, 1 # 2); (1, 1, 1)]%Q).
    + vm_compute. reflexivity.
    + cbn. lia.
Defined.

(** C1, as the specification states it, fails: a bound of the domain with
    more decimals than the format keeps comes back rounded, and a comment
    comes back stripped.  At 2 decimals the domain [[0, 0.125]] is read
    back as [[0, 0.12]] and the comment [" padded"] as ["padded"]. *)
Lemma round_trip_changes_domain_and_comments :
  is_domain_explicit (LUT_1D padded_LUT1D) = false /\
  exists l,
    read_LUT_SonySPI1D (fun path => path)
      (snd (write_LUT_SonySPI1D empty_fs (Single (LUT_1D padded_LUT1D))
              "padded.spi1d" 2))
      "padded.spi1d" = Ok (LUT_1D l) /\
    LUT1D_domain l = [0; 3 # 25]%Q /\
    ~ Forall2 Qeq (LUT1D_domain l) (LUT1D_domain padded_LUT1D) /\
    LUT1D_comments l = ["padded"] /\
    LUT1D_comments l <> LUT1D_comments padded_LUT1D.
Proof.
  split; [ reflexivity | ].
  eexists. split; [ vm_compute; reflexivity | ].
  cbn [LUT1D_domain LUT1D_comments padded_LUT1D].
  repeat split; try discriminate.
  intros H. inversion H as [ | ? ? ? ? _ H' ]; subst.
  inversion H' as [ | ? ? ? ? Heq _ ]; subst.
  discriminate.
Qed.

(** C1, amended: writing a 1D or a 3x1D LUT with an implicit, uniform
    domain and reading the file back yields the LUT with every number of
    its table and of its domain rounded to the decimals of the format,
    within half a unit of the last decimal place of the original, with its
    comments stripped of the white space around them, in the same order,
    and with the title of the path for a name.  This holds when the table
    has at least 2 samples, no comment contains a line break and, for a
    1D LUT, the rounded bounds of the domain are still in order. *)
Theorem write_read_round_trip
  (path_to_title : string -> string) (fs : file_system) (path : string)
  (decimals : nat) :
  writable fs path = true ->
  (forall (l : LUT1D) (low high : Q),
     LUT1D_domain l = [low; high] ->
     (2 <= List.length (LUT1D_table l))%nat ->
     Qltb (round_decimals decimals low) (round_decimals decimals high)
     = true ->
     forallb no_line_break (LUT1D_comments l) = true ->
     read_LUT_SonySPI1D path_to_title
       (snd (write_LUT_SonySPI1D fs (Single (LUT_1D l)) path
               (Z.of_nat decimals))) path
     = Ok (LUT_1D (round_trip_LUT1D decimals (path_to_title path) l))) /\
  (forall (l : LUT3x1D) (low high : Q),
     LUT3x1D_domain l = [(low, low, low); (high, high, high)] ->
     (low < high)%Q ->
     (2 <= List.length (LUT3x1D_table l))%nat ->
     forallb no_line_break (LUT3x1D_comments l) = true ->
     read_LUT_SonySPI1D path_to_title
       (snd (write_LUT_SonySPI1D fs (Single (LUT_3x1D l)) path
               (Z.of_nat decimals)))
       path
     = Ok (LUT_3x1D (round_trip_LUT3x1D decimals (path_to_title path) l))) /\
  (forall v : Q,
     (Qabs (round_decimals decimals v - v)
      <= (1 # 2) / inject_Z (Zpos (pow10 decimals)))%Q).
Proof.
  intros Hw. split; [ | split ].
  - intros l low high Hdom Hlen Hord Hc.
    rewrite (write_LUT1D_text fs l path decimals low high Hdom Hw).
    cbn [snd]. unfold read_LUT_SonySPI1D. rewrite file_with_file.
    set (rows := map (fun x => [x]) (LUT1D_table l)).
    assert (Hrows : Forall (fun row : list Q => row <> []) rows).
    { apply Forall_forall. intros row Hin.
      apply in_map_iff in Hin as (x & <- & _). discriminate. }
    pose proof (read_written_lines decimals low high
                  (List.length (LUT1D_table l)) true rows
                  (LUT1D_comments l) Hrows Hc) as Hread.
    cbv iota in Hread. rewrite Hread. cbn [bind data dimensions
      domain_min domain_max Sony_spi1d.comments].
    assert (Hcol : map (map (round_decimals decimals)) rows
                   = map (fun x => [x])
                       (map (round_decimals decimals) (LUT1D_table l))).
    { unfold rows. rewrite !map_map. reflexivity. }
    rewrite as_float_array_format.
    + cbn [bind]. rewrite Hcol, squeeze_column
        by (rewrite length_map; assumption).
      change (1 =? 1)%Z with true. cbv iota.
      unfold new_LUT1D. rewrite length_map.
      apply Nat.leb_le in Hlen. rewrite Hlen, Hord. cbn [andb bind].
      unfold round_trip_LUT1D. rewrite Hdom. reflexivity.
    + unfold rows. destruct (LUT1D_table l); [ cbn in Hlen; lia | discriminate ].
    + rewrite Hcol. apply same_width_column.
  - intros l low high Hdom Hlt Hlen Hc.
    rewrite (write_LUT3x1D_text fs l path decimals low high Hdom Hlt Hw).
    cbn [snd]. unfold read_LUT_SonySPI1D. rewrite file_with_file.
    set (rows := map row_of_triple (LUT3x1D_table l)).
    assert (Hrows : Forall (fun row : list Q => row <> []) rows).
    { apply Forall_forall. intros row Hin.
      apply in_map_iff in Hin as ([[r g] b] & <- & _). discriminate. }
    pose proof (read_written_lines decimals low high
                  (List.length (LUT3x1D_table l)) false rows
                  (LUT3x1D_comments l) Hrows Hc) as Hread.
    cbv iota in Hread. rewrite Hread. cbn [bind data dimensions
      domain_min domain_max Sony_spi1d.comments].
    assert (Hcol : map (map (round_decimals decimals)) rows
                   = map row_of_triple
                       (map (round_triple decimals) (LUT3x1D_table l))).
    { unfold rows. rewrite !map_map. apply map_ext.
      intros [[r g] b]. reflexivity. }
    rewrite as_float_array_format.
    + cbn [bind]. change (2 =? 1)%Z with false. change (2 =? 2)%Z with true.
      cbv iota. unfold new_LUT3x1D.
      rewrite Hcol, as_triples_rows, length_map.
      apply Nat.leb_le in Hlen. rewrite Hlen. cbn [bind].
      unfold round_trip_LUT3x1D. rewrite Hdom. reflexivity.
    + unfold rows.
      destruct (LUT3x1D_table l); [ cbn in Hlen; lia | discriminate ].
    + rewrite Hcol. apply same_width_triples.
  - apply round_decimals_close.
Qed.

Lemma write_read_round_trip_witness :
  read_LUT_SonySPI1D (fun path => path)
    (snd (write_LUT_SonySPI1D empty_fs (Single (LUT_1D example_LUT1D))
            "a.spi1d" 7)) "a.spi1d"
  = Ok (LUT_1D (round_trip_LUT1D 7 "a.spi1d" example_LUT1D)) /\
  read_LUT_SonySPI1D (fun path => path)
    (snd (write_LUT_SonySPI1D empty_fs (Single (LUT_3x1D example_LUT3x1D))
            "b.spi1d" 7)) "b.spi1d"
  = Ok (LUT_3x1D (round_trip_LUT3x1D 7 "b.spi1d" example_LUT3x1D)).
Proof.
  split.
  - refine (proj1 (write_read_round_trip (fun path => path) empty_fs
                     "a.spi1d" 7 eq_refl)
              example_LUT1D (-1 # 10)%Q (3 # 2)%Q eq_refl _ _ _).
    + cbn. lia.
    + vm_compute. reflexivity.
    + vm_compute. reflexivity.
  - refine (proj1 (proj2 (write_read_round_trip (fun path => path) empty_fs
                            "b.spi1d" 7 eq_refl))
              example_LUT3x1D (-1 # 10)%Q (3 # 2)%Q eq_refl _ _ _).
    + reflexivity.
    + cbn. lia.
    + vm_compute. reflexivity.
Defined.


(** *** What the writer does to the file system *)




(** X17: the writer touches no other file: after a call, whatever its
    outcome, every other path holds what it held, and the paths that can
    be opened for writing are the same. *)
Theorem write_leaves_other_files
  (fs : file_system) (LUT : LUT_argument) (path : string) (decimals : Z)
  (path' : string) :
  path' <> path ->
  let fs' := snd (write_LUT_SonySPI1D fs LUT path decimals) in
  file fs' path' = file fs path' /\
  (forall p, writable fs' p = writable fs p).
Proof.
  intros Hne. cbv zeta. apply String.eqb_neq in Hne.
  unfold write_LUT_SonySPI1D.
  destruct (write_preconditions LUT) as [[LUTxD domain] | e0];
    [ | split; reflexivity ].
  destruct (writable fs path); [ | split; reflexivity ].
  destruct domain as [ | low [ | high domain ] ];
    try destruct (decimals <? 0)%Z;
    cbn [snd with_file file writable]; rewrite Hne; split; reflexivity.
Qed.

Lemma write_leaves_other_files_witness :
  let fs := with_file empty_fs "b.spi1d" "kept" in
  file (snd (write_LUT_SonySPI1D fs (Single (LUT_1D example_LUT1D))
               "a.spi1d" 7)) "b.spi1d" = Some "kept".
Proof.
  assert (H : "b.spi1d" <> "a.spi1d") by discriminate.
  exact (proj1 (write_leaves_other_files
                  (with_file empty_fs "b.spi1d" "kept")
                  (Single (LUT_1D example_LUT1D)) "a.spi1d" 7 "b.spi1d" H)).
Defined.

(** *** What the loop of the reader passes over *)

Lemma read_line_skipped (st : reader_state) (line : string) :
  is_skipped_line line = true -> read_line st line = Ok st.
Proof.
  unfold is_skipped_line, keyword, is_comment, read_line.
  destruct (startswith line "#"); [ discriminate | ].
  destruct (split line) as [ | k args ]; [ discriminate | ].
  cbn [hd_error existsb skipped_keywords].
  case_keyword k "Version"; [ reflexivity | ].
  case_keyword k "From"; [ discriminate | ].
  case_keyword k "Length"; [ reflexivity | ].
  case_keyword k "Components"; [ discriminate | ].
  cbn [orb]. intros H. rewrite orb_false_r in H. rewrite H. reflexivity.
Qed.

(** X18: the reader passes over every line whose first token is
    [Version], [Length], an opening or a closing brace, whatever follows
    the token: a file reads the same with such a line added or removed
    anywhere.  The version number is never looked at, the [Length] is
    never compared with the number of rows, and the braces need neither
    match nor enclose the rows. *)
Theorem read_skips_structure_lines
  (st : reader_state) (before after : list string) (line : string) :
  is_skipped_line line = true ->
  read_lines st (before ++ line :: after) = read_lines st (before ++ after).
Proof.
  intros H. rewrite !read_lines_app.
  destruct (read_lines st before) as [st' | e]; cbn [bind read_lines];
    [ | reflexivity ].
  rewrite (read_line_skipped st' line H). reflexivity.
Qed.

Lemma read_skips_structure_lines_witness :
  read_lines initial_state (["Version 1"; "{"; "0.0"] ++ "Length 7" :: ["1.0"])
  = read_lines initial_state (["Version 1"; "{"; "0.0"] ++ ["1.0"]).
Proof.
  apply read_skips_structure_lines. vm_compute. reflexivity.
Defined.

(** What a line that is no comment does to the state does not depend on
    the comments read so far, and leaves them as they are. *)
Lemma read_line_with_comment (st : reader_state) (line comment : string) :
  is_comment line = false ->
  read_line (with_comment st comment) line
  = bind (read_line st line) (fun st' => Ok (with_comment st' comment)).
Proof.
  unfold is_comment, read_line. intros Hc. rewrite Hc.
  destruct (split line) as [ | k args ]; [ reflexivity | ].
  case_keyword k "Version"; [ reflexivity | ].
  case_keyword k "From".
  { destruct (parse_floats args) as [ [ | low [ | high [ | ] ] ] | ];
      reflexivity. }
  case_keyword k "Length"; [ reflexivity | ].
  case_keyword k "Components".
  { destruct args as [ | argument args ]; [ reflexivity | ].
    destruct (as_int_scalar argument) as [component | e']; cbn [bind];
      [ | reflexivity ].
    destruct ((component =? 1)%Z || (component =? 3)%Z); reflexivity. }
  destruct ((k =? "{") || (k =? "}"))%string; reflexivity.
Qed.

Lemma read_line_comment (st : reader_state) (line : string) :
  is_comment line = true ->
  read_line st line = Ok (with_comment st (comment_of line)).
Proof.
  unfold is_comment, read_line. intros Hc. rewrite Hc. reflexivity.
Qed.

(** X19: a comment may stand anywhere in the file.  A comment line and
    the line after it, when that is no comment, can change places without
    changing what is read, or the exception raised: comments are
    collected apart from the header and the rows. *)
Theorem read_comment_commutes
  (st : reader_state) (comment line : string) (rest : list string) :
  is_comment comment = true -> is_comment line = false ->
  read_lines st (comment :: line :: rest)
  = read_lines st (line :: comment :: rest).
Proof.
  intros Hc Hl. cbn [read_lines].
  rewrite (read_line_comment st comment Hc). cbn [bind].
  rewrite (read_line_with_comment st line _ Hl).
  destruct (read_line st line) as [st' | e]; cbn [bind]; [ | reflexivity ].
  rewrite (read_line_comment st' comment Hc). reflexivity.
Qed.

Lemma read_comment_commutes_witness :
  read_lines initial_state ["# a comment"; "From 0 2"; "0.5"]
  = read_lines initial_state ["From 0 2"; "# a comment"; "0.5"].
Proof.
  apply read_comment_commutes; reflexivity.
Defined.

(** *** The header lines *)

(** Only a [From] line changes the domain. *)
Lemma read_line_domain (st st' : reader_state) (line : string) :
  read_line st line = Ok st' -> keyword line <> Some "From" ->
  domain_min st' = domain_min st /\ domain_max st' = domain_max st.
Proof.
  unfold read_line, keyword, is_comment. intros H HFrom.
  destruct (startswith line "#").
  { injection H as <-. split; reflexivity. }
  destruct (split line) as [ | k args ]; [ discriminate | ].
  cbn [hd_error] in HFrom.
  case_keyword k "Version"; [ injection H as <-; split; reflexivity | ].
  case_keyword k "From"; [ congruence | ].
  case_keyword k "Length"; [ injection H as <-; split; reflexivity | ].
  case_keyword k "Components".
  { destruct args as [ | argument args ]; [ discriminate | ].
    destruct (as_int_scalar argument) as [component | e'];
      cbn [bind] in H; [ | discriminate ].
    destruct ((component =? 1)%Z || (component =? 3)%Z);
      cbn [attest bind] in H; [ | discriminate ].
    injection H as <-. split; reflexivity. }
  destruct ((k =? "{") || (k =? "}"))%string;
    injection H as <-; split; reflexivity.
Qed.

Lemma read_lines_domain (st st' : reader_state) (lines : list string) :
  read_lines st lines = Ok st' ->
  (forall line, In line lines -> keyword line <> Some "From") ->
  domain_min st' = domain_min st /\ domain_max st' = domain_max st.
Proof.
  revert st. induction lines as [ | line lines IH ]; intros st H Hno.
  - injection H as <-. split; reflexivity.
  - cbn [read_lines] in H.
    destruct (read_line st line) as [st1 | e] eqn:H1; [ | discriminate ].
    cbn [bind] in H.
    destruct (IH st1 H) as [-> ->];
      [ intros l Hl; apply Hno; right; assumption | ].
    apply (read_line_domain st st1 line H1).
    apply Hno. left. reflexivity.
Qed.

(** X20: of several [From] lines the last one counts, and of several
    [Components] lines the last one, wherever they stand: before, among
    or after the rows. *)
Theorem last_header_line_wins
  (st st' : reader_state) (before after : list string) (line : string)
  (arguments : list string) :
  is_comment line = false ->
  read_lines st (before ++ line :: after) = Ok st' ->
  (forall low high,
     split line = "From" :: arguments ->
     parse_floats arguments = Ok [low; high] ->
     (forall l, In l after -> keyword l <> Some "From") ->
     domain_min st' = low /\ domain_max st' = high) /\
  (forall argument component,
     split line = "Components" :: arguments ->
     hd_error arguments = Some argument ->
     parse_int argument = Some component ->
     (forall l, In l after -> keyword l <> Some "Components") ->
     dimensions st' = if (component =? 1)%Z then 1%Z else 2%Z).
Proof.
  intros Hc H. rewrite read_lines_app in H.
  destruct (read_lines st before) as [st0 | e]; [ | discriminate ].
  cbn [bind read_lines] in H.
  destruct (read_line st0 line) as [st1 | e] eqn:H1; [ | discriminate ].
  cbn [bind] in H. split.
  - intros low high Hs Hp Hno.
    destruct (read_lines_domain st1 st' after H Hno) as [-> ->].
    rewrite (read_line_from st0 line arguments Hc Hs), Hp in H1.
    cbn [bind] in H1. injection H1 as <-. split; reflexivity.
  - intros argument component Hs Hhd Hn Hno.
    rewrite (read_lines_dimensions st1 st' after H Hno).
    destruct arguments as [ | argument' arguments ]; [ discriminate | ].
    injection Hhd as ->.
    unfold read_line, is_comment in *. rewrite Hc, Hs in H1.
    cbn [String.eqb Ascii.eqb Bool.eqb] in H1.
    unfold as_int_scalar in H1. rewrite Hn in H1.
    destruct ((INT64_MIN <=? component)%Z && (component <=? INT64_MAX)%Z);
      cbn [bind] in H1; [ | discriminate ].
    destruct ((component =? 1)%Z || (component =? 3)%Z);
      cbn [attest bind] in H1; [ | discriminate ].
    injection H1 as <-. reflexivity.
Qed.

Lemma last_header_line_wins_witness :
  let st' :=
    {| domain_min := (-1 # 1)%Q; domain_max := (2 # 1)%Q;
       dimensions := 1%Z; data := [["0.0"]; ["1.0"]]; comments := [] |} in
  read_lines initial_state (["From 0 1"; "0.0"] ++ "From -1 2" :: ["1.0"])
  = Ok st' /\
  domain_min st' = (-1 # 1)%Q /\ domain_max st' = (2 # 1)%Q.
Proof.
  intros st'.
  assert (H : read_lines initial_state
                (["From 0 1"; "0.0"] ++ "From -1 2" :: ["1.0"]) = Ok st')
    by (vm_compute; reflexivity).
  split; [ exact H | ].
  refine (proj1 (last_header_line_wins initial_state st' ["From 0 1"; "0.0"]
                   ["1.0"] "From -1 2" ["-1"; "2"] eq_refl H)
            (-1 # 1)%Q (2 # 1)%Q eq_refl eq_refl _).
  intros l [<- | []]. discriminate.
Defined.

(** *** The invariants of the loop *)

(** The dimensions are [1] or [2] throughout the loop. *)
Lemma read_line_dimensions_1_or_2 (st st' : reader_state) (line : string) :
  read_line st line = Ok st' ->
  dimensions st = 1%Z \/ dimensions st = 2%Z ->
  dimensions st' = 1%Z \/ dimensions st' = 2%Z.
Proof.
  unfold read_line. intros H Hd.
  destruct (startswith line "#"); [ injection H as <-; assumption | ].
  destruct (split line) as [ | k args ]; [ discriminate | ].
  case_keyword k "Version"; [ injection H as <-; assumption | ].
  case_keyword k "From".
  { destruct (parse_floats args) as [ [ | low [ | high [ | ] ] ] | ];
      cbn in H; try discriminate.
    injection H as <-. assumption. }
  case_keyword k "Length"; [ injection H as <-; assumption | ].
  case_keyword k "Components".
  { destruct args as [ | argument args ]; [ discriminate | ].
    destruct (as_int_scalar argument) as [component | e'];
      cbn [bind] in H; [ | discriminate ].
    destruct ((component =? 1)%Z || (component =? 3)%Z);
      cbn [attest bind] in H; [ | discriminate ].
    injection H as <-. cbn [dimensions].
    destruct (component =? 1)%Z; auto. }
  destruct ((k =? "{") || (k =? "}"))%string;
    injection H as <-; assumption.
Qed.

Lemma read_lines_dimensions_1_or_2
  (st st' : reader_state) (lines : list string) :
  read_lines st lines = Ok st' ->
  dimensions st = 1%Z \/ dimensions st = 2%Z ->
  dimensions st' = 1%Z \/ dimensions st' = 2%Z.
Proof.
  revert st. induction lines as [ | line lines IH ]; intros st H Hd;
    cbn [read_lines] in H.
  - injection H as <-. assumption.
  - destruct (read_line st line) as [st1 | e] eqn:H1; [ | discriminate ].
    cbn [bind] in H. apply (IH st1 H).
    apply (read_line_dimensions_1_or_2 st st1 line H1 Hd).
Qed.

(** X21: the loop of the reader, on the stripped lines of a file.  Every
    line has a first token: [tokens[0]] never fails.  A line that is the
    token [Components] alone raises an [IndexError], at [tokens[1]].
    Whatever the lines, the dimensions are [1] or [2] when the loop ends:
    one of the two branches that bind [LUT] is taken. *)
Theorem read_loop_invariants (text : string) :
  (forall line, In line (stripped_lines text) -> split line <> []) /\
  (forall st line,
     is_comment line = false -> split line = ["Components"] ->
     read_line st line = Raise IndexError) /\
  (forall st,
     read_lines initial_state (stripped_lines text) = Ok st ->
     dimensions st = 1%Z \/ dimensions st = 2%Z).
Proof.
  split; [ | split ].
  - intros line Hin.
    destruct (stripped_lines_spec text line Hin) as (Hne & l & ->).
    apply split_strip_nonempty. assumption.
  - intros st line Hc Hs. unfold read_line, is_comment in *.
    rewrite Hc, Hs. reflexivity.
  - intros st Hread.
    apply (read_lines_dimensions_1_or_2 initial_state st _ Hread).
    left. reflexivity.
Qed.

(** *** White space and blank lines *)

(** X22: the reader sees a file through its stripped, non-empty lines
    only: two files whose lines differ in the white space around them, or
    in blank lines, read the same. *)
Theorem read_ignores_white_space_around_lines
  (path_to_title : string -> string) (fs fs' : file_system) (path : string)
  (lines lines' : list string) :
  forallb no_line_break lines = true ->
  forallb no_line_break lines' = true ->
  filter nonempty_line (map strip lines)
  = filter nonempty_line (map strip lines') ->
  file fs path = Some (text_of_lines lines) ->
  file fs' path = Some (text_of_lines lines') ->
  read_LUT_SonySPI1D path_to_title fs path
  = read_LUT_SonySPI1D path_to_title fs' path.
Proof.
  intros Hl Hl' Heq Hf Hf'. unfold read_LUT_SonySPI1D.
  rewrite Hf, Hf'.
  rewrite !stripped_lines_text_of_lines by assumption.
  change (fun line : string => negb (line =? "")%string) with nonempty_line.
  rewrite Heq. reflexivity.
Qed.

Lemma read_ignores_white_space_around_lines_witness :
  read_LUT_SonySPI1D (fun path => path)
    (with_file empty_fs "a.spi1d"
       (text_of_lines ["Version 1"; ""; "  From 0 2 "; "  0.0"; "   "; "1.0 "]))
    "a.spi1d"
  = read_LUT_SonySPI1D (fun path => path)
      (with_file empty_fs "a.spi1d"
         (text_of_lines ["Version 1"; "From 0 2"; "0.0"; "1.0"]))
      "a.spi1d".
Proof.
  apply (read_ignores_white_space_around_lines _ _ _ _
           ["Version 1"; ""; "  From 0 2 "; "  0.0"; "   "; "1.0 "]
           ["Version 1"; "From 0 2"; "0.0"; "1.0"]);
    vm_compute; reflexivity.
Defined.

(** *** Numbers and comments a file holds exactly *)

Lemma Qround_half_even_integer (x : Q) (z : Z) :
  (x == inject_Z z)%Q -> Qround_half_even x = z.
Proof.
  intros Hx. unfold Qround_half_even.
  assert (Hf : Qfloor x = z) by (rewrite Hx; apply Qfloor_Z).
  rewrite Hf.
  assert (Hc : Qcompare (x - inject_Z z) (1 # 2) = Lt).
  { apply Qlt_alt.
    assert (H0 : (x - inject_Z z == 0)%Q) by (rewrite Hx; ring).
    rewrite H0. reflexivity. }
  rewrite Hc. reflexivity.
Qed.

Lemma scaled_magnitude_fraction (decimals : nat) (z : Z) :
  scaled_magnitude decimals (Qred (z # pow10 decimals)) = Z.to_N (Z.abs z).
Proof.
  unfold scaled_magnitude. f_equal.
  apply Qround_half_even_integer.
  rewrite Qred_correct.
  change (Qabs (z # pow10 decimals)) with (Z.abs z # pow10 decimals).
  rewrite (Qmake_Qdiv (Z.abs z)). field. discriminate.
Qed.

Lemma round_decimals_fixed (decimals : nat) (v : Q) :
  round_decimals decimals (round_decimals decimals v)
  = round_decimals decimals v.
Proof.
  unfold round_decimals at 2.
  set (n := scaled_magnitude decimals v).
  set (z := if Qltb v 0 then (- Z.of_N n)%Z else Z.of_N n).
  unfold round_decimals. rewrite scaled_magnitude_fraction.
  assert (Hn : Z.of_N (Z.to_N (Z.abs z)) = Z.abs z)
    by (apply Z2N.id, Z.abs_nonneg).
  rewrite Hn. f_equal. f_equal.
  destruct (Qltb (Qred (z # pow10 decimals)) 0) eqn:Hneg.
  - apply Qltb_lt in Hneg. rewrite Qred_correct in Hneg.
    assert (Hz : (z < 0)%Z).
    { unfold Qlt in Hneg. cbn in Hneg. lia. }
    unfold z, n in *. destruct (Qltb v 0); lia.
  - apply Qltb_ge in Hneg. rewrite Qred_correct in Hneg.
    assert (Hz : (0 <= z)%Z).
    { unfold Qle in Hneg. cbn in Hneg. lia. }
    unfold z, n in *. destruct (Qltb v 0); lia.
Qed.

(** X23: a number written at some decimals and read back is written and
    read back as itself from then on: rounding to the decimals of the
    format is idempotent, and the numeral of a rounded number is parsed
    as that number. *)
Theorem round_decimals_idempotent (decimals : nat) (v : Q) :
  round_decimals decimals (round_decimals decimals v)
  = round_decimals decimals v /\
  parse_float (format_float decimals (round_decimals decimals v))
  = Some (round_decimals decimals v).
Proof.
  split; [ apply round_decimals_fixed | ].
  rewrite parse_format_float, round_decimals_fixed. reflexivity.
Qed.

Lemma lstrip_idempotent (s : string) : lstrip (lstrip s) = lstrip s.
Proof.
  induction s as [ | c s IH ]; [ reflexivity | ].
  destruct (isspace c) eqn:Hc.
  - rewrite lstrip_space by assumption. assumption.
  - rewrite lstrip_nonspace by assumption. apply lstrip_nonspace. assumption.
Qed.

Lemma rstrip_lstrip (s : string) :
  rstrip s = s -> rstrip (lstrip s) = lstrip s.
Proof.
  induction s as [ | c s IH ]; [ reflexivity | ].
  intros H. destruct (isspace c) eqn:Hc.
  - rewrite lstrip_space by assumption. apply IH.
    rewrite rstrip_cons in H.
    destruct (rstrip s) as [ | a r ]; [ rewrite Hc in H; discriminate | ].
    injection H as <-. reflexivity.
  - rewrite lstrip_nonspace by assumption. assumption.
Qed.

Lemma strip_idempotent (s : string) : strip (strip s) = strip s.
Proof.
  unfold strip.
  rewrite (rstrip_lstrip (rstrip s)) by apply rstrip_idempotent.
  apply lstrip_idempotent.
Qed.

Lemma string_all_lstrip (P : ascii -> bool) (s : string) :
  string_all P s = true -> string_all P (lstrip s) = true.
Proof.
  induction s as [ | c s IH ]; [ reflexivity | ].
  intros H. cbn [lstrip]. destruct (isspace c); [ | assumption ].
  cbn [string_all] in H. apply andb_true_iff in H as [_ H]. auto.
Qed.

Lemma string_all_rstrip (P : ascii -> bool) (s : string) :
  string_all P s = true -> string_all P (rstrip s) = true.
Proof.
  induction s as [ | c s IH ]; [ reflexivity | ].
  cbn [string_all]. intros H. apply andb_true_iff in H as [Hc Hs].
  rewrite rstrip_cons. specialize (IH Hs).
  destruct (rstrip s) as [ | a r ].
  - destruct (isspace c); [ reflexivity | ].
    cbn [string_all]. rewrite Hc. reflexivity.
  - cbn [string_all] in *. rewrite Hc, IH. reflexivity.
Qed.

Lemma no_line_break_strip (comments : list string) :
  forallb no_line_break comments = true ->
  forallb no_line_break (map strip comments) = true.
Proof.
  induction comments as [ | c comments IH ]; [ reflexivity | ].
  cbn [forallb map]. intros H. apply andb_true_iff in H as [Hc H].
  rewrite (IH H), andb_true_r.
  unfold no_line_break, strip in *.
  apply string_all_lstrip, string_all_rstrip. assumption.
Qed.

(** What reading the file of a 1D LUT comes to: the construction of a
    LUT1D from the rounded table, the rounded bounds and the stripped
    comments. *)
Lemma read_written_LUT1D
  (path_to_title : string -> string) (fs : file_system) (path : string)
  (decimals : nat) (l : LUT1D) (low high : Q) :
  writable fs path = true ->
  LUT1D_domain l = [low; high] ->
  (2 <= List.length (LUT1D_table l))%nat ->
  forallb no_line_break (LUT1D_comments l) = true ->
  read_LUT_SonySPI1D path_to_title
    (snd (write_LUT_SonySPI1D fs (Single (LUT_1D l)) path
            (Z.of_nat decimals))) path
  = bind (new_LUT1D (nd1 (map (round_decimals decimals) (LUT1D_table l)))
            (path_to_title path)
            [round_decimals decimals low; round_decimals decimals high]
            (map strip (LUT1D_comments l)))
      (fun l' => Ok (LUT_1D l')).
Proof.
  intros Hw Hdom Hlen Hc.
  rewrite (write_LUT1D_text fs l path decimals low high Hdom Hw).
  cbn [snd]. unfold read_LUT_SonySPI1D. rewrite file_with_file.
  set (rows := map (fun x => [x]) (LUT1D_table l)).
  assert (Hrows : Forall (fun row : list Q => row <> []) rows).
  { apply Forall_forall. intros row Hin.
    apply in_map_iff in Hin as (x & <- & _). discriminate. }
  pose proof (read_written_lines decimals low high
                (List.length (LUT1D_table l)) true rows
                (LUT1D_comments l) Hrows Hc) as Hread.
  cbv iota in Hread. rewrite Hread. cbn [bind data dimensions
    domain_min domain_max Sony_spi1d.comments].
  assert (Hcol : map (map (round_decimals decimals)) rows
                 = map (fun x => [x])
                     (map (round_decimals decimals) (LUT1D_table l))).
  { unfold rows. rewrite !map_map. reflexivity. }
  rewrite as_float_array_format.
  - cbn [bind]. rewrite Hcol, squeeze_column
      by (rewrite length_map; assumption).
    reflexivity.
  - unfold rows. destruct (LUT1D_table l); [ cbn in Hlen; lia | discriminate ].
  - rewrite Hcol. apply same_width_column.
Qed.

(** X24: the exact round trip.  A 1D LUT whose numbers have no more
    decimals than the format keeps, whose comments have no white space
    around them and whose name is the title of the path is read back from
    its file as it is.  What a round trip makes of any 1D LUT is such a
    LUT: a second round trip changes nothing. *)
Theorem write_read_exact
  (path_to_title : string -> string) (fs : file_system) (path : string)
  (decimals : nat) (l : LUT1D) (low high : Q) :
  writable fs path = true ->
  LUT1D_domain l = [low; high] -> Qltb low high = true ->
  (2 <= List.length (LUT1D_table l))%nat ->
  forallb no_line_break (LUT1D_comments l) = true ->
  (exact_LUT1D decimals l -> LUT1D_name l = path_to_title path ->
   read_LUT_SonySPI1D path_to_title
     (snd (write_LUT_SonySPI1D fs (Single (LUT_1D l)) path
            (Z.of_nat decimals))) path
   = Ok (LUT_1D l)) /\
  exact_LUT1D decimals (round_trip_LUT1D decimals (path_to_title path) l).
Proof.
  intros Hw Hdom Hord Hlen Hc. split.
  - intros (Htable & Hdomain & Hcomments) Hname.
    rewrite (read_written_LUT1D path_to_title fs path decimals l low high)
      by assumption.
    rewrite Hdom in Hdomain. cbn [map] in Hdomain.
    injection Hdomain as Hlow Hhigh.
    rewrite Htable, Hcomments, Hlow, Hhigh, <- Hname.
    unfold new_LUT1D. apply Nat.leb_le in Hlen. rewrite Hlen, Hord.
    cbn [andb bind]. rewrite <- Hdom. destruct l; reflexivity.
  - unfold exact_LUT1D, round_trip_LUT1D.
    cbn [LUT1D_table LUT1D_domain LUT1D_comments].
    rewrite !map_map. repeat split; apply map_ext; intros a.
    + apply round_decimals_fixed.
    + apply round_decimals_fixed.
    + apply strip_idempotent.
Qed.

Lemma write_read_exact_witness :
  read_LUT_SonySPI1D (fun path => "My LUT")
    (snd (write_LUT_SonySPI1D empty_fs (Single (LUT_1D example_LUT1D))
            "a.spi1d" 2)) "a.spi1d"
  = Ok (LUT_1D example_LUT1D).
Proof.
  refine (proj1 (write_read_exact (fun path => "My LUT") empty_fs "a.spi1d" 2
                   example_LUT1D (-1 # 10)%Q (3 # 2)%Q
                   eq_refl eq_refl eq_refl _ eq_refl) _ eq_refl).
  - cbn. lia.
  - repeat split; vm_compute; reflexivity.
Defined.

(** *** The domain of a 3x1D LUT *)

(** X26: what the writer takes for a uniform domain.  It asks that the
    domain of a 3x1D LUT hold two distinct values in all, not that its
    rows be [[low, low, low]] and [[high, high, high]]: a domain whose
    channels disagree, such as [[0, 1, 0], [1, 0, 1]], is written as
    [From low high] with the two values in increasing order, and read
    back as the uniform domain over them. *)
Theorem write_read_normalises_domain
  (path_to_title : string -> string) (fs : file_system) (path : string)
  (decimals : nat) (l : LUT3x1D) (low high : Q) :
  writable fs path = true ->
  List.length (LUT3x1D_domain l) = 2%nat ->
  np_unique (flatten (LUT3x1D_domain l)) = [low; high] ->
  (2 <= List.length (LUT3x1D_table l))%nat ->
  forallb no_line_break (LUT3x1D_comments l) = true ->
  read_LUT_SonySPI1D path_to_title
    (snd (write_LUT_SonySPI1D fs (Single (LUT_3x1D l)) path
            (Z.of_nat decimals))) path
  = Ok (LUT_3x1D
          {| LUT3x1D_table := map (round_triple decimals) (LUT3x1D_table l);
             LUT3x1D_name := path_to_title path;
             LUT3x1D_domain :=
               [round_triple decimals (low, low, low);
                round_triple decimals (high, high, high)];
             LUT3x1D_comments := map strip (LUT3x1D_comments l) |}).
Proof.
  intros Hw Hdom Hunique Hlen Hc.
  assert (Hwrite :
    write_LUT_SonySPI1D fs (Single (LUT_3x1D l)) path (Z.of_nat decimals)
    = (Ok true,
       with_file fs path
         (text_of_lines
            (written_lines decimals low high (List.length (LUT3x1D_table l))
               "3" (map row_of_triple (LUT3x1D_table l))
               (LUT3x1D_comments l))))).
  { rewrite (write_LUT_text fs (Single (LUT_3x1D l)) path _ (LUT_3x1D l)
               low high eq_refl); try assumption; try lia.
    - rewrite Nat2Z.id. reflexivity.
    - unfold write_precondition_violated.
      cbn [is_domain_explicit is_1D_or_3x1D]. rewrite Hdom, Hunique.
      reflexivity. }
  rewrite Hwrite. cbn [snd]. unfold read_LUT_SonySPI1D.
  rewrite file_with_file.
  set (rows := map row_of_triple (LUT3x1D_table l)).
  assert (Hrows : Forall (fun row : list Q => row <> []) rows).
  { apply Forall_forall. intros row Hin.
    apply in_map_iff in Hin as ([[r g] b] & <- & _). discriminate. }
  pose proof (read_written_lines decimals low high
                (List.length (LUT3x1D_table l)) false rows
                (LUT3x1D_comments l) Hrows Hc) as Hread.
  cbv iota in Hread. rewrite Hread. cbn [bind data dimensions
    domain_min domain_max Sony_spi1d.comments].
  assert (Hcol : map (map (round_decimals decimals)) rows
                 = map row_of_triple
                     (map (round_triple decimals) (LUT3x1D_table l))).
  { unfold rows. rewrite !map_map. apply map_ext.
    intros [[r g] b]. reflexivity. }
  rewrite as_float_array_format.
  - cbn [bind]. change (2 =? 1)%Z with false. change (2 =? 2)%Z with true.
    cbv iota. unfold new_LUT3x1D.
    rewrite Hcol, as_triples_rows, length_map.
    apply Nat.leb_le in Hlen. rewrite Hlen. reflexivity.
  - unfold rows.
    destruct (LUT3x1D_table l); [ cbn in Hlen; lia | discriminate ].
  - rewrite Hcol. apply same_width_triples.
Qed.

Lemma write_read_normalises_domain_witness :
  exists l,
    read_LUT_SonySPI1D (fun path => path)
      (snd (write_LUT_SonySPI1D empty_fs (Single (LUT_3x1D mixed_LUT3x1D))
              "mixed.spi1d" 2)) "mixed.spi1d" = Ok (LUT_3x1D l) /\
    LUT3x1D_domain mixed_LUT3x1D = [(0, 1, 0); (1, 0, 1)]%Q /\
    LUT3x1D_domain l = [(0, 0, 0); (1, 1, 1)]%Q.
Proof.
  eexists. split; [ | split ].
  - refine (write_read_normalises_domain (fun path => path) empty_fs
              "mixed.spi1d" 2 mixed_LUT3x1D 0%Q 1%Q
              eq_refl eq_refl _ _ eq_refl).
    + vm_compute. reflexivity.
    + cbn. lia.
  - reflexivity.
  - vm_compute. reflexivity.
Defined.

End Codec.
